(** * Shape, length and causality bookkeeping of the SoundStream-XL codec

    A shallow embedding of [encoders/encoders.py]: the causal convolution
    primitives, the residual units, the encoder and decoder stacks, the
    codec that joins them, the padding helper, and the two discriminators
    with their analytic length maps and their forward passes; and of the
    context managers [train_mode] and [eval_mode] of [train_rqvae.py].

    Tensors are three-dimensional (batch, channels, time): a shape and an
    indexing function; the unbatched two-dimensional inputs that the
    convolutions also accept are not modelled.  The spectrograms of the
    STFT-based discriminator are four-dimensional (batch, channels,
    frequency, time).  The scalar type and its operations are abstract, so
    every statement holds for all parameter values and for any arithmetic
    on the samples; only shapes, indices and data dependencies are
    reasoned about.  Integer tensors of lengths are lists of mathematical
    integers: the element type of a length tensor is chosen by the caller,
    and on a 64-bit tensor the library computes the same values as long as
    every sum stays in the 64-bit range, beyond which it wraps around.
    Statements that give the values of a length map on arbitrary lengths
    are therefore made for lengths in that range; the sizes of a tensor
    are well within it. *)

From stdpp Require Import base decidable list strings pretty gmap.
From Stdlib Require Import ZArith Lia ZifyNat.

Open Scope nat_scope.

(** ** Exceptions and fallible computations *)

Inductive exn : Set := ValueError | RuntimeError | IndexError | KeyError.

Inductive result (A : Type) : Type :=
| Ok (a : A)
| Raise (e : exn).

Arguments Ok {A} a.
Arguments Raise {A} e.

#[global] Instance result_ret : MRet result := λ A a, Ok a.

#[global] Instance result_bind : MBind result := λ A B f c,
  match c with
  | Ok a => f a
  | Raise e => Raise e
  end.

Definition is_Ok {A} (c : result A) : Prop := ∃ a, c = Ok a.

(** Python list indexing [l[i]] with a non-negative index. *)
Definition index {A} (l : list A) (i : nat) : result A :=
  match l !! i with
  | Some a => Ok a
  | None => Raise IndexError
  end.

(** Python slice bound: the length of [x[:stop]] on a sequence of length
    [len] (a negative [stop] counts from the end; the result is clamped). *)
Definition slice_stop (len : nat) (stop : Z) : nat :=
  if decide (stop < 0)%Z
  then Z.to_nat (Z.max 0 (Z.of_nat len + stop))
  else Z.to_nat (Z.min stop (Z.of_nat len)).

(** ** Integer tensors of lengths *)

(** [lengths + c] and [torch.div(lengths, d, rounding_mode="floor")] on a
    batch of lengths, as exact integers: the values of the library as long
    as [l + c] stays in the range of the element type. *)
Definition lengths_add (lengths : list Z) (c : Z) : list Z :=
  (λ l, l + c)%Z <$> lengths.

Definition torch_div_floor (lengths : list Z) (d : Z) : list Z :=
  (λ l, l `div` d)%Z <$> lengths.

(** The key [f"disc_{downsampling_factor**i}"] of the sub-discriminator of
    scale [i]. *)
Definition disc_key (downsampling_factor : Z) (i : nat) : string :=
  "disc_" +:+ pretty (downsampling_factor ^ Z.of_nat i)%Z.

(** [d[key]] on a dictionary. *)
Definition getitem {A} (d : gmap string A) (key : string) : result A :=
  match d !! key with
  | Some a => Ok a
  | None => Raise KeyError
  end.

(** The path of a module in the module tree: the positions to follow from
    the root through the nested [layers] containers. *)
Definition path := list nat.

(** ** A concrete instance of the scalars

    Integer samples, integer stand-ins for the two activations, and a
    parameter store that holds 1 in every weight and 0 in every bias. *)

Definition elu_Z (x : Z) : Z := Z.max x (-1).
Definition leaky_relu_Z (x : Z) : Z := Z.max x (x `div` 5).
Definition ones_w : path → nat → nat → nat → Z := λ _ _ _ _, 1%Z.
Definition zero_b : path → nat → Z := λ _ _, 0%Z.

Section Codec.

(** Samples and parameters: an abstract scalar type with the operations the
    layers use. *)
Variable R : Type.
Variable R0 : R.
Variables Radd Rmul : R → R → R.
Variables elu leaky_relu : R → R.

(** The values held by the learnable parameters, addressed by the path of
    the owning module in the module tree (as in a state dict). *)
Variable theta_w : path → nat → nat → nat → R.
Variable theta_b : path → nat → R.

(** ** Tensors *)

Record tensor : Type := Tensor {
  batch : nat;
  channels : nat;
  steps : nat;
  data : nat → nat → nat → R
}.

(** A convolution weight: (out, in / groups, kernel) for a convolution,
    (in, out / groups, kernel) for a transposed convolution. *)
Record weight_t : Type := Weight {
  w_dim0 : nat;
  w_dim1 : nat;
  w_k : nat;
  w_data : nat → nat → nat → R
}.

Fixpoint sumR (n : nat) (f : nat → R) : R :=
  match n with
  | 0 => R0
  | S n' => Radd (sumR n' f) (f n')
  end.

Definition tensor_map (f : R → R) (x : tensor) : tensor :=
  Tensor (batch x) (channels x) (steps x) (λ b c t, f (data x b c t)).

(** Broadcasting of one dimension, and the index read in a broadcast
    operand. *)
Definition bdim (a b : nat) : result nat :=
  if decide (a = b) then Ok a
  else if decide (a = 1) then Ok b
  else if decide (b = 1) then Ok a
  else Raise RuntimeError.

Definition bidx (dim i : nat) : nat := if decide (dim = 1) then 0 else i.

(** [x + y] on tensors. *)
Definition tensor_add (x y : tensor) : result tensor :=
  b ← bdim (batch x) (batch y);
  c ← bdim (channels x) (channels y);
  t ← bdim (steps x) (steps y);
  Ok (Tensor b c t (λ i j k,
        Radd (data x (bidx (batch x) i) (bidx (channels x) j) (bidx (steps x) k))
             (data y (bidx (batch y) i) (bidx (channels y) j) (bidx (steps y) k)))).

(** [x[..., :stop]]. *)
Definition slice_last (x : tensor) (stop : Z) : tensor :=
  Tensor (batch x) (channels x) (slice_stop (steps x) stop) (data x).

(** ** Functional primitives of the tensor library *)

(** [F.pad(x, [left, right])], constant mode with value zero; a negative
    amount crops. *)
Definition F_pad (x : tensor) (left right : Z) : result tensor :=
  let n := (Z.of_nat (steps x) + left + right)%Z in
  if decide (n < 0)%Z then Raise RuntimeError
  else Ok (Tensor (batch x) (channels x) (Z.to_nat n)
             (λ b c t,
                let u := (Z.of_nat t - left)%Z in
                if decide (0 ≤ u < Z.of_nat (steps x))%Z
                then data x b c (Z.to_nat u) else R0)).

(** Reading position [u] of the input zero-padded by [p] on both sides. *)
Definition pad_read (x : tensor) (p b c u : nat) : R :=
  if decide (p ≤ u ∧ u - p < steps x) then data x b c (u - p) else R0.

(** [F.conv1d(x, w, bias, stride, padding, dilation, groups)].  The weight
    has to hold at least one output channel for each group, so a
    convolution without output channels is refused. *)
Definition F_conv1d (x : tensor) (w : weight_t) (bias : nat → R)
    (stride padding dilation groups : nat) : result tensor :=
  let padded := steps x + 2 * padding in
  let span := dilation * (w_k w - 1) + 1 in
  if decide (1 ≤ stride ∧ 1 ≤ dilation ∧ 1 ≤ groups ∧ 1 ≤ w_k w
             ∧ channels x = w_dim1 w * groups
             ∧ w_dim0 w `mod` groups = 0
             ∧ span ≤ padded
             ∧ groups ≤ w_dim0 w)
  then Ok (Tensor (batch x) (w_dim0 w) ((padded - span) `div` stride + 1)
             (λ b o t,
                Radd (bias o)
                  (sumR (w_dim1 w) (λ i, sumR (w_k w) (λ j,
                     Rmul (pad_read x padding b
                             (o `div` (w_dim0 w `div` groups) * w_dim1 w + i)
                             (t * stride + j * dilation))
                          (w_data w o i j))))))
  else Raise RuntimeError.

(** A module, seen from its callers: its forward function. *)
Definition nn_Module : Type := tensor → result tensor.

(** [nn.Sequential]. *)
Fixpoint Sequential (layers : list nn_Module) (x : tensor) : result tensor :=
  match layers with
  | [] => Ok x
  | l :: ls => y ← l x; Sequential ls y
  end.

Definition ELU : nn_Module := λ x, Ok (tensor_map elu x).
Definition LeakyReLU : nn_Module := λ x, Ok (tensor_map leaky_relu x).

(** ** [nn.Conv1d] (zero padding mode, with bias) *)

Record Conv1d : Type := {
  in_channels : nat;
  out_channels : nat;
  kernel_size : nat;
  stride : nat;
  padding : nat;
  dilation : nat;
  groups : nat;
  weight : weight_t;
  bias : nat → R
}.

(** The constructor of the library class: it rejects a group count that is
    not positive or does not divide both channel counts. *)
Definition nn_Conv1d (p : path) (in_c out_c k s pad d g : nat) : result Conv1d :=
  if decide (1 ≤ g ∧ in_c `mod` g = 0 ∧ out_c `mod` g = 0)
  then Ok {| in_channels := in_c; out_channels := out_c; kernel_size := k;
             stride := s; padding := pad; dilation := d; groups := g;
             weight := Weight out_c (in_c `div` g) k (theta_w p);
             bias := theta_b p |}
  else Raise ValueError.

Definition _conv_forward (m : Conv1d) (x : tensor) (w : weight_t) (b : nat → R) : result tensor :=
  F_conv1d x w b (stride m) (padding m) (dilation m) (groups m).

Definition Conv1d_forward (m : Conv1d) : nn_Module :=
  λ x, _conv_forward m x (weight m) (bias m).

(** ** [CausalConv1d] *)

Record CausalConv1d : Type := {
  cc_conv :> Conv1d;
  cc_causal_padding : Z
}.

Definition CausalConv1d_init (p : path) (in_c out_c k s pad d g : nat) : result CausalConv1d :=
  c ← nn_Conv1d p in_c out_c k s pad d g;
  Ok {| cc_conv := c;
        cc_causal_padding := (Z.of_nat (dilation c) * (Z.of_nat (kernel_size c) - 1))%Z |}.

Definition CausalConv1d_forward (m : CausalConv1d) : nn_Module :=
  λ x, xp ← F_pad x (cc_causal_padding m) 0;
       _conv_forward m xp (weight m) (bias m).

(** ** [nn.ConvTranspose1d] *)

(** [F.conv_transpose1d(x, w, bias, stride, padding, output_padding, groups,
    dilation)].  Output sample [t] collects every input sample [n] and
    kernel tap [j] with [n * stride + j * dilation = t + padding].  As for
    [F.conv1d], the first dimension of the weight, here the input
    channels, has to hold at least one channel for each group. *)
Definition F_conv_transpose1d (x : tensor) (w : weight_t) (bias : nat → R)
    (stride padding output_padding groups dilation : nat) : result tensor :=
  let out_len :=
    ((Z.of_nat (steps x) - 1) * Z.of_nat stride - 2 * Z.of_nat padding
     + Z.of_nat dilation * (Z.of_nat (w_k w) - 1)
     + Z.of_nat output_padding + 1)%Z in
  if decide (1 ≤ stride ∧ 1 ≤ dilation ∧ 1 ≤ groups ∧ 1 ≤ w_k w
             ∧ (output_padding < stride ∨ output_padding < dilation)
             ∧ channels x = w_dim0 w
             ∧ w_dim0 w `mod` groups = 0
             ∧ 1 ≤ steps x
             ∧ (1 ≤ out_len)%Z
             ∧ groups ≤ w_dim0 w)
  then Ok (Tensor (batch x) (w_dim1 w * groups) (Z.to_nat out_len)
             (λ b o t,
                Radd (bias o)
                  (sumR (w_dim0 w `div` groups) (λ i, sumR (w_k w) (λ j,
                     let c := o `div` w_dim1 w * (w_dim0 w `div` groups) + i in
                     let u := (Z.of_nat t + Z.of_nat padding
                               - Z.of_nat j * Z.of_nat dilation)%Z in
                     if decide (0 ≤ u ∧ u `mod` Z.of_nat stride = 0
                                ∧ u `div` Z.of_nat stride < Z.of_nat (steps x))%Z
                     then Rmul (data x b c (Z.to_nat (u `div` Z.of_nat stride)))
                               (w_data w c (o `mod` w_dim1 w) j)
                     else R0)))))
  else Raise RuntimeError.

Record ConvTranspose1d : Type := {
  ct_in_channels : nat;
  ct_out_channels : nat;
  ct_kernel_size : nat;
  ct_stride : nat;
  ct_padding : nat;
  ct_output_padding : nat;
  ct_groups : nat;
  ct_dilation : nat;
  ct_padding_mode : string;
  ct_weight : weight_t;
  ct_bias : nat → R
}.

(** The constructor of the library class, which [CausalConvTranspose1d]
    runs through [super().__init__]: the base class of the transposed
    convolutions raises [ValueError] for every padding mode but ["zeros"],
    before the checks on the group count. *)
Definition nn_ConvTranspose1d (p : path)
    (in_c out_c k s pad out_pad g d : nat) (padding_mode : string) : result ConvTranspose1d :=
  if decide (padding_mode ≠ "zeros") then Raise ValueError
  else if decide (1 ≤ g ∧ in_c `mod` g = 0 ∧ out_c `mod` g = 0)
  then Ok {| ct_in_channels := in_c; ct_out_channels := out_c; ct_kernel_size := k;
             ct_stride := s; ct_padding := pad; ct_output_padding := out_pad;
             ct_groups := g; ct_dilation := d; ct_padding_mode := padding_mode;
             ct_weight := Weight in_c (out_c `div` g) k (theta_w p);
             ct_bias := theta_b p |}
  else Raise ValueError.

(** [_output_padding] when no [output_size] is requested, which is how
    [nn.Sequential] calls [forward]. *)
Definition _output_padding (m : ConvTranspose1d) : nat := ct_output_padding m.

(** ** [CausalConvTranspose1d] *)

Record CausalConvTranspose1d : Type := {
  cct_conv :> ConvTranspose1d;
  cct_causal_padding : Z
}.

Definition CausalConvTranspose1d_init (p : path)
    (in_c out_c k s pad out_pad g d : nat) (padding_mode : string) : result CausalConvTranspose1d :=
  c ← nn_ConvTranspose1d p in_c out_c k s pad out_pad g d padding_mode;
  Ok {| cct_conv := c;
        cct_causal_padding :=
          (Z.of_nat (ct_dilation c) * (Z.of_nat (ct_kernel_size c) - 1)
           + Z.of_nat (ct_output_padding c) + 1 - Z.of_nat (ct_stride c))%Z |}.

Definition CausalConvTranspose1d_forward (m : CausalConvTranspose1d) : nn_Module :=
  λ x, if decide (ct_padding_mode m ≠ "zeros") then Raise ValueError
       else
         let output_padding := _output_padding m in
         y ← F_conv_transpose1d x (ct_weight m) (ct_bias m) (ct_stride m)
               (ct_padding m) output_padding (ct_groups m) (ct_dilation m);
         Ok (slice_last y (- cct_causal_padding m)).

(** ** [ResidualUnit] *)

Record ResidualUnit : Type := {
  ru_dilation : nat;
  ru_layers : list nn_Module
}.

Definition ResidualUnit_init (p : path) (in_c out_c d : nat) : result ResidualUnit :=
  c0 ← CausalConv1d_init (p ++ [0]) in_c out_c 7 1 0 d 1;
  c2 ← nn_Conv1d (p ++ [2]) in_c out_c 1 1 0 1 1;
  Ok {| ru_dilation := d;
        ru_layers := [CausalConv1d_forward c0; ELU; Conv1d_forward c2] |}.

Definition ResidualUnit_forward (m : ResidualUnit) : nn_Module :=
  λ x, y ← Sequential (ru_layers m) x; tensor_add x y.

(** ** [EncoderBlock] and [DecoderBlock] *)

Record EncoderBlock : Type := { eb_layers : list nn_Module }.

Definition EncoderBlock_init (p : path) (in_c out_c s : nat) : result EncoderBlock :=
  r0 ← ResidualUnit_init (p ++ [0]) in_c in_c 1;
  r2 ← ResidualUnit_init (p ++ [2]) in_c in_c 3;
  r4 ← ResidualUnit_init (p ++ [4]) in_c in_c 9;
  c6 ← CausalConv1d_init (p ++ [6]) in_c out_c (2 * s) s 0 1 1;
  Ok {| eb_layers := [ResidualUnit_forward r0; ELU;
                      ResidualUnit_forward r2; ELU;
                      ResidualUnit_forward r4; ELU;
                      CausalConv1d_forward c6] |}.

Definition EncoderBlock_forward (m : EncoderBlock) : nn_Module :=
  Sequential (eb_layers m).

Record DecoderBlock : Type := { db_layers : list nn_Module }.

Definition DecoderBlock_init (p : path) (in_c out_c s : nat) : result DecoderBlock :=
  t0 ← CausalConvTranspose1d_init (p ++ [0]) in_c out_c (2 * s) s 0 0 1 1 "zeros";
  r2 ← ResidualUnit_init (p ++ [2]) out_c out_c 1;
  r4 ← ResidualUnit_init (p ++ [4]) out_c out_c 3;
  r6 ← ResidualUnit_init (p ++ [6]) out_c out_c 9;
  Ok {| db_layers := [CausalConvTranspose1d_forward t0; ELU;
                      ResidualUnit_forward r2; ELU;
                      ResidualUnit_forward r4; ELU;
                      ResidualUnit_forward r6] |}.

Definition DecoderBlock_forward (m : DecoderBlock) : nn_Module :=
  Sequential (db_layers m).

(** ** [SoundStreamXLEncoder] *)

Definition default_strides : list nat := [2; 2; 4; 5; 8].
Definition default_c_mults : list nat := [2; 4; 4; 8; 16].

Record SoundStreamXLEncoder : Type := {
  enc_depth : nat;
  enc_layers : list nn_Module
}.

(** The loop [for i in range(self.depth-1)], from index [i] for [n] more
    rounds; round [i] appends the block at position [2 + 2 * i] of the
    layer list and an activation. *)
Fixpoint SoundStreamXLEncoder_blocks (p : path) (n_channels : nat)
    (c_mults strides : list nat) (i n : nat) : result (list nn_Module) :=
  match n with
  | 0 => Ok []
  | S n' =>
      ci ← index c_mults i;
      co ← index c_mults (i + 1);
      s ← index strides i;
      blk ← EncoderBlock_init (p ++ [2 + 2 * i]) (ci * n_channels) (co * n_channels) s;
      rest ← SoundStreamXLEncoder_blocks p n_channels c_mults strides (S i) n';
      Ok (EncoderBlock_forward blk :: ELU :: rest)
  end.

Definition SoundStreamXLEncoder_init (p : path) (n_channels latent_dim n_io_channels : nat)
    (strides c_mults : list nat) : result SoundStreamXLEncoder :=
  let c_mults := 1 :: c_mults in
  let depth := length c_mults in
  c_first ← index c_mults 0;
  conv_in ← CausalConv1d_init (p ++ [0]) n_io_channels (c_first * n_channels) 7 1 0 1 1;
  blocks ← SoundStreamXLEncoder_blocks p n_channels c_mults strides 0 (depth - 1);
  c_last ← index c_mults (length c_mults - 1);
  conv_out ← CausalConv1d_init (p ++ [2 + 2 * (depth - 1)]) (c_last * n_channels) latent_dim 3 1 0 1 1;
  Ok {| enc_depth := depth;
        enc_layers := [CausalConv1d_forward conv_in; ELU] ++ blocks
                      ++ [CausalConv1d_forward conv_out] |}.

Definition SoundStreamXLEncoder_forward (m : SoundStreamXLEncoder) : nn_Module :=
  Sequential (enc_layers m).

(** The strides of the encoder blocks that the constructor builds, and
    their product. *)
Definition block_strides (strides c_mults : list nat) : list nat :=
  take (length c_mults) strides.

Definition total_stride (strides : list nat) : nat := foldr Nat.mul 1 strides.

(** ** [SoundStreamXLDecoder] *)

Record SoundStreamXLDecoder : Type := {
  dec_depth : nat;
  dec_layers : list nn_Module
}.

(** The loop [for i in range(self.depth-1, 0, -1)], from index [i] down to
    1; [pos] is the position of the next block in the layer list. *)
Fixpoint SoundStreamXLDecoder_blocks (p : path) (n_channels : nat)
    (c_mults strides : list nat) (i pos : nat) : result (list nn_Module) :=
  match i with
  | 0 => Ok []
  | S i' =>
      ci ← index c_mults i;
      co ← index c_mults i';
      s ← index strides i';
      blk ← DecoderBlock_init (p ++ [pos]) (ci * n_channels) (co * n_channels) s;
      rest ← SoundStreamXLDecoder_blocks p n_channels c_mults strides i' (pos + 2);
      Ok (DecoderBlock_forward blk :: ELU :: rest)
  end.

Definition SoundStreamXLDecoder_strides : list nat := [2; 2; 4; 5; 8].

Definition SoundStreamXLDecoder_init (p : path) (n_channels latent_dim n_io_channels : nat)
    : result SoundStreamXLDecoder :=
  let c_mults := 1 :: [2; 4; 4; 8; 16] in
  let strides := SoundStreamXLDecoder_strides in
  let depth := length c_mults in
  c_last ← index c_mults (length c_mults - 1);
  conv_in ← CausalConv1d_init (p ++ [0]) latent_dim (c_last * n_channels) 7 1 0 1 1;
  blocks ← SoundStreamXLDecoder_blocks p n_channels c_mults strides (depth - 1) 2;
  c_first ← index c_mults 0;
  conv_out ← CausalConv1d_init (p ++ [2 + 2 * (depth - 1)]) (c_first * n_channels) n_io_channels 7 1 0 1 1;
  Ok {| dec_depth := depth;
        dec_layers := [CausalConv1d_forward conv_in; ELU] ++ blocks
                      ++ [CausalConv1d_forward conv_out] |}.

Definition SoundStreamXLDecoder_forward (m : SoundStreamXLDecoder) : nn_Module :=
  Sequential (dec_layers m).

(** ** [WaveDiscriminatorBlock] *)

(** [nn.ReflectionPad1d(p)]: the padding has to be smaller than the input. *)
Definition ReflectionPad1d (p : nat) : nn_Module :=
  λ x, if decide (p < steps x)
       then Ok (Tensor (batch x) (channels x) (steps x + 2 * p)
                  (λ b c t,
                     data x b c
                       (if decide (t < p) then p - t
                        else if decide (t - p < steps x) then t - p
                        else 2 * (steps x - 1) - (t - p))))
       else Raise RuntimeError.

(** [WNConv1d]: weight normalisation only reparametrises the weight, whose
    value is the one held by the parameter store. *)
Definition WNConv1d (p : path) (in_c out_c k s pad d g : nat) : result Conv1d :=
  nn_Conv1d p in_c out_c k s pad d g.

Record WaveDiscriminatorBlock : Type := { wdb_layers : list nn_Module }.

Definition WaveDiscriminatorBlock_init (p : path) : result WaveDiscriminatorBlock :=
  c0 ← WNConv1d (p ++ [0; 1]) 1 16 15 1 0 1 1;
  c1 ← WNConv1d (p ++ [1; 0]) 16 64 41 4 20 1 4;
  c2 ← WNConv1d (p ++ [2; 0]) 64 256 41 4 20 1 16;
  c3 ← WNConv1d (p ++ [3; 0]) 256 1024 41 4 20 1 64;
  c4 ← WNConv1d (p ++ [4; 0]) 1024 1024 41 4 20 1 256;
  c5 ← WNConv1d (p ++ [5; 0]) 1024 1024 5 1 2 1 1;
  c6 ← WNConv1d (p ++ [6]) 1024 1 3 1 1 1 1;
  Ok {| wdb_layers :=
          [Sequential [ReflectionPad1d 7; Conv1d_forward c0; LeakyReLU];
           Sequential [Conv1d_forward c1; LeakyReLU];
           Sequential [Conv1d_forward c2; LeakyReLU];
           Sequential [Conv1d_forward c3; LeakyReLU];
           Sequential [Conv1d_forward c4; LeakyReLU];
           Sequential [Conv1d_forward c5; LeakyReLU];
           Conv1d_forward c6] |}.

Definition WaveDiscriminatorBlock_features_lengths (m : WaveDiscriminatorBlock)
    (lengths : list Z) : list (list Z) :=
  [lengths;
   torch_div_floor (lengths_add lengths 3) 4;
   torch_div_floor (lengths_add lengths 15) 16;
   torch_div_floor (lengths_add lengths 63) 64;
   torch_div_floor (lengths_add lengths 255) 256;
   torch_div_floor (lengths_add lengths 255) 256;
   torch_div_floor (lengths_add lengths 255) 256].

(** The loop of [forward]: every layer is applied to the output of the
    previous one and every output is kept. *)
Fixpoint feature_maps (layers : list nn_Module) (x : tensor) : result (list tensor) :=
  match layers with
  | [] => Ok []
  | l :: ls => y ← l x; rest ← feature_maps ls y; Ok (y :: rest)
  end.

Definition WaveDiscriminatorBlock_forward (m : WaveDiscriminatorBlock)
    (x : tensor) : result (list tensor) :=
  feature_maps (wdb_layers m) x.

(** ** [WaveDiscriminator]: construction and length map *)

Record WaveDiscriminator : Type := {
  num_D : nat;
  downsampling_factor : Z;
  model : gmap string WaveDiscriminatorBlock
}.

(** The dictionary comprehension of the constructor, from scale [i] for [n]
    more scales; a later scale with the same key replaces the earlier one. *)
Fixpoint WaveDiscriminator_model (p : path) (df : Z) (i n : nat)
    (acc : gmap string WaveDiscriminatorBlock) : result (gmap string WaveDiscriminatorBlock) :=
  match n with
  | 0 => Ok acc
  | S n' =>
      blk ← WaveDiscriminatorBlock_init (p ++ [i]);
      WaveDiscriminator_model p df (S i) n' (<[disc_key df i := blk]> acc)
  end.

Definition WaveDiscriminator_init (p : path) (num_D : nat) (downsampling_factor : Z)
    : result WaveDiscriminator :=
  mdl ← WaveDiscriminator_model p downsampling_factor 0 num_D ∅;
  Ok {| num_D := num_D; downsampling_factor := downsampling_factor; model := mdl |}.

(** The dictionary comprehension of [features_lengths]. *)
Fixpoint WaveDiscriminator_features_lengths_from (m : WaveDiscriminator) (lengths : list Z)
    (i n : nat) (acc : gmap string (list (list Z))) : result (gmap string (list (list Z))) :=
  match n with
  | 0 => Ok acc
  | S n' =>
      blk ← getitem (model m) (disc_key (downsampling_factor m) i);
      WaveDiscriminator_features_lengths_from m lengths (S i) n'
        (<[disc_key (downsampling_factor m) i :=
             WaveDiscriminatorBlock_features_lengths blk
               (torch_div_floor lengths (2 ^ Z.of_nat i))]> acc)
  end.

Definition WaveDiscriminator_features_lengths (m : WaveDiscriminator) (lengths : list Z)
    : result (gmap string (list (list Z))) :=
  WaveDiscriminator_features_lengths_from m lengths 0 (num_D m) ∅.

(** ** [STFTDiscriminator]: length map *)

Definition STFTDiscriminator_features_lengths (lengths : list Z) : list (list Z) :=
  [lengths_add lengths (-6);
   lengths_add lengths (-6);
   torch_div_floor (lengths_add lengths (-5)) 2;
   torch_div_floor (lengths_add lengths (-5)) 2;
   torch_div_floor (lengths_add lengths (-3)) 4;
   torch_div_floor (lengths_add lengths (-3)) 4;
   torch_div_floor (lengths_add lengths 1) 8;
   torch_div_floor (lengths_add lengths 1) 8].

(** [torch.zeros(b, c, t)]. *)
Definition zeros (b c t : nat) : tensor := Tensor b c t (λ _ _ _, R0).


(** ** [SoundStreamXL] *)

(** The residual vector quantizer comes from an external library; the
    codec only calls it.  Its forward function, from the latent tensor to
    the quantized tensor, the indices and the losses, is given to the
    constructor, which stands for [ResidualVQ(...)]. *)
Record SoundStreamXL (I L : Type) : Type := {
  sx_encoder : SoundStreamXLEncoder;
  sx_decoder : SoundStreamXLDecoder;
  sx_quantizer : tensor → result (tensor * I * L)
}.

Arguments sx_encoder {I L} _.
Arguments sx_decoder {I L} _.
Arguments sx_quantizer {I L} _.

Definition SoundStreamXL_init {I L : Type} (p : path)
    (ResidualVQ : tensor → result (tensor * I * L))
    (n_io_channels n_feature_channels latent_dim : nat) : result (SoundStreamXL I L) :=
  enc ← SoundStreamXLEncoder_init (p ++ [0]) n_feature_channels latent_dim n_io_channels
           default_strides default_c_mults;
  dec ← SoundStreamXLDecoder_init (p ++ [1]) n_feature_channels latent_dim n_io_channels;
  Ok {| sx_encoder := enc; sx_decoder := dec; sx_quantizer := ResidualVQ |}.

Definition SoundStreamXL_forward {I L : Type} (m : SoundStreamXL I L) (x : tensor)
    : result (tensor * I * L) :=
  encoded ← SoundStreamXLEncoder_forward (sx_encoder m) x;
  r ← sx_quantizer m encoded;
  let '(quantized, indices, losses) := r in
  decoded ← SoundStreamXLDecoder_forward (sx_decoder m) quantized;
  Ok (decoded, indices, losses).

(** ** [get_padding] *)

(** The result is the pair [(p_left, p_right)], or the message of the
    [Exception] that is raised. *)
Definition get_padding (kernel_size dilation : Z) (mode : string) : string + (Z * Z) :=
  if decide (kernel_size = 1%Z) then inr (0, 0)%Z
  else
    let p := ((kernel_size - 1) * dilation + 1)%Z in
    let half_p := (p `div` 2)%Z in
    if decide (mode = "centered") then inr (half_p, half_p)
    else if decide (mode = "causal") then inr (2 * half_p, 0)%Z
    else if decide (mode = "anticausal") then inr (0, 2 * half_p)%Z
    else inl ("Padding mode " +:+ mode +:+ " is not valid").

(** ** [train_mode] and [eval_mode] (train_rqvae.py)

    A model is seen through [model.modules()]: the list of the [training]
    flags of its modules, in the order of that enumeration.  The body of
    the [with] block is a function from the model it receives to its
    outcome, a value or an exception, and the model it leaves. *)

(** [model.train(mode)]. *)
Definition train (mode : bool) (model : list bool) : list bool :=
  (λ _, mode) <$> model.

(** The loop of the [finally] clause from position [i]:
    [module.training = modes[i]] for every module of the model. *)
Fixpoint restore_modes (modes : list bool) (i : nat) (model : list bool)
    : result unit * list bool :=
  match model with
  | [] => (Ok tt, [])
  | training :: rest =>
      match modes !! i with
      | Some b =>
          let '(r, rest') := restore_modes modes (S i) rest in (r, b :: rest')
      | None => (Raise IndexError, training :: rest)
      end
  end.

Definition train_mode {A : Type} (model : list bool) (mode : bool)
    (body : list bool → result A * list bool) : result A * list bool :=
  let modes := model in
  let '(outcome, model1) := body (train mode model) in
  let '(restored, model2) := restore_modes modes 0 model1 in
  match restored with
  | Ok _ => (outcome, model2)
  | Raise e => (Raise e, model2)
  end.

Definition eval_mode {A : Type} (model : list bool)
    (body : list bool → result A * list bool) : result A * list bool :=
  train_mode model false body.

(** ** [nn.AvgPool1d] and [WaveDiscriminator.forward] *)

(** [nn.AvgPool1d(kernel_size, stride, padding, count_include_pad)]
    without ceiling mode.  [div_by] divides a sample by a count.  The sum
    runs over the positions of the window that fall inside the input; it is
    divided by their number, or with [count_include_pad] by the size of the
    window cut at the end of the padded input. *)
Definition AvgPool1d (div_by : R → nat → R) (kernel_size stride padding : nat)
    (count_include_pad : bool) : nn_Module :=
  λ x,
    if decide (1 ≤ kernel_size ∧ 1 ≤ stride ∧ 2 * padding ≤ kernel_size
               ∧ 1 ≤ steps x ∧ kernel_size ≤ steps x + 2 * padding)
    then Ok (Tensor (batch x) (channels x)
               ((steps x + 2 * padding - kernel_size) `div` stride + 1)
               (λ b c t,
                  let start := t * stride in
                  let inside j := bool_decide (padding ≤ start + j
                                               ∧ start + j - padding < steps x) in
                  let total := sumR kernel_size (λ j,
                                 if inside j then data x b c (start + j - padding)
                                 else R0) in
                  let count :=
                    if count_include_pad
                    then Nat.min (start + kernel_size) (steps x + 2 * padding) - start
                    else length (filter (λ j, inside j = true) (seq 0 kernel_size)) in
                  div_by total count))
    else Raise RuntimeError.

(** [self.downsampler] of the wave-based discriminator. *)
Definition WaveDiscriminator_downsampler (div_by : R → nat → R) : nn_Module :=
  AvgPool1d div_by 4 2 1 false.

(** The loop of [forward], from scale [i] for [n] more scales. *)
Fixpoint WaveDiscriminator_forward_from (div_by : R → nat → R) (m : WaveDiscriminator)
    (i n : nat) (results : gmap string (list tensor)) (x : tensor)
    : result (gmap string (list tensor)) :=
  match n with
  | 0 => Ok results
  | S n' =>
      disc ← getitem (model m) (disc_key (downsampling_factor m) i);
      fm ← WaveDiscriminatorBlock_forward disc x;
      x' ← WaveDiscriminator_downsampler div_by x;
      WaveDiscriminator_forward_from div_by m (S i) n'
        (<[disc_key (downsampling_factor m) i := fm]> results) x'
  end.

Definition WaveDiscriminator_forward (div_by : R → nat → R) (m : WaveDiscriminator)
    (x : tensor) : result (gmap string (list tensor)) :=
  WaveDiscriminator_forward_from div_by m 0 (num_D m) ∅ x.

(** The lengths of a list of feature maps, as one-element batches. *)
Definition feature_lengths (fm : list tensor) : list (list Z) :=
  (λ y, [Z.of_nat (steps y)]) <$> fm.

(** ** Stand-ins for the concrete statements *)

(** The identity in place of the quantizer, without indices and losses. *)
Definition identity_quantizer (z : tensor) : result (tensor * unit * unit) :=
  Ok (z, tt, tt).

(** Integer division in place of the division of a sum by a count. *)
Definition div_by_Z (x : Z) (n : nat) : Z := (x `div` Z.of_nat n)%Z.

(** ** Four-dimensional tensors and [nn.Conv2d] *)

(** Tensors of shape (batch, channels, height, width).  In the STFT-based
    discriminator the height is the frequency axis and the width is the
    time axis. *)
Record tensor4 : Type := Tensor4 {
  batch4 : nat;
  channels4 : nat;
  height : nat;
  width : nat;
  data4 : nat → nat → nat → nat → R
}.

Definition tensor4_map (f : R → R) (x : tensor4) : tensor4 :=
  Tensor4 (batch4 x) (channels4 x) (height x) (width x)
    (λ b c h w, f (data4 x b c h w)).

(** [x + y] on four-dimensional tensors. *)
Definition tensor4_add (x y : tensor4) : result tensor4 :=
  b ← bdim (batch4 x) (batch4 y);
  c ← bdim (channels4 x) (channels4 y);
  h ← bdim (height x) (height y);
  w ← bdim (width x) (width y);
  Ok (Tensor4 b c h w (λ i j k l,
        Radd (data4 x (bidx (batch4 x) i) (bidx (channels4 x) j)
                      (bidx (height x) k) (bidx (width x) l))
             (data4 y (bidx (batch4 y) i) (bidx (channels4 y) j)
                      (bidx (height y) k) (bidx (width y) l)))).

(** [F.pad(x, [left, right, top, bottom])], constant mode with value zero,
    for amounts that are not negative. *)
Definition F_pad4 (x : tensor4) (left right top bottom : nat) : tensor4 :=
  Tensor4 (batch4 x) (channels4 x) (height x + top + bottom) (width x + left + right)
    (λ b c h w,
       if decide (top ≤ h ∧ h - top < height x ∧ left ≤ w ∧ w - left < width x)
       then data4 x b c (h - top) (w - left) else R0).

(** The [padding] argument of a convolution: a pair of amounts, or the
    string ["same"]. *)
Inductive conv_padding : Set :=
| Padding (ph pw : nat)
| Same.

(** The zeros added before and after along an axis of kernel size [k]
    (dilation 1): ["same"] adds [k - 1] in all, the smaller half first. *)
Definition padding_before (same : bool) (amount k : nat) : nat :=
  if same then (k - 1) `div` 2 else amount.

Definition padding_after (same : bool) (amount k : nat) : nat :=
  if same then (k - 1) - (k - 1) `div` 2 else amount.

Definition is_same (pad : conv_padding) : bool :=
  match pad with Same => true | Padding _ _ => false end.

Definition padding_h (pad : conv_padding) : nat :=
  match pad with Same => 0 | Padding ph _ => ph end.

Definition padding_w (pad : conv_padding) : nat :=
  match pad with Same => 0 | Padding _ pw => pw end.

(** A two-dimensional convolution weight: (out, in, kernel height, kernel
    width). *)
Record weight4_t : Type := Weight4 {
  w4_out : nat;
  w4_in : nat;
  w4_kh : nat;
  w4_kw : nat;
  w4_data : nat → nat → nat → nat → R
}.

(** [F.conv2d(x, w, bias, stride, padding)], dilation 1 and one group. *)
Definition F_conv2d (x : tensor4) (w : weight4_t) (bias : nat → R)
    (stride : nat * nat) (padding : conv_padding) : result tensor4 :=
  let top := padding_before (is_same padding) (padding_h padding) (w4_kh w) in
  let bottom := padding_after (is_same padding) (padding_h padding) (w4_kh w) in
  let left := padding_before (is_same padding) (padding_w padding) (w4_kw w) in
  let right := padding_after (is_same padding) (padding_w padding) (w4_kw w) in
  let padded_h := height x + top + bottom in
  let padded_w := width x + left + right in
  if decide (1 ≤ stride.1 ∧ 1 ≤ stride.2 ∧ 1 ≤ w4_kh w ∧ 1 ≤ w4_kw w
             ∧ 1 ≤ w4_out w
             ∧ channels4 x = w4_in w
             ∧ w4_kh w ≤ padded_h ∧ w4_kw w ≤ padded_w)
  then Ok (Tensor4 (batch4 x) (w4_out w)
             ((padded_h - w4_kh w) `div` stride.1 + 1)
             ((padded_w - w4_kw w) `div` stride.2 + 1)
             (λ b o h v,
                Radd (bias o)
                  (sumR (w4_in w) (λ i, sumR (w4_kh w) (λ a, sumR (w4_kw w) (λ c,
                     Rmul (data4 (F_pad4 x left right top bottom) b i
                             (h * stride.1 + a) (v * stride.2 + c))
                          (w4_data w o i a c)))))))
  else Raise RuntimeError.

Record Conv2d : Type := {
  c2_in_channels : nat;
  c2_out_channels : nat;
  c2_kernel_size : nat * nat;
  c2_stride : nat * nat;
  c2_padding : conv_padding;
  c2_weight : weight4_t;
  c2_bias : nat → R
}.

(** The constructor of the library class (one group, with bias): the
    padding ["same"] is refused for a strided convolution.  The weight
    [w[o][i][a][b]] is held by the parameter store at the flattened kernel
    position [a * kernel_width + b]. *)
Definition nn_Conv2d (p : path) (in_c out_c : nat) (k s : nat * nat)
    (pad : conv_padding) : result Conv2d :=
  if decide (is_same pad = true ∧ s ≠ (1, 1)) then Raise ValueError
  else Ok {| c2_in_channels := in_c; c2_out_channels := out_c;
             c2_kernel_size := k; c2_stride := s; c2_padding := pad;
             c2_weight := Weight4 out_c in_c k.1 k.2
                            (λ o i a b, theta_w p o i (a * k.2 + b));
             c2_bias := theta_b p |}.

Definition nn_Module4 : Type := tensor4 → result tensor4.

Definition Conv2d_forward (m : Conv2d) : nn_Module4 :=
  λ x, F_conv2d x (c2_weight m) (c2_bias m) (c2_stride m) (c2_padding m).

Definition ELU4 : nn_Module4 := λ x, Ok (tensor4_map elu x).

(** [nn.Sequential] on four-dimensional tensors. *)
Fixpoint Sequential4 (layers : list nn_Module4) (x : tensor4) : result tensor4 :=
  match layers with
  | [] => Ok x
  | l :: ls => y ← l x; Sequential4 ls y
  end.

(** ** [ResidualUnit2d] *)

Record ResidualUnit2d : Type := {
  s_t : nat;
  s_f : nat;
  ru2_layers : list nn_Module4;
  skip_connection : Conv2d
}.

(** The sub-module [layers] is at position 0 and [skip_connection] at
    position 1 of the unit. *)
Definition ResidualUnit2d_init (p : path) (in_channels N m s_t s_f : nat)
    : result ResidualUnit2d :=
  c0 ← nn_Conv2d (p ++ [0; 0]) in_channels N (3, 3) (1, 1) Same;
  c2 ← nn_Conv2d (p ++ [0; 2]) N (m * N) (s_f + 2, s_t + 2) (s_f, s_t) (Padding 0 0);
  skip ← nn_Conv2d (p ++ [1]) in_channels (m * N) (1, 1) (s_f, s_t) (Padding 0 0);
  Ok {| s_t := s_t; s_f := s_f;
        ru2_layers := [Conv2d_forward c0; ELU4; Conv2d_forward c2];
        skip_connection := skip |}.

Definition ResidualUnit2d_forward (m : ResidualUnit2d) : nn_Module4 :=
  λ x, y ← Sequential4 (ru2_layers m) (F_pad4 x (s_t m + 1) 0 (s_f m + 1) 0);
       z ← Conv2d_forward (skip_connection m) x;
       tensor4_add y z.

(** ** [STFTDiscriminator] *)

Record STFTDiscriminator : Type := { stft_layers : list nn_Module4 }.

Definition STFTDiscriminator_init (p : path) (C F_bins : nat) : result STFTDiscriminator :=
  c0 ← nn_Conv2d (p ++ [0; 0]) 2 32 (7, 7) (1, 1) (Padding 0 0);
  r1 ← ResidualUnit2d_init (p ++ [1; 0]) 32 C 2 1 2;
  r2 ← ResidualUnit2d_init (p ++ [2; 0]) (2 * C) (2 * C) 2 2 2;
  r3 ← ResidualUnit2d_init (p ++ [3; 0]) (4 * C) (4 * C) 1 1 2;
  r4 ← ResidualUnit2d_init (p ++ [4; 0]) (4 * C) (4 * C) 2 2 2;
  r5 ← ResidualUnit2d_init (p ++ [5; 0]) (8 * C) (8 * C) 1 1 2;
  r6 ← ResidualUnit2d_init (p ++ [6; 0]) (8 * C) (8 * C) 2 2 2;
  c7 ← nn_Conv2d (p ++ [7]) (16 * C) 1 (F_bins `div` 2 ^ 6, 1) (1, 1) (Padding 0 0);
  Ok {| stft_layers :=
          [Sequential4 [Conv2d_forward c0; ELU4];
           Sequential4 [ResidualUnit2d_forward r1; ELU4];
           Sequential4 [ResidualUnit2d_forward r2; ELU4];
           Sequential4 [ResidualUnit2d_forward r3; ELU4];
           Sequential4 [ResidualUnit2d_forward r4; ELU4];
           Sequential4 [ResidualUnit2d_forward r5; ELU4];
           Sequential4 [ResidualUnit2d_forward r6; ELU4];
           Conv2d_forward c7] |}.

(** The loop of [forward]. *)
Fixpoint feature_maps4 (layers : list nn_Module4) (x : tensor4) : result (list tensor4) :=
  match layers with
  | [] => Ok []
  | l :: ls => y ← l x; rest ← feature_maps4 ls y; Ok (y :: rest)
  end.

Definition STFTDiscriminator_forward (m : STFTDiscriminator) (x : tensor4)
    : result (list tensor4) :=
  feature_maps4 (stft_layers m) x.

(** The time lengths of a list of feature maps, as one-element batches. *)
Definition time_lengths (fm : list tensor4) : list (list Z) :=
  (λ y, [Z.of_nat (width y)]) <$> fm.

(** ** Vocabulary of the statements *)

(** The output length of a causally padded convolution of stride [s]. *)
Definition down (s T : nat) : nat := (T - 1) `div` s + 1.

(** The length left by a cascade of such convolutions. *)
Definition down_all (strides : list nat) (T : nat) : nat :=
  foldl (λ T s, down s T) T strides.

(** A module that accepts every non-empty input of [c_in] channels and
    returns [c_out] channels and [g T] time steps for [T] of them. *)
Definition shape_map (f : nn_Module) (c_in c_out : nat) (g : nat → nat) : Prop :=
  ∀ x, channels x = c_in → 1 ≤ steps x →
    ∃ y, f x = Ok y ∧ batch y = batch x ∧ channels y = c_out
         ∧ steps y = g (steps x) ∧ 1 ≤ steps y.

(** Two tensors of the same batch and channel sizes that carry the same
    samples at every time index up to [t]. *)
Definition agree_upto (t : nat) (x x' : tensor) : Prop :=
  batch x = batch x' ∧ channels x = channels x'
  ∧ t < steps x ∧ t < steps x'
  ∧ ∀ b c i, b < batch x → c < channels x → i ≤ t → data x b c i = data x' b c i.

(** A module of total stride [s] is causal when its output at index [t']
    is determined by the input up to index [t' * s]. *)
Definition causal (f : nn_Module) (s : nat) : Prop :=
  ∀ x x' y y' t t',
    agree_upto t x x' → f x = Ok y → f x' = Ok y' → t' * s ≤ t →
    agree_upto t' y y'.

(** The values that a 64-bit integer tensor holds.  The length maps of the
    discriminators are computed on such tensors; the exact integers of the
    model are what they compute as long as every sum stays in this range. *)
Definition int64 (z : Z) : Prop := (- 2 ^ 63 ≤ z < 2 ^ 63)%Z.

(** A module that upsamples by [s] is causal when its output at index [t']
    is determined by the input up to index [t' / s]. *)
Definition causal_up (f : nn_Module) (s : nat) : Prop :=
  ∀ x x' y y' t t',
    agree_upto t x x' → f x = Ok y → f x' = Ok y' → t' `div` s ≤ t →
    agree_upto t' y y'.

(** The shape of a tensor. *)
Definition shape (x : tensor) : nat * nat * nat := (batch x, channels x, steps x).

(** The shape of a four-dimensional tensor. *)
Definition shape4 (x : tensor4) : nat * nat * nat * nat :=
  (batch4 x, channels4 x, height x, width x).

(** The shapes of the eight feature maps of the STFT-based discriminator, in
    terms of the height [h0] and the width [w0] left by the first
    convolution. *)
Definition STFTDiscriminator_shapes (C F_bins b h0 w0 : nat)
    : list (nat * nat * nat * nat) :=
  [(b, 32, h0, w0);
   (b, 2 * C, down 2 h0, w0);
   (b, 4 * C, down 4 h0, down 2 w0);
   (b, 4 * C, down 8 h0, down 2 w0);
   (b, 8 * C, down 16 h0, down 4 w0);
   (b, 8 * C, down 32 h0, down 4 w0);
   (b, 16 * C, down 64 h0, down 8 w0);
   (b, 1, down 64 h0 - F_bins `div` 64 + 1, down 8 w0)].

(** * Properties *)

#[local] Arguments Nat.div : simpl never.
#[local] Arguments Nat.modulo : simpl never.
#[local] Arguments Nat.mul : simpl never.

(** ** Fallible computations *)

Lemma bind_Ok {A B} (c : result A) (f : A → result B) (b : B) :
  c ≫= f = Ok b ↔ ∃ a, c = Ok a ∧ f a = Ok b.
Proof.
  destruct c as [a|e]; simpl; split.
  - intros H; exists a; auto.
  - intros (a' & Ha & H); congruence.
  - discriminate.
  - intros (a' & Ha & _); discriminate.
Qed.

(** Inversion of a successful bind, without unfolding its operands. *)
Ltac bind_inv H a Ha :=
  match type of H with
  | mbind ?f ?c = Ok ?b =>
      apply (proj1 (bind_Ok c f b)) in H;
      destruct H as (a & Ha & H); cbv beta in H
  end.

(** Reduction of the binds whose first operand is a value or an error. *)
Ltac simpl_bind := cbv beta iota delta [mbind result_bind].

Lemma index_Ok {A} (l : list A) (i : nat) (a : A) :
  index l i = Ok a ↔ l !! i = Some a.
Proof. unfold index; destruct (l !! i); split; congruence. Qed.

Lemma Sequential_app (l1 l2 : list nn_Module) (x : tensor) :
  Sequential (l1 ++ l2) x = Sequential l1 x ≫= Sequential l2.
Proof.
  revert x; induction l1 as [|f l1 IH]; intros x; simpl; [reflexivity|].
  destruct (f x) as [y|e]; simpl; [apply IH | reflexivity].
Qed.

(** ** Sums *)

Lemma sumR_ext (n : nat) (f g : nat → R) :
  (∀ i, i < n → f i = g i) → sumR n f = sumR n g.
Proof.
  induction n as [|n IH]; intros H; simpl; [reflexivity|].
  rewrite IH, (H n) by auto with lia; reflexivity.
Qed.

(** ** Arithmetic of lengths *)

Lemma down_pos (s T : nat) : 1 ≤ down s T.
Proof. unfold down; lia. Qed.

Lemma down_1 (T : nat) : 1 ≤ T → down 1 T = T.
Proof. intros H; unfold down; rewrite Nat.div_1_r; lia. Qed.

Lemma down_divide (s m : nat) : 1 ≤ s → 1 ≤ m → down s (m * s) = m.
Proof.
  intros Hs Hm; unfold down.
  assert (H : (m * s - 1) `div` s = m - 1).
  { symmetry; apply (Nat.div_unique _ _ _ (s - 1)); nia. }
  rewrite H; lia.
Qed.

Lemma down_index (s T t t' : nat) : 1 ≤ s → t < T → t' * s ≤ t → t' < down s T.
Proof.
  intros Hs Ht Ht'; unfold down.
  assert (t' ≤ (T - 1) `div` s); [|lia].
  apply Nat.div_le_lower_bound; nia.
Qed.

Lemma group_channel_bound (g n m o i : nat) :
  1 ≤ g → n `mod` g = 0 → o < n → i < m → o `div` (n `div` g) * m + i < m * g.
Proof.
  intros Hg Hmod Ho Hi.
  pose proof (Nat.div_mod n g ltac:(lia)) as Hn; rewrite Hmod in Hn.
  set (q := n `div` g) in *.
  assert (Hq : 1 ≤ q) by nia.
  assert (Hlt : o `div` q < g).
  { apply Nat.Div0.div_lt_upper_bound; nia. }
  nia.
Qed.

(** ** Composition *)

Lemma shape_map_cons (f : nn_Module) (fs : list nn_Module) (c0 c1 c2 : nat) (g h : nat → nat) :
  shape_map f c0 c1 g → shape_map (Sequential fs) c1 c2 h →
  shape_map (Sequential (f :: fs)) c0 c2 (h ∘ g).
Proof.
  intros Hf Hfs x Hc Ht.
  destruct (Hf x Hc Ht) as (y & Hy & Hb & Hcy & Hsy & Hpos).
  destruct (Hfs y Hcy Hpos) as (z & Hz & Hbz & Hcz & Hsz & Hposz).
  exists z; simpl; rewrite Hy; simpl.
  split; [exact Hz|]; split; [congruence|]; split; [exact Hcz|].
  split; [|exact Hposz]; rewrite Hsz, Hsy; reflexivity.
Qed.

Lemma shape_map_nil (c : nat) : shape_map (Sequential []) c c id.
Proof. intros x Hc Ht; exists x; simpl; auto. Qed.

Lemma shape_map_app (fs gs : list nn_Module) (c0 c1 c2 : nat) (g h : nat → nat) :
  shape_map (Sequential fs) c0 c1 g → shape_map (Sequential gs) c1 c2 h →
  shape_map (Sequential (fs ++ gs)) c0 c2 (h ∘ g).
Proof.
  intros Hf Hg x Hc Ht.
  destruct (Hf x Hc Ht) as (y & Hy & Hb & Hcy & Hsy & Hpos).
  destruct (Hg y Hcy Hpos) as (z & Hz & Hbz & Hcz & Hsz & Hposz).
  exists z; rewrite Sequential_app, Hy; simpl.
  split; [exact Hz|]; split; [congruence|]; split; [exact Hcz|].
  split; [|exact Hposz]; rewrite Hsz, Hsy; reflexivity.
Qed.

Lemma shape_map_ext (f : nn_Module) (c0 c1 : nat) (g h : nat → nat) :
  (∀ T, 1 ≤ T → g T = h T) → shape_map f c0 c1 g → shape_map f c0 c1 h.
Proof.
  intros Hgh Hf x Hc Ht.
  destruct (Hf x Hc Ht) as (y & Hy & Hb & Hcy & Hsy & Hpos).
  exists y; rewrite <- Hgh by assumption; auto.
Qed.

Lemma causal_cons (f : nn_Module) (fs : list nn_Module) (s1 s2 : nat) :
  causal f s1 → causal (Sequential fs) s2 → causal (Sequential (f :: fs)) (s1 * s2).
Proof.
  intros Hf Hfs x x' z z' t t'' Hagree Hz Hz' Hle; simpl in Hz, Hz'.
  bind_inv Hz y Hy.
  bind_inv Hz' y' Hy'.
  apply (Hfs y y' z z' (t'' * s2) t''); auto.
  apply (Hf x x' y y' t (t'' * s2)); auto; lia.
Qed.

Lemma causal_nil : causal (Sequential []) 1.
Proof.
  intros x x' y y' t t' Hagree [= <-] [= <-] Hle.
  destruct Hagree as (Hb & Hc & Ht & Ht' & Hd).
  repeat split; auto with lia.
Qed.

Lemma causal_app (fs gs : list nn_Module) (s1 s2 : nat) :
  causal (Sequential fs) s1 → causal (Sequential gs) s2 →
  causal (Sequential (fs ++ gs)) (s1 * s2).
Proof.
  intros Hf Hg x x' z z' t t'' Hagree Hz Hz' Hle.
  rewrite Sequential_app in Hz, Hz'.
  bind_inv Hz y Hy.
  bind_inv Hz' y' Hy'.
  apply (Hg y y' z z' (t'' * s2) t''); auto.
  apply (Hf x x' y y' t (t'' * s2)); auto; lia.
Qed.

(** ** Pointwise activations *)

Lemma activation_shape (a : R → R) (c : nat) :
  shape_map (λ x, Ok (tensor_map a x)) c c id.
Proof. intros x Hc Ht; eexists; split; [reflexivity|]; simpl; auto. Qed.

Lemma activation_causal (a : R → R) : causal (λ x, Ok (tensor_map a x)) 1.
Proof.
  intros x x' y y' t t' (Hb & Hc & Ht & Ht' & Hd) [= <-] [= <-] Hle; simpl.
  repeat split; simpl; auto with lia.
  intros b c i Hbb Hcc Hi; rewrite Hd by lia; reflexivity.
Qed.

(** ** [nn.Conv1d] and [CausalConv1d] *)

Lemma nn_Conv1d_groups_1 (p : path) (in_c out_c k s pad d : nat) :
  nn_Conv1d p in_c out_c k s pad d 1 =
  Ok {| in_channels := in_c; out_channels := out_c; kernel_size := k;
        stride := s; padding := pad; dilation := d; groups := 1;
        weight := Weight out_c in_c k (theta_w p); bias := theta_b p |}.
Proof.
  unfold nn_Conv1d; rewrite decide_True, Nat.div_1_r; [reflexivity|].
  rewrite !Nat.mod_1_r; lia.
Qed.

Lemma CausalConv1d_init_groups_1 (p : path) (in_c out_c k s pad d : nat) :
  CausalConv1d_init p in_c out_c k s pad d 1 =
  Ok {| cc_conv :=
          {| in_channels := in_c; out_channels := out_c; kernel_size := k;
             stride := s; padding := pad; dilation := d; groups := 1;
             weight := Weight out_c in_c k (theta_w p); bias := theta_b p |};
        cc_causal_padding := (Z.of_nat d * (Z.of_nat k - 1))%Z |}.
Proof. unfold CausalConv1d_init; rewrite nn_Conv1d_groups_1; reflexivity. Qed.

Lemma nn_Conv1d_fields (p : path) (in_c out_c k s pad d g : nat) (m : Conv1d) :
  nn_Conv1d p in_c out_c k s pad d g = Ok m →
  stride m = s ∧ padding m = pad ∧ dilation m = d ∧ groups m = g
  ∧ kernel_size m = k ∧ w_k (weight m) = k
  ∧ w_dim0 (weight m) = out_c ∧ w_dim1 (weight m) * g = in_c
  ∧ 1 ≤ g ∧ out_c `mod` g = 0.
Proof.
  unfold nn_Conv1d; case_decide as Hg; [|discriminate].
  intros [= <-]; simpl; repeat split; try tauto.
  destruct Hg as (Hg & Hin & _).
  pose proof (Nat.div_mod in_c g ltac:(lia)); lia.
Qed.

(** A convolution without padding of its own and with kernel size one keeps
    the length. *)
Lemma Conv1d_pointwise_shape (p : path) (in_c out_c : nat) (m : Conv1d) :
  1 ≤ out_c →
  nn_Conv1d p in_c out_c 1 1 0 1 1 = Ok m →
  shape_map (Conv1d_forward m) in_c out_c id.
Proof.
  intros Ho; rewrite nn_Conv1d_groups_1; intros [= <-] x Hc Ht.
  unfold Conv1d_forward, _conv_forward, F_conv1d; simpl.
  rewrite decide_True by (repeat split; simpl; try lia; apply Nat.mod_1_r).
  eexists; split; [reflexivity|]; simpl.
  rewrite Nat.div_1_r; repeat split; lia.
Qed.

(** A causal convolution of stride [s] maps [T] steps to [down s T]. *)
Lemma CausalConv1d_shape (p : path) (in_c out_c k s d : nat) (m : CausalConv1d) :
  1 ≤ k → 1 ≤ s → 1 ≤ d → 1 ≤ out_c →
  CausalConv1d_init p in_c out_c k s 0 d 1 = Ok m →
  shape_map (CausalConv1d_forward m) in_c out_c (down s).
Proof.
  intros Hk Hs Hd Ho; unfold CausalConv1d_init.
  rewrite nn_Conv1d_groups_1; intros [= <-] x Hc Ht.
  unfold CausalConv1d_forward, F_pad; simpl.
  rewrite decide_False by nia; simpl.
  unfold _conv_forward, F_conv1d; simpl.
  rewrite decide_True by (repeat split; simpl; try nia; apply Nat.mod_1_r).
  eexists; split; [reflexivity|]; simpl.
  repeat split; try lia.
  unfold down; f_equal; f_equal; nia.
Qed.

(** Every causal convolution, whatever its stride, dilation, padding and
    group count, produces output [t'] from the input up to [t' * stride]. *)
Lemma CausalConv1d_causal (p : path) (in_c out_c k s pad d g : nat) (m : CausalConv1d) :
  CausalConv1d_init p in_c out_c k s pad d g = Ok m →
  causal (CausalConv1d_forward m) s.
Proof.
  unfold CausalConv1d_init; intros Hm.
  bind_inv Hm c Hc; injection Hm as <-.
  apply nn_Conv1d_fields in Hc
    as (Hs & Hpad & Hd & Hg & Hk & Hwk & Hw0 & Hw1 & Hg1 & Hmod).
  intros x x' y y' t t' (Hb & Hch & Ht & Ht' & Hdat) Hy Hy' Hle.
  unfold CausalConv1d_forward in Hy, Hy'; simpl in Hy, Hy'.
  bind_inv Hy xp Hxp.
  bind_inv Hy' xp' Hxp'.
  unfold _conv_forward, F_conv1d in Hy, Hy'.
  rewrite Hs, Hpad, Hd, Hg, Hwk, Hw0 in Hy, Hy'.
  destruct (decide _) as [Hok|] in Hy; [|discriminate]; injection Hy as <-.
  destruct (decide _) as [Hok'|] in Hy'; [|discriminate]; injection Hy' as <-.
  rewrite Hd, Hk in Hxp, Hxp'.
  unfold F_pad in Hxp, Hxp'.
  destruct (decide _) as [|Hn] in Hxp; [discriminate|]; injection Hxp as <-.
  destruct (decide _) as [|Hn'] in Hxp'; [discriminate|]; injection Hxp' as <-.
  simpl in Hok, Hok'.
  destruct Hok as (Hs1 & Hd1 & _ & Hk1 & Hcx & _ & Hspan).
  destruct Hok' as (_ & _ & _ & _ & _ & _ & Hspan').
  assert (Hcp : (Z.of_nat d * (Z.of_nat k - 1))%Z = Z.of_nat (d * (k - 1))) by nia.
  rewrite Hcp in *.
  repeat split; simpl; auto.
  - assert (t' ≤ (Z.to_nat (Z.of_nat (steps x) + Z.of_nat (d * (k - 1)) + 0)
                  + 2 * pad - (d * (k - 1) + 1)) `div` s); [|lia].
    apply Nat.div_le_lower_bound; nia.
  - assert (t' ≤ (Z.to_nat (Z.of_nat (steps x') + Z.of_nat (d * (k - 1)) + 0)
                  + 2 * pad - (d * (k - 1) + 1)) `div` s); [|lia].
    apply Nat.div_le_lower_bound; nia.
  - intros b o i Hbb Ho Hi.
    f_equal; apply sumR_ext; intros ci Hci; apply sumR_ext; intros j Hj.
    f_equal.
    assert (Hu : i * s + j * d ≤ t + d * (k - 1)) by nia.
    assert (Hchan : o `div` (out_c `div` g) * w_dim1 (weight c) + ci < channels x).
    { rewrite Hcx; apply group_channel_bound; auto. }
    unfold pad_read; simpl.
    repeat case_decide; try lia; try reflexivity.
    apply Hdat; auto; lia.
Qed.

(** What a successful forward pass of a causal convolution tells about its
    input and its output. *)
Lemma CausalConv1d_forward_inv (p : path) (in_c out_c k s d : nat) (m : CausalConv1d)
    (x y : tensor) :
  CausalConv1d_init p in_c out_c k s 0 d 1 = Ok m →
  CausalConv1d_forward m x = Ok y →
  channels x = in_c ∧ 1 ≤ steps x ∧ 1 ≤ k ∧ 1 ≤ s ∧ 1 ≤ d
  ∧ batch y = batch x ∧ channels y = out_c ∧ steps y = down s (steps x).
Proof.
  unfold CausalConv1d_init; rewrite nn_Conv1d_groups_1; intros [= <-] Hy.
  unfold CausalConv1d_forward in Hy; simpl in Hy.
  bind_inv Hy xp Hxp.
  unfold F_pad in Hxp.
  destruct (decide _) as [|Hn] in Hxp; [discriminate|]; injection Hxp as <-.
  unfold _conv_forward, F_conv1d in Hy; simpl in Hy.
  destruct (decide _) as [Hok|] in Hy; [|discriminate]; injection Hy as <-.
  destruct Hok as (Hs & Hd & _ & Hk & Hc & _ & Hspan); simpl.
  assert (Hcp : (Z.of_nat d * (Z.of_nat k - 1))%Z = Z.of_nat (d * (k - 1))) by nia.
  rewrite Hcp in *.
  repeat split; try lia.
  unfold down; f_equal; f_equal; lia.
Qed.

Lemma Conv1d_pointwise_inv (p : path) (in_c out_c : nat) (m : Conv1d) (x y : tensor) :
  nn_Conv1d p in_c out_c 1 1 0 1 1 = Ok m →
  Conv1d_forward m x = Ok y →
  channels x = in_c ∧ 1 ≤ steps x
  ∧ batch y = batch x ∧ channels y = out_c ∧ steps y = steps x.
Proof.
  rewrite nn_Conv1d_groups_1; intros [= <-] Hy.
  unfold Conv1d_forward, _conv_forward, F_conv1d in Hy; simpl in Hy.
  destruct (decide _) as [Hok|] in Hy; [|discriminate]; injection Hy as <-.
  destruct Hok as (_ & _ & _ & _ & Hc & _ & Hspan); simpl.
  rewrite Nat.div_1_r; repeat split; lia.
Qed.

Lemma Conv1d_pointwise_causal (p : path) (in_c out_c : nat) (m : Conv1d) :
  nn_Conv1d p in_c out_c 1 1 0 1 1 = Ok m → causal (Conv1d_forward m) 1.
Proof.
  intros Hm x x' y y' t t' (Hb & Hch & Ht & Ht' & Hdat) Hy Hy' Hle.
  destruct (Conv1d_pointwise_inv _ _ _ _ _ _ Hm Hy) as (Hc & _ & Hyb & Hyc & Hys).
  destruct (Conv1d_pointwise_inv _ _ _ _ _ _ Hm Hy') as (Hc' & _ & Hyb' & Hyc' & Hys').
  rewrite nn_Conv1d_groups_1 in Hm; injection Hm as <-.
  unfold Conv1d_forward, _conv_forward, F_conv1d in Hy, Hy'; simpl in Hy, Hy'.
  destruct (decide _) as [Hok|] in Hy; [|discriminate]; injection Hy as <-.
  destruct (decide _) as [Hok'|] in Hy'; [|discriminate]; injection Hy' as <-.
  simpl in *.
  repeat split; simpl; try lia.
  intros b o i Hbb Ho Hi.
  f_equal; apply sumR_ext; intros ci Hci; simpl.
  f_equal; f_equal.
  unfold pad_read.
  rewrite !decide_True by lia.
  rewrite Nat.div_1_r, (Nat.div_small o out_c) by lia.
  apply Hdat; lia.
Qed.

(** *** [ResidualUnit] *)

Lemma ResidualUnit_init_Ok (p : path) (in_c out_c d : nat) :
  ∃ c0 c2,
    CausalConv1d_init (p ++ [0]) in_c out_c 7 1 0 d 1 = Ok c0
    ∧ nn_Conv1d (p ++ [2]) in_c out_c 1 1 0 1 1 = Ok c2
    ∧ ResidualUnit_init p in_c out_c d =
        Ok {| ru_dilation := d;
              ru_layers := [CausalConv1d_forward c0; ELU; Conv1d_forward c2] |}.
Proof.
  unfold ResidualUnit_init, CausalConv1d_init.
  rewrite !nn_Conv1d_groups_1; simpl.
  eexists _, _; repeat split; reflexivity.
Qed.

(** The body of a residual unit keeps batch size and length; it succeeds
    only on inputs of [in_c] channels, and only if [in_c = out_c]. *)
Lemma ResidualUnit_layers_inv (p : path) (in_c out_c d : nat) (m : ResidualUnit)
    (x z : tensor) :
  ResidualUnit_init p in_c out_c d = Ok m →
  Sequential (ru_layers m) x = Ok z →
  in_c = out_c ∧ channels x = in_c ∧ 1 ≤ steps x ∧ 1 ≤ d
  ∧ batch z = batch x ∧ channels z = channels x ∧ steps z = steps x.
Proof.
  destruct (ResidualUnit_init_Ok p in_c out_c d) as (c0 & c2 & Hc0 & Hc2 & ->).
  intros [= <-] Hz; simpl in Hz.
  bind_inv Hz z0 Hz0.
  bind_inv Hz z2 Hz2.
  injection Hz as <-.
  destruct (CausalConv1d_forward_inv _ _ _ _ _ _ _ _ _ Hc0 Hz0)
    as (Hcx & Hsx & _ & _ & Hd & Hb0 & Hch0 & Hs0).
  rewrite down_1 in Hs0 by assumption.
  simpl in Hz2.
  destruct (Conv1d_pointwise_inv _ _ _ _ _ _ Hc2 Hz2)
    as (Hc1 & _ & Hb2 & Hch2 & Hs2); simpl in *.
  repeat split; congruence || lia.
Qed.

Lemma tensor_add_same_shape (x z : tensor) :
  batch z = batch x → channels z = channels x → steps z = steps x →
  ∃ y, tensor_add x z = Ok y
       ∧ batch y = batch x ∧ channels y = channels x ∧ steps y = steps x
       ∧ ∀ b c t, b < batch x → c < channels x → t < steps x →
           data y b c t = Radd (data x b c t) (data z b c t).
Proof.
  intros Hb Hc Hs; unfold tensor_add, bdim.
  rewrite Hb, Hc, Hs, !decide_True by reflexivity; simpl.
  eexists; split; [reflexivity|]; simpl; repeat split; auto.
  intros b c t Hbb Hcc Htt; unfold bidx.
  repeat case_decide; repeat f_equal; lia.
Qed.

Lemma ResidualUnit_shape (p : path) (c d : nat) (m : ResidualUnit) :
  1 ≤ d → 1 ≤ c → ResidualUnit_init p c c d = Ok m →
  shape_map (ResidualUnit_forward m) c c id.
Proof.
  intros Hd Hc1 Hm x Hc Ht.
  destruct (ResidualUnit_init_Ok p c c d) as (c0 & c2 & Hc0 & Hc2 & Hinit).
  rewrite Hinit in Hm; injection Hm as <-.
  assert (Hlayers : shape_map
            (Sequential [CausalConv1d_forward c0; ELU; Conv1d_forward c2]) c c id).
  { eapply shape_map_ext;
      [|eapply shape_map_cons;
         [eapply CausalConv1d_shape; [| | | |exact Hc0]; lia|];
        eapply shape_map_cons; [apply activation_shape|];
        eapply shape_map_cons; [eapply Conv1d_pointwise_shape; [exact Hc1|exact Hc2]|];
        apply shape_map_nil].
    intros T HT; simpl; apply down_1, HT. }
  destruct (Hlayers x Hc Ht) as (z & Hz & Hbz & Hcz & Hsz & _).
  simpl in Hsz.
  destruct (tensor_add_same_shape x z) as (y & Hy & Hby & Hcy & Hsy & _);
    [congruence..|].
  exists y; unfold ResidualUnit_forward; simpl ru_layers.
  rewrite Hz; simpl; rewrite Hy.
  simpl; repeat split; congruence || lia.
Qed.

Lemma ResidualUnit_causal (p : path) (in_c out_c d : nat) (m : ResidualUnit) :
  ResidualUnit_init p in_c out_c d = Ok m → causal (ResidualUnit_forward m) 1.
Proof.
  intros Hm x x' y y' t t' Hagree Hy Hy' Hle.
  unfold ResidualUnit_forward in Hy, Hy'.
  bind_inv Hy z Hz.
  bind_inv Hy' z' Hz'.
  destruct (ResidualUnit_layers_inv _ _ _ _ _ _ _ Hm Hz)
    as (_ & Hcx & _ & _ & Hbz & Hcz & Hsz).
  destruct (ResidualUnit_layers_inv _ _ _ _ _ _ _ Hm Hz')
    as (_ & Hcx' & _ & _ & Hbz' & Hcz' & Hsz').
  assert (Hzz : agree_upto t' z z').
  { destruct (ResidualUnit_init_Ok p in_c out_c d) as (c0 & c2 & Hc0 & Hc2 & Hinit).
    rewrite Hinit in Hm; injection Hm as <-.
    assert (Hc : causal (Sequential [CausalConv1d_forward c0; ELU; Conv1d_forward c2])
                   (1 * (1 * (1 * 1)))).
    { apply causal_cons; [eapply CausalConv1d_causal; exact Hc0|].
      apply causal_cons; [apply activation_causal|].
      apply causal_cons; [eapply Conv1d_pointwise_causal; exact Hc2|].
      apply causal_nil. }
    apply (Hc x x' z z' t t'); auto; lia. }
  destruct (tensor_add_same_shape x z Hbz Hcz Hsz) as (w & Hw & Hbw & Hcw & Hsw & Hdw).
  destruct (tensor_add_same_shape x' z' Hbz' Hcz' Hsz')
    as (w' & Hw' & Hbw' & Hcw' & Hsw' & Hdw').
  rewrite Hw in Hy; injection Hy as <-.
  rewrite Hw' in Hy'; injection Hy' as <-.
  destruct Hagree as (Hb & Hc & Ht & Ht' & Hd).
  destruct Hzz as (_ & _ & Hzt & Hzt' & Hzd).
  repeat split; try lia.
  intros b c i Hbb Hcc Hi.
  rewrite Hdw, Hdw' by lia.
  rewrite Hd, Hzd by lia; reflexivity.
Qed.


(** *** [EncoderBlock] *)

Lemma causal_ext (f : nn_Module) (s s' : nat) : s = s' → causal f s → causal f s'.
Proof. intros ->; auto. Qed.

Lemma EncoderBlock_init_Ok (p : path) (in_c out_c s : nat) :
  ∃ r0 r2 r4 c6,
    ResidualUnit_init (p ++ [0]) in_c in_c 1 = Ok r0
    ∧ ResidualUnit_init (p ++ [2]) in_c in_c 3 = Ok r2
    ∧ ResidualUnit_init (p ++ [4]) in_c in_c 9 = Ok r4
    ∧ CausalConv1d_init (p ++ [6]) in_c out_c (2 * s) s 0 1 1 = Ok c6
    ∧ EncoderBlock_init p in_c out_c s =
        Ok {| eb_layers := [ResidualUnit_forward r0; ELU;
                            ResidualUnit_forward r2; ELU;
                            ResidualUnit_forward r4; ELU;
                            CausalConv1d_forward c6] |}.
Proof.
  unfold EncoderBlock_init.
  destruct (ResidualUnit_init_Ok (p ++ [0]) in_c in_c 1) as (? & ? & _ & _ & ->).
  destruct (ResidualUnit_init_Ok (p ++ [2]) in_c in_c 3) as (? & ? & _ & _ & ->).
  destruct (ResidualUnit_init_Ok (p ++ [4]) in_c in_c 9) as (? & ? & _ & _ & ->).
  unfold CausalConv1d_init; rewrite nn_Conv1d_groups_1; simpl.
  eexists _, _, _, _; repeat split; reflexivity.
Qed.

Lemma EncoderBlock_shape (p : path) (in_c out_c s : nat) (m : EncoderBlock) :
  1 ≤ s → 1 ≤ in_c → 1 ≤ out_c → EncoderBlock_init p in_c out_c s = Ok m →
  shape_map (EncoderBlock_forward m) in_c out_c (down s).
Proof.
  intros Hs Hi Ho Hm.
  destruct (EncoderBlock_init_Ok p in_c out_c s)
    as (r0 & r2 & r4 & c6 & Hr0 & Hr2 & Hr4 & Hc6 & Hinit).
  rewrite Hinit in Hm; injection Hm as <-.
  unfold EncoderBlock_forward; simpl eb_layers.
  eapply shape_map_ext;
    [|eapply shape_map_cons; [eapply ResidualUnit_shape; [| |exact Hr0]; lia|];
      eapply shape_map_cons; [apply activation_shape|];
      eapply shape_map_cons; [eapply ResidualUnit_shape; [| |exact Hr2]; lia|];
      eapply shape_map_cons; [apply activation_shape|];
      eapply shape_map_cons; [eapply ResidualUnit_shape; [| |exact Hr4]; lia|];
      eapply shape_map_cons; [apply activation_shape|];
      eapply shape_map_cons; [eapply CausalConv1d_shape; [| | | |exact Hc6]; lia|];
      apply shape_map_nil].
  intros T HT; reflexivity.
Qed.

Lemma EncoderBlock_causal (p : path) (in_c out_c s : nat) (m : EncoderBlock) :
  EncoderBlock_init p in_c out_c s = Ok m → causal (EncoderBlock_forward m) s.
Proof.
  intros Hm.
  destruct (EncoderBlock_init_Ok p in_c out_c s)
    as (r0 & r2 & r4 & c6 & Hr0 & Hr2 & Hr4 & Hc6 & Hinit).
  rewrite Hinit in Hm; injection Hm as <-.
  unfold EncoderBlock_forward; simpl eb_layers.
  eapply causal_ext;
    [|apply causal_cons; [eapply ResidualUnit_causal; exact Hr0|];
      apply causal_cons; [apply activation_causal|];
      apply causal_cons; [eapply ResidualUnit_causal; exact Hr2|];
      apply causal_cons; [apply activation_causal|];
      apply causal_cons; [eapply ResidualUnit_causal; exact Hr4|];
      apply causal_cons; [apply activation_causal|];
      apply causal_cons; [eapply CausalConv1d_causal; exact Hc6|];
      apply causal_nil].
  lia.
Qed.

(** *** [CausalConvTranspose1d] *)

Lemma slice_stop_neg (len : nat) (c : Z) :
  (0 < c)%Z → Z.of_nat (slice_stop len (- c)) = Z.max 0 (Z.of_nat len - c).
Proof. intros Hc; unfold slice_stop; rewrite decide_True by lia; lia. Qed.

Lemma slice_stop_0 (len : nat) : slice_stop len (- 0) = 0.
Proof. unfold slice_stop; rewrite decide_False by lia; lia. Qed.

Lemma nn_ConvTranspose1d_fields (p : path) (in_c out_c k s pad op g d : nat)
    (mode : string) (m : ConvTranspose1d) :
  nn_ConvTranspose1d p in_c out_c k s pad op g d mode = Ok m →
  m = {| ct_in_channels := in_c; ct_out_channels := out_c; ct_kernel_size := k;
         ct_stride := s; ct_padding := pad; ct_output_padding := op;
         ct_groups := g; ct_dilation := d; ct_padding_mode := "zeros";
         ct_weight := Weight in_c (out_c `div` g) k (theta_w p);
         ct_bias := theta_b p |}
  ∧ mode = "zeros" ∧ 1 ≤ g ∧ in_c `mod` g = 0 ∧ out_c `mod` g = 0.
Proof.
  unfold nn_ConvTranspose1d.
  destruct (decide (mode ≠ "zeros")) as [|Hz]; [discriminate|].
  apply dec_stable in Hz; subst mode.
  destruct (decide _) as [(Hg & Hi & Ho)|]; [|discriminate].
  intros [= <-]; auto.
Qed.

(** With a positive causal padding the forward pass returns the output of
    the transposed convolution without its last [causal_padding] samples. *)
Lemma CausalConvTranspose1d_trim (p : path) (in_c out_c k s pad op g d : nat)
    (mode : string) (m : CausalConvTranspose1d) (x z : tensor) :
  CausalConvTranspose1d_init p in_c out_c k s pad op g d mode = Ok m →
  F_conv_transpose1d x (ct_weight m) (ct_bias m) s pad op g d = Ok z →
  (0 < cct_causal_padding m)%Z →
  ∃ y, CausalConvTranspose1d_forward m x = Ok y
       ∧ batch y = batch z ∧ channels y = channels z ∧ data y = data z
       ∧ Z.of_nat (steps y) = Z.max 0 (Z.of_nat (steps z) - cct_causal_padding m)
       ∧ Z.of_nat (steps y) = Z.max 0 (Z.of_nat (steps x) * Z.of_nat s - 2 * Z.of_nat pad).
Proof.
  unfold CausalConvTranspose1d_init; intros Hm Hz Hcp.
  bind_inv Hm c Hc; injection Hm as <-.
  apply nn_ConvTranspose1d_fields in Hc as (-> & -> & Hg & Hi & Ho).
  simpl in *.
  unfold CausalConvTranspose1d_forward, _output_padding; simpl.
  rewrite Hz; simpl.
  eexists; split; [reflexivity|]; simpl.
  repeat split.
  - apply slice_stop_neg, Hcp.
  - rewrite slice_stop_neg by exact Hcp.
    unfold F_conv_transpose1d in Hz.
    destruct (decide _) as [Hok|] in Hz; [|discriminate]; injection Hz as <-.
    simpl in *; lia.
Qed.

(** The upsampling layer of a decoder block multiplies the length by its
    stride. *)
Lemma CausalConvTranspose1d_shape (p : path) (in_c out_c s : nat) (m : CausalConvTranspose1d) :
  1 ≤ s → 1 ≤ in_c →
  CausalConvTranspose1d_init p in_c out_c (2 * s) s 0 0 1 1 "zeros" = Ok m →
  shape_map (CausalConvTranspose1d_forward m) in_c out_c (λ T, T * s).
Proof.
  intros Hs Hi Hm x Hc Ht.
  assert (Hz : ∃ z, F_conv_transpose1d x (ct_weight m) (ct_bias m) s 0 0 1 1 = Ok z
                    ∧ batch z = batch x ∧ channels z = out_c).
  { unfold CausalConvTranspose1d_init in Hm.
    bind_inv Hm c Hcc; injection Hm as <-.
    apply nn_ConvTranspose1d_fields in Hcc as (-> & _); simpl.
    unfold F_conv_transpose1d; simpl.
    rewrite decide_True by (repeat split; simpl; try nia; apply Nat.mod_1_r).
    eexists; split; [reflexivity|]; simpl.
    rewrite Nat.div_1_r; lia. }
  destruct Hz as (z & Hz & Hbz & Hcz).
  destruct (CausalConvTranspose1d_trim _ _ _ _ _ _ _ _ _ _ _ x z Hm Hz)
    as (y & Hy & Hby & Hcy & _ & _ & Hsy).
  { unfold CausalConvTranspose1d_init in Hm.
    bind_inv Hm c Hcc; injection Hm as <-.
    apply nn_ConvTranspose1d_fields in Hcc as (-> & _); simpl; lia. }
  exists y; split; [exact Hy|].
  repeat split; try congruence; nia.
Qed.

(** *** [DecoderBlock] *)

Lemma DecoderBlock_init_Ok (p : path) (in_c out_c s : nat) :
  ∃ t0 r2 r4 r6,
    CausalConvTranspose1d_init (p ++ [0]) in_c out_c (2 * s) s 0 0 1 1 "zeros" = Ok t0
    ∧ ResidualUnit_init (p ++ [2]) out_c out_c 1 = Ok r2
    ∧ ResidualUnit_init (p ++ [4]) out_c out_c 3 = Ok r4
    ∧ ResidualUnit_init (p ++ [6]) out_c out_c 9 = Ok r6
    ∧ DecoderBlock_init p in_c out_c s =
        Ok {| db_layers := [CausalConvTranspose1d_forward t0; ELU;
                            ResidualUnit_forward r2; ELU;
                            ResidualUnit_forward r4; ELU;
                            ResidualUnit_forward r6] |}.
Proof.
  unfold DecoderBlock_init.
  destruct (ResidualUnit_init_Ok (p ++ [2]) out_c out_c 1) as (? & ? & _ & _ & ->).
  destruct (ResidualUnit_init_Ok (p ++ [4]) out_c out_c 3) as (? & ? & _ & _ & ->).
  destruct (ResidualUnit_init_Ok (p ++ [6]) out_c out_c 9) as (? & ? & _ & _ & ->).
  unfold CausalConvTranspose1d_init, nn_ConvTranspose1d.
  rewrite decide_False by (intros H; apply H; reflexivity).
  rewrite decide_True by (rewrite !Nat.mod_1_r; lia); simpl.
  eexists _, _, _, _; repeat split; reflexivity.
Qed.

Lemma DecoderBlock_shape (p : path) (in_c out_c s : nat) (m : DecoderBlock) :
  1 ≤ s → 1 ≤ in_c → 1 ≤ out_c → DecoderBlock_init p in_c out_c s = Ok m →
  shape_map (DecoderBlock_forward m) in_c out_c (λ T, T * s).
Proof.
  intros Hs Hi Ho Hm.
  destruct (DecoderBlock_init_Ok p in_c out_c s)
    as (t0 & r2 & r4 & r6 & Ht0 & Hr2 & Hr4 & Hr6 & Hinit).
  rewrite Hinit in Hm; injection Hm as <-.
  unfold DecoderBlock_forward; simpl db_layers.
  eapply shape_map_ext;
    [|eapply shape_map_cons; [eapply CausalConvTranspose1d_shape; [| |exact Ht0]; lia|];
      eapply shape_map_cons; [apply activation_shape|];
      eapply shape_map_cons; [eapply ResidualUnit_shape; [| |exact Hr2]; lia|];
      eapply shape_map_cons; [apply activation_shape|];
      eapply shape_map_cons; [eapply ResidualUnit_shape; [| |exact Hr4]; lia|];
      eapply shape_map_cons; [apply activation_shape|];
      eapply shape_map_cons; [eapply ResidualUnit_shape; [| |exact Hr6]; lia|];
      apply shape_map_nil].
  intros T HT; reflexivity.
Qed.

(** ** Strides *)

Lemma total_stride_pos (l : list nat) : Forall (λ s, 1 ≤ s) l → 1 ≤ total_stride l.
Proof.
  induction 1 as [|s l Hs _ IH]; simpl; [lia|].
  unfold total_stride in *; simpl; nia.
Qed.

Lemma total_stride_snoc (l : list nat) (s : nat) :
  total_stride (l ++ [s]) = total_stride l * s.
Proof.
  unfold total_stride; induction l as [|a l IH]; simpl; [lia|].
  rewrite IH; lia.
Qed.

Lemma down_all_pos (l : list nat) (T : nat) : 1 ≤ T → 1 ≤ down_all l T.
Proof.
  revert T; induction l as [|s l IH]; intros T HT; simpl; [exact HT|].
  apply IH, down_pos.
Qed.

(** A cascade of strided causal convolutions divides a length that is a
    multiple of the product of the strides by that product. *)
Lemma down_all_divide (l : list nat) (T : nat) :
  Forall (λ s, 1 ≤ s) l → 1 ≤ T → Nat.divide (total_stride l) T →
  down_all l T = T `div` total_stride l.
Proof.
  intros Hl; revert T; induction Hl as [|s l Hs Hl IH]; intros T HT [m Hm].
  - simpl; unfold total_stride; simpl; rewrite Nat.div_1_r; reflexivity.
  - pose proof (total_stride_pos l Hl) as Hpos.
    change (total_stride (s :: l)) with (s * total_stride l) in *.
    change (down_all (s :: l) T) with (down_all l (down s T)).
    assert (HT' : T = m * total_stride l * s) by lia.
    assert (Hm1 : 1 ≤ m * total_stride l) by nia.
    rewrite HT' at 1; rewrite down_divide by assumption.
    rewrite IH; [|assumption|exists m; reflexivity].
    rewrite Hm, !Nat.div_mul by lia; reflexivity.
Qed.

(** ** [SoundStreamXLEncoder] *)

#[local] Arguments EncoderBlock_init : simpl never.
#[local] Arguments DecoderBlock_init : simpl never.
#[local] Arguments CausalConv1d_init : simpl never.
#[local] Arguments index : simpl never.

Section Encoder.

Variable p : path.
Variables n_channels : nat.
Variables c_mults strides : list nat.

Lemma SoundStreamXLEncoder_blocks_S (n i : nat) :
  SoundStreamXLEncoder_blocks p n_channels c_mults strides i (S n) =
  ci ← index c_mults i;
  co ← index c_mults (i + 1);
  s ← index strides i;
  blk ← EncoderBlock_init (p ++ [2 + 2 * i]) (ci * n_channels) (co * n_channels) s;
  rest ← SoundStreamXLEncoder_blocks p n_channels c_mults strides (S i) n;
  Ok (EncoderBlock_forward blk :: ELU :: rest).
Proof. reflexivity. Qed.

Lemma SoundStreamXLEncoder_blocks_causal (n i : nat) (blocks : list nn_Module) :
  SoundStreamXLEncoder_blocks p n_channels c_mults strides i n = Ok blocks →
  causal (Sequential blocks) (total_stride (take n (drop i strides))).
Proof.
  revert i blocks; induction n as [|n IH]; intros i blocks Hb.
  - injection Hb as <-; apply causal_nil.
  - rewrite SoundStreamXLEncoder_blocks_S in Hb.
    bind_inv Hb ci Hci.
    bind_inv Hb co Hco.
    bind_inv Hb s Hs.
    bind_inv Hb blk Hblk.
    bind_inv Hb rest Hrest.
    injection Hb as <-.
    apply index_Ok in Hs.
    rewrite (drop_S _ _ _ Hs); simpl take.
    change (total_stride (s :: take n (drop (S i) strides)))
      with (s * total_stride (take n (drop (S i) strides))).
    apply causal_cons; [eapply EncoderBlock_causal; exact Hblk|].
    eapply causal_ext; [|apply causal_cons; [apply activation_causal|apply IH, Hrest]].
    lia.
Qed.

Lemma SoundStreamXLEncoder_blocks_shape (n i : nat) :
  i + n < length c_mults → i + n ≤ length strides →
  Forall (λ s, 1 ≤ s) (take n (drop i strides)) →
  1 ≤ n_channels → Forall (λ c, 1 ≤ c) c_mults →
  ∃ blocks,
    SoundStreamXLEncoder_blocks p n_channels c_mults strides i n = Ok blocks
    ∧ ∀ ci co, c_mults !! i = Some ci → c_mults !! (i + n) = Some co →
        shape_map (Sequential blocks) (ci * n_channels) (co * n_channels)
          (down_all (take n (drop i strides))).
Proof.
  intros Hc Hs Hpos Hn Hmults; revert i Hc Hs Hpos.
  induction n as [|n IH]; intros i Hc Hs Hpos.
  - exists []; split; [reflexivity|].
    intros ci co Hci Hco; rewrite Nat.add_0_r in Hco.
    assert (ci = co) as -> by congruence.
    apply shape_map_nil.
  - destruct (lookup_lt_is_Some_2 c_mults i ltac:(lia)) as [ci Hci].
    destruct (lookup_lt_is_Some_2 c_mults (i + 1) ltac:(lia)) as [cm Hcm].
    destruct (lookup_lt_is_Some_2 strides i ltac:(lia)) as [s Hsi].
    pose proof (proj1 (Forall_lookup _ _) Hmults _ _ Hci) as Hci1.
    pose proof (proj1 (Forall_lookup _ _) Hmults _ _ Hcm) as Hcm1.
    simpl in Hci1, Hcm1.
    assert (Hin1 : 1 ≤ ci * n_channels) by (clear - Hci1 Hn; nia).
    assert (Hout1 : 1 ≤ cm * n_channels) by (clear - Hcm1 Hn; nia).
    rewrite (drop_S _ _ _ Hsi) in Hpos |- *; simpl take in Hpos |- *.
    apply Forall_cons in Hpos as [Hs1 Hpos].
    destruct (EncoderBlock_init_Ok (p ++ [2 + 2 * i]) (ci * n_channels) (cm * n_channels) s)
      as (r0 & r2 & r4 & c6 & _ & _ & _ & _ & Hblk).
    destruct (IH (S i) ltac:(lia) ltac:(lia) Hpos) as (rest & Hrest & Hshape).
    eexists; split.
    + rewrite SoundStreamXLEncoder_blocks_S.
      rewrite (proj2 (index_Ok _ _ _) Hci), (proj2 (index_Ok _ _ _) Hcm),
        (proj2 (index_Ok _ _ _) Hsi); simpl_bind.
      rewrite Hblk; simpl_bind; rewrite Hrest; reflexivity.
    + intros ci' co Hci' Hco.
      assert (ci' = ci) as -> by congruence.
      replace (i + S n) with (S i + n) in Hco by lia.
      replace (i + 1) with (S i) in Hcm by lia.
      eapply shape_map_ext;
        [|eapply shape_map_cons;
            [eapply EncoderBlock_shape; [exact Hs1|exact Hin1|exact Hout1|exact Hblk]|];
          eapply shape_map_cons; [apply activation_shape|];
          apply (Hshape cm co Hcm Hco)].
      intros T HT; reflexivity.
Qed.

End Encoder.

Lemma SoundStreamXLEncoder_causal (p : path) (n_channels latent_dim n_io_channels : nat)
    (strides c_mults : list nat) (m : SoundStreamXLEncoder) :
  SoundStreamXLEncoder_init p n_channels latent_dim n_io_channels strides c_mults = Ok m →
  causal (SoundStreamXLEncoder_forward m) (total_stride (block_strides strides c_mults)).
Proof.
  unfold SoundStreamXLEncoder_init; intros Hm.
  bind_inv Hm c_first Hfirst.
  bind_inv Hm conv_in Hin.
  bind_inv Hm blocks Hblocks.
  bind_inv Hm c_last Hlast.
  bind_inv Hm conv_out Hout.
  injection Hm as <-.
  apply SoundStreamXLEncoder_blocks_causal in Hblocks.
  simpl in Hblocks; rewrite Nat.sub_0_r in Hblocks.
  unfold SoundStreamXLEncoder_forward, block_strides; simpl enc_layers.
  eapply causal_ext;
    [|apply causal_cons; [eapply CausalConv1d_causal; exact Hin|];
      apply causal_cons; [apply activation_causal|];
      apply causal_app; [exact Hblocks|];
      apply causal_cons; [eapply CausalConv1d_causal; exact Hout|apply causal_nil]].
  change (drop 0 strides) with strides; lia.
Qed.

Lemma SoundStreamXLEncoder_shape (p : path) (n_channels latent_dim n_io_channels : nat)
    (strides c_mults : list nat) :
  length c_mults ≤ length strides →
  Forall (λ s, 1 ≤ s) (block_strides strides c_mults) →
  1 ≤ n_channels → 1 ≤ latent_dim → Forall (λ c, 1 ≤ c) c_mults →
  ∃ m,
    SoundStreamXLEncoder_init p n_channels latent_dim n_io_channels strides c_mults = Ok m
    ∧ shape_map (SoundStreamXLEncoder_forward m) n_io_channels latent_dim
        (down_all (block_strides strides c_mults)).
Proof.
  intros Hlen Hpos Hn Hl Hmults; unfold block_strides in *.
  destruct (SoundStreamXLEncoder_blocks_shape p n_channels (1 :: c_mults) strides
              (length c_mults) 0) as (blocks & Hblocks & Hshape);
    [simpl; lia|lia|exact Hpos|exact Hn|apply Forall_cons; split; [lia|exact Hmults]|].
  destruct (lookup_lt_is_Some_2 (1 :: c_mults) (length c_mults) ltac:(simpl; lia))
    as [c_last Hlast].
  specialize (Hshape 1 c_last eq_refl Hlast); simpl drop in Hshape.
  unfold SoundStreamXLEncoder_init.
  assert (Hd : length (1 :: c_mults) - 1 = length c_mults) by (simpl; lia).
  rewrite Hd.
  change (index (1 :: c_mults) 0) with (Ok (A:=nat) 1); simpl_bind.
  rewrite CausalConv1d_init_groups_1; simpl_bind.
  rewrite Hblocks; simpl_bind.
  rewrite (proj2 (index_Ok _ _ _) Hlast); simpl_bind.
  rewrite CausalConv1d_init_groups_1; simpl_bind.
  eexists; split; [reflexivity|].
  unfold SoundStreamXLEncoder_forward; simpl enc_layers.
  eapply shape_map_ext;
    [|eapply shape_map_cons;
        [eapply CausalConv1d_shape with (k := 7) (s := 1) (d := 1);
         [lia|lia|lia| |apply CausalConv1d_init_groups_1]; clear - Hn; lia|];
      eapply shape_map_cons; [apply activation_shape|];
      eapply shape_map_app; [exact Hshape|];
      eapply shape_map_cons;
        [eapply CausalConv1d_shape with (k := 3) (s := 1) (d := 1);
         [lia|lia|lia| |apply CausalConv1d_init_groups_1]; exact Hl|];
      apply shape_map_nil].
  intros T HT; simpl.
  rewrite (down_1 T) by exact HT.
  apply down_1, down_all_pos, HT.
Qed.

(** ** [SoundStreamXLDecoder] *)

Lemma SoundStreamXLDecoder_blocks_shape (p : path) (n_channels : nat)
    (c_mults strides : list nat) (i pos : nat) :
  i < length c_mults → i ≤ length strides →
  Forall (λ s, 1 ≤ s) (take i strides) →
  1 ≤ n_channels → Forall (λ c, 1 ≤ c) c_mults →
  ∃ blocks,
    SoundStreamXLDecoder_blocks p n_channels c_mults strides i pos = Ok blocks
    ∧ ∀ ci co, c_mults !! i = Some ci → c_mults !! 0 = Some co →
        shape_map (Sequential blocks) (ci * n_channels) (co * n_channels)
          (λ T, T * total_stride (take i strides)).
Proof.
  intros Hc Hs Hpos Hn Hmults; revert pos Hc Hs Hpos.
  induction i as [|i IH]; intros pos Hc Hs Hpos.
  - exists []; split; [reflexivity|].
    intros ci co Hci Hco.
    assert (ci = co) as -> by congruence.
    eapply shape_map_ext; [|apply shape_map_nil].
    intros T HT; unfold total_stride; simpl; lia.
  - destruct (lookup_lt_is_Some_2 c_mults (S i) ltac:(lia)) as [ci Hci].
    destruct (lookup_lt_is_Some_2 c_mults i ltac:(lia)) as [cm Hcm].
    destruct (lookup_lt_is_Some_2 strides i ltac:(lia)) as [s Hsi].
    pose proof (proj1 (Forall_lookup _ _) Hmults _ _ Hcm) as Hcm1; simpl in Hcm1.
    pose proof (proj1 (Forall_lookup _ _) Hmults _ _ Hci) as Hci1; simpl in Hci1.
    assert (Hout1 : 1 ≤ cm * n_channels) by (clear - Hcm1 Hn; nia).
    assert (Hin1 : 1 ≤ ci * n_channels) by (clear - Hci1 Hn; nia).
    rewrite (take_S_r _ _ _ Hsi) in Hpos |- *.
    apply Forall_app in Hpos as [Hpos Hs1].
    apply Forall_inv in Hs1.
    destruct (DecoderBlock_init_Ok (p ++ [pos]) (ci * n_channels) (cm * n_channels) s)
      as (t0 & r2 & r4 & r6 & _ & _ & _ & _ & Hblk).
    destruct (IH (pos + 2) ltac:(lia) ltac:(lia) Hpos) as (rest & Hrest & Hshape).
    eexists; split.
    + change (SoundStreamXLDecoder_blocks p n_channels c_mults strides (S i) pos)
        with (ci ← index c_mults (S i);
              co ← index c_mults i;
              s ← index strides i;
              blk ← DecoderBlock_init (p ++ [pos]) (ci * n_channels) (co * n_channels) s;
              rest ← SoundStreamXLDecoder_blocks p n_channels c_mults strides i (pos + 2);
              Ok (DecoderBlock_forward blk :: ELU :: rest)).
      rewrite (proj2 (index_Ok _ _ _) Hci), (proj2 (index_Ok _ _ _) Hcm),
        (proj2 (index_Ok _ _ _) Hsi); simpl_bind.
      rewrite Hblk; simpl_bind; rewrite Hrest; reflexivity.
    + intros ci' co Hci' Hco.
      assert (ci' = ci) as -> by congruence.
      eapply shape_map_ext;
        [|eapply shape_map_cons;
            [eapply DecoderBlock_shape; [exact Hs1|exact Hin1|exact Hout1|exact Hblk]|];
          eapply shape_map_cons; [apply activation_shape|];
          apply (Hshape cm co Hcm Hco)].
      intros T HT; simpl; rewrite total_stride_snoc; lia.
Qed.

Lemma SoundStreamXLDecoder_shape (p : path) (n_channels latent_dim n_io_channels : nat) :
  1 ≤ n_channels → 1 ≤ n_io_channels →
  ∃ m,
    SoundStreamXLDecoder_init p n_channels latent_dim n_io_channels = Ok m
    ∧ shape_map (SoundStreamXLDecoder_forward m) latent_dim n_io_channels
        (λ T, T * total_stride SoundStreamXLDecoder_strides).
Proof.
  intros Hn Hio.
  destruct (SoundStreamXLDecoder_blocks_shape p n_channels [1; 2; 4; 4; 8; 16]
              SoundStreamXLDecoder_strides 5 2) as (blocks & Hblocks & Hshape);
    [simpl; lia|simpl; lia|repeat constructor|exact Hn|repeat constructor|].
  specialize (Hshape 16 1 eq_refl eq_refl).
  change (take 5 SoundStreamXLDecoder_strides) with SoundStreamXLDecoder_strides in Hshape.
  unfold SoundStreamXLDecoder_init.
  change (length [1; 2; 4; 4; 8; 16] - 1) with 5.
  change (index [1; 2; 4; 4; 8; 16] 5) with (Ok (A:=nat) 16).
  change (index [1; 2; 4; 4; 8; 16] 0) with (Ok (A:=nat) 1); simpl_bind.
  rewrite CausalConv1d_init_groups_1; simpl_bind.
  rewrite Hblocks; simpl_bind.
  rewrite CausalConv1d_init_groups_1; simpl_bind.
  eexists; split; [reflexivity|].
  unfold SoundStreamXLDecoder_forward; simpl dec_layers.
  eapply shape_map_ext;
    [|eapply shape_map_cons;
        [eapply CausalConv1d_shape with (k := 7) (s := 1) (d := 1);
         [lia|lia|lia| |apply CausalConv1d_init_groups_1]; clear - Hn; lia|];
      eapply shape_map_cons; [apply activation_shape|];
      eapply shape_map_app; [exact Hshape|];
      eapply shape_map_cons;
        [eapply CausalConv1d_shape with (k := 7) (s := 1) (d := 1);
         [lia|lia|lia| |apply CausalConv1d_init_groups_1]; exact Hio|];
      apply shape_map_nil].
  intros T HT; simpl.
  rewrite (down_1 T) by exact HT.
  apply down_1.
  pose proof (total_stride_pos SoundStreamXLDecoder_strides ltac:(repeat constructor)).
  nia.
Qed.

(** ** [nn.Conv1d] with padding and groups *)

Lemma Conv1d_forward_inv (p : path) (in_c out_c k s pad d g : nat) (m : Conv1d)
    (x y : tensor) :
  nn_Conv1d p in_c out_c k s pad d g = Ok m →
  Conv1d_forward m x = Ok y →
  channels x = in_c ∧ d * (k - 1) + 1 ≤ steps x + 2 * pad
  ∧ batch y = batch x ∧ channels y = out_c
  ∧ steps y = (steps x + 2 * pad - (d * (k - 1) + 1)) `div` s + 1.
Proof.
  intros Hm Hy.
  apply nn_Conv1d_fields in Hm
    as (Hs & Hpad & Hd & Hg & Hk & Hwk & Hw0 & Hw1 & Hg1 & Hmod).
  unfold Conv1d_forward, _conv_forward, F_conv1d in Hy.
  rewrite Hs, Hpad, Hd, Hg, Hwk, Hw0 in Hy.
  destruct (decide _) as [Hok|] in Hy; [|discriminate]; injection Hy as <-.
  destruct Hok as (_ & _ & _ & _ & Hc & _ & Hspan); simpl.
  repeat split; try lia.
Qed.

Lemma Conv1d_forward_Ok (p : path) (in_c out_c k s pad d g : nat) (m : Conv1d)
    (x : tensor) :
  nn_Conv1d p in_c out_c k s pad d g = Ok m →
  1 ≤ k → 1 ≤ s → 1 ≤ d → g ≤ out_c →
  channels x = in_c → d * (k - 1) + 1 ≤ steps x + 2 * pad →
  is_Ok (Conv1d_forward m x).
Proof.
  intros Hm Hk1 Hs1 Hd1 Ho1 Hc Hspan.
  apply nn_Conv1d_fields in Hm
    as (Hs & Hpad & Hd & Hg & Hk & Hwk & Hw0 & Hw1 & Hg1 & Hmod).
  unfold Conv1d_forward, _conv_forward, F_conv1d.
  rewrite Hs, Hpad, Hd, Hg, Hwk, Hw0.
  rewrite decide_True by (repeat split; lia).
  eexists; reflexivity.
Qed.

(** ** [WaveDiscriminatorBlock] *)

Lemma nn_Conv1d_Ok (p : path) (in_c out_c k s pad d g : nat) :
  1 ≤ g → in_c `mod` g = 0 → out_c `mod` g = 0 →
  ∃ m, nn_Conv1d p in_c out_c k s pad d g = Ok m.
Proof.
  intros Hg Hi Ho; unfold nn_Conv1d.
  rewrite decide_True by auto; eexists; reflexivity.
Qed.

Lemma WaveDiscriminatorBlock_init_Ok (p : path) :
  ∃ c0 c1 c2 c3 c4 c5 c6,
    WNConv1d (p ++ [0; 1]) 1 16 15 1 0 1 1 = Ok c0
    ∧ WNConv1d (p ++ [1; 0]) 16 64 41 4 20 1 4 = Ok c1
    ∧ WNConv1d (p ++ [2; 0]) 64 256 41 4 20 1 16 = Ok c2
    ∧ WNConv1d (p ++ [3; 0]) 256 1024 41 4 20 1 64 = Ok c3
    ∧ WNConv1d (p ++ [4; 0]) 1024 1024 41 4 20 1 256 = Ok c4
    ∧ WNConv1d (p ++ [5; 0]) 1024 1024 5 1 2 1 1 = Ok c5
    ∧ WNConv1d (p ++ [6]) 1024 1 3 1 1 1 1 = Ok c6
    ∧ WaveDiscriminatorBlock_init p =
        Ok {| wdb_layers :=
                [Sequential [ReflectionPad1d 7; Conv1d_forward c0; LeakyReLU];
                 Sequential [Conv1d_forward c1; LeakyReLU];
                 Sequential [Conv1d_forward c2; LeakyReLU];
                 Sequential [Conv1d_forward c3; LeakyReLU];
                 Sequential [Conv1d_forward c4; LeakyReLU];
                 Sequential [Conv1d_forward c5; LeakyReLU];
                 Conv1d_forward c6] |}.
Proof.
  unfold WaveDiscriminatorBlock_init, WNConv1d.
  destruct (nn_Conv1d_Ok (p ++ [0; 1]) 1 16 15 1 0 1 1) as [c0 H0];
    [lia|reflexivity..|].
  destruct (nn_Conv1d_Ok (p ++ [1; 0]) 16 64 41 4 20 1 4) as [c1 H1];
    [lia|reflexivity..|].
  destruct (nn_Conv1d_Ok (p ++ [2; 0]) 64 256 41 4 20 1 16) as [c2 H2];
    [lia|reflexivity..|].
  destruct (nn_Conv1d_Ok (p ++ [3; 0]) 256 1024 41 4 20 1 64) as [c3 H3];
    [lia|reflexivity..|].
  destruct (nn_Conv1d_Ok (p ++ [4; 0]) 1024 1024 41 4 20 1 256) as [c4 H4];
    [lia|reflexivity..|].
  destruct (nn_Conv1d_Ok (p ++ [5; 0]) 1024 1024 5 1 2 1 1) as [c5 H5];
    [lia|reflexivity..|].
  destruct (nn_Conv1d_Ok (p ++ [6]) 1024 1 3 1 1 1 1) as [c6 H6];
    [lia|reflexivity..|].
  exists c0, c1, c2, c3, c4, c5, c6.
  rewrite H0, H1, H2, H3, H4, H5, H6; simpl_bind.
  repeat split; reflexivity.
Qed.

(** A convolution followed by an activation. *)
Lemma conv_act_inv (p : path) (in_c out_c k s pad d g : nat) (m : Conv1d)
    (a : R → R) (x y : tensor) :
  nn_Conv1d p in_c out_c k s pad d g = Ok m →
  Sequential [Conv1d_forward m; (λ x, Ok (tensor_map a x))] x = Ok y →
  channels x = in_c ∧ d * (k - 1) + 1 ≤ steps x + 2 * pad
  ∧ batch y = batch x ∧ channels y = out_c
  ∧ steps y = (steps x + 2 * pad - (d * (k - 1) + 1)) `div` s + 1.
Proof.
  intros Hm Hy; simpl in Hy.
  bind_inv Hy z Hz; injection Hy as <-.
  exact (Conv1d_forward_inv _ _ _ _ _ _ _ _ _ _ _ Hm Hz).
Qed.

Lemma conv_act_Ok (p : path) (in_c out_c k s pad d g : nat) (m : Conv1d)
    (a : R → R) (x : tensor) :
  nn_Conv1d p in_c out_c k s pad d g = Ok m →
  1 ≤ k → 1 ≤ s → 1 ≤ d → g ≤ out_c →
  channels x = in_c → d * (k - 1) + 1 ≤ steps x + 2 * pad →
  is_Ok (Sequential [Conv1d_forward m; (λ x, Ok (tensor_map a x))] x).
Proof.
  intros Hm Hk Hs Hd Ho Hc Hspan.
  destruct (Conv1d_forward_Ok _ _ _ _ _ _ _ _ _ x Hm Hk Hs Hd Ho Hc Hspan) as [z Hz].
  simpl; rewrite Hz; simpl; eexists; reflexivity.
Qed.

(** The lengths of the seven feature maps, as the layers compute them. *)
Lemma WaveDiscriminatorBlock_forward_inv (p : path) (m : WaveDiscriminatorBlock)
    (x : tensor) (fm : list tensor) :
  WaveDiscriminatorBlock_init p = Ok m →
  WaveDiscriminatorBlock_forward m x = Ok fm →
  channels x = 1 ∧ 8 ≤ steps x
  ∧ steps <$> fm =
      [steps x;
       (steps x + 3) `div` 4;
       (steps x + 15) `div` 16;
       (steps x + 63) `div` 64;
       (steps x + 255) `div` 256;
       (steps x + 255) `div` 256;
       (steps x + 255) `div` 256].
Proof.
  destruct (WaveDiscriminatorBlock_init_Ok p)
    as (c0 & c1 & c2 & c3 & c4 & c5 & c6 & H0 & H1 & H2 & H3 & H4 & H5 & H6 & ->).
  intros [= <-] Hfm.
  unfold WaveDiscriminatorBlock_forward in Hfm; simpl wdb_layers in Hfm.
  unfold WNConv1d in *.
  cbn [feature_maps] in Hfm.
  bind_inv Hfm y0 Hy0. bind_inv Hfm r0 Hr0.
  cbn [feature_maps] in Hr0.
  bind_inv Hr0 y1 Hy1. bind_inv Hr0 r1 Hr1.
  cbn [feature_maps] in Hr1.
  bind_inv Hr1 y2 Hy2. bind_inv Hr1 r2 Hr2.
  cbn [feature_maps] in Hr2.
  bind_inv Hr2 y3 Hy3. bind_inv Hr2 r3 Hr3.
  cbn [feature_maps] in Hr3.
  bind_inv Hr3 y4 Hy4. bind_inv Hr3 r4 Hr4.
  cbn [feature_maps] in Hr4.
  bind_inv Hr4 y5 Hy5. bind_inv Hr4 r5 Hr5.
  cbn [feature_maps] in Hr5.
  bind_inv Hr5 y6 Hy6. bind_inv Hr5 r6 Hr6.
  cbn [feature_maps] in Hr6.
  injection Hr6 as <-. injection Hr5 as <-. injection Hr4 as <-.
  injection Hr3 as <-. injection Hr2 as <-. injection Hr1 as <-.
  injection Hr0 as <-. injection Hfm as <-.
  (* layer 0: reflection padding, convolution, activation *)
  cbn [Sequential] in Hy0.
  bind_inv Hy0 xp Hxp.
  unfold ReflectionPad1d in Hxp.
  destruct (decide _) as [Hlen|] in Hxp; [|discriminate]; injection Hxp as <-.
  apply (conv_act_inv _ _ _ _ _ _ _ _ _ _ _ _ H0) in Hy0
    as (Hc0 & _ & _ & Hch0 & Hs0); simpl in Hc0, Hs0.
  apply (conv_act_inv _ _ _ _ _ _ _ _ _ _ _ _ H1) in Hy1
    as (_ & _ & _ & Hch1 & Hs1).
  apply (conv_act_inv _ _ _ _ _ _ _ _ _ _ _ _ H2) in Hy2
    as (_ & _ & _ & Hch2 & Hs2).
  apply (conv_act_inv _ _ _ _ _ _ _ _ _ _ _ _ H3) in Hy3
    as (_ & _ & _ & Hch3 & Hs3).
  apply (conv_act_inv _ _ _ _ _ _ _ _ _ _ _ _ H4) in Hy4
    as (_ & _ & _ & Hch4 & Hs4).
  apply (conv_act_inv _ _ _ _ _ _ _ _ _ _ _ _ H5) in Hy5
    as (_ & _ & _ & Hch5 & Hs5).
  apply (Conv1d_forward_inv _ _ _ _ _ _ _ _ _ _ _ H6) in Hy6
    as (_ & _ & _ & Hch6 & Hs6).
  split; [exact Hc0|]; split; [clear - Hlen; lia|].
  cbn [fmap list_fmap].
  assert (E0 : steps y0 = steps x).
  { rewrite Hs0; clear - Hlen; lia. }
  assert (E1 : steps y1 = (steps x + 3) `div` 4).
  { rewrite Hs1, E0; clear - Hlen; lia. }
  assert (E2 : steps y2 = (steps x + 15) `div` 16).
  { rewrite Hs2, E1; clear - Hlen; lia. }
  assert (E3 : steps y3 = (steps x + 63) `div` 64).
  { rewrite Hs3, E2; clear - Hlen; lia. }
  assert (E4 : steps y4 = (steps x + 255) `div` 256).
  { rewrite Hs4, E3; clear - Hlen; lia. }
  assert (E5 : steps y5 = (steps x + 255) `div` 256).
  { rewrite Hs5, E4; clear - Hlen; lia. }
  assert (E6 : steps y6 = (steps x + 255) `div` 256).
  { rewrite Hs6, E5; clear - Hlen; lia. }
  rewrite E0, E1, E2, E3, E4, E5, E6; reflexivity.
Qed.

Lemma feature_maps_cons (l : nn_Module) (ls : list nn_Module) (x y : tensor)
    (rest : list tensor) :
  l x = Ok y → feature_maps ls y = Ok rest →
  feature_maps (l :: ls) x = Ok (y :: rest).
Proof. intros Hy Hrest; simpl; rewrite Hy; simpl; rewrite Hrest; reflexivity. Qed.

Lemma WaveDiscriminatorBlock_forward_Ok (p : path) (m : WaveDiscriminatorBlock)
    (x : tensor) :
  WaveDiscriminatorBlock_init p = Ok m →
  channels x = 1 → 8 ≤ steps x →
  is_Ok (WaveDiscriminatorBlock_forward m x).
Proof.
  destruct (WaveDiscriminatorBlock_init_Ok p)
    as (c0 & c1 & c2 & c3 & c4 & c5 & c6 & H0 & H1 & H2 & H3 & H4 & H5 & H6 & ->).
  intros [= <-] Hc Ht.
  unfold WaveDiscriminatorBlock_forward; simpl wdb_layers.
  unfold WNConv1d in *.
  (* layer 0 *)
  assert (Hy0 : ∃ y0, Sequential [ReflectionPad1d 7; Conv1d_forward c0; LeakyReLU] x = Ok y0
                      ∧ channels y0 = 16 ∧ 1 ≤ steps y0).
  { cbn [Sequential]; unfold ReflectionPad1d at 1.
    rewrite decide_True by (clear - Ht; lia); simpl_bind.
    set (xp := Tensor _ _ _ _).
    destruct (conv_act_Ok _ _ _ _ _ _ _ _ _ leaky_relu xp H0) as [y0 Hy0];
      [clear; lia..|exact Hc|simpl; clear - Ht; lia|].
    exists y0; split; [exact Hy0|].
    apply (conv_act_inv _ _ _ _ _ _ _ _ _ _ _ _ H0) in Hy0 as (_ & _ & _ & ? & Hs).
    split; [assumption|rewrite Hs; clear; lia]. }
  destruct Hy0 as (y0 & Hy0 & Hch0 & Hs0).
  destruct (conv_act_Ok _ _ _ _ _ _ _ _ _ leaky_relu y0 H1) as [y1 Hy1];
    [clear; lia..|exact Hch0|clear - Hs0; lia|].
  pose proof (conv_act_inv _ _ _ _ _ _ _ _ _ _ _ _ H1 Hy1) as (_ & _ & _ & Hch1 & Hs1).
  assert (Hp1 : 1 ≤ steps y1) by (rewrite Hs1; clear; lia); clear Hs1.
  destruct (conv_act_Ok _ _ _ _ _ _ _ _ _ leaky_relu y1 H2) as [y2 Hy2];
    [clear; lia..|exact Hch1|clear - Hp1; lia|].
  pose proof (conv_act_inv _ _ _ _ _ _ _ _ _ _ _ _ H2 Hy2) as (_ & _ & _ & Hch2 & Hs2).
  assert (Hp2 : 1 ≤ steps y2) by (rewrite Hs2; clear; lia); clear Hs2.
  destruct (conv_act_Ok _ _ _ _ _ _ _ _ _ leaky_relu y2 H3) as [y3 Hy3];
    [clear; lia..|exact Hch2|clear - Hp2; lia|].
  pose proof (conv_act_inv _ _ _ _ _ _ _ _ _ _ _ _ H3 Hy3) as (_ & _ & _ & Hch3 & Hs3).
  assert (Hp3 : 1 ≤ steps y3) by (rewrite Hs3; clear; lia); clear Hs3.
  destruct (conv_act_Ok _ _ _ _ _ _ _ _ _ leaky_relu y3 H4) as [y4 Hy4];
    [clear; lia..|exact Hch3|clear - Hp3; lia|].
  pose proof (conv_act_inv _ _ _ _ _ _ _ _ _ _ _ _ H4 Hy4) as (_ & _ & _ & Hch4 & Hs4).
  assert (Hp4 : 1 ≤ steps y4) by (rewrite Hs4; clear; lia); clear Hs4.
  destruct (conv_act_Ok _ _ _ _ _ _ _ _ _ leaky_relu y4 H5) as [y5 Hy5];
    [clear; lia..|exact Hch4|clear - Hp4; lia|].
  pose proof (conv_act_inv _ _ _ _ _ _ _ _ _ _ _ _ H5 Hy5) as (_ & _ & _ & Hch5 & Hs5).
  assert (Hp5 : 1 ≤ steps y5) by (rewrite Hs5; clear; lia); clear Hs5.
  destruct (Conv1d_forward_Ok _ _ _ _ _ _ _ _ _ y5 H6) as [y6 Hy6];
    [clear; lia..|exact Hch5|clear - Hp5; lia|].
  exists [y0; y1; y2; y3; y4; y5; y6].
  repeat (eapply feature_maps_cons; [eassumption|]); reflexivity.
Qed.

(** ** [WaveDiscriminator] *)

Lemma disc_key_inj (df : Z) (i j : nat) :
  (2 ≤ Z.abs df)%Z → disc_key df i = disc_key df j → i = j.
Proof.
  intros Hdf Hkey; unfold disc_key in Hkey.
  apply (inj (String.append "disc_")) in Hkey.
  apply (inj pretty) in Hkey.
  assert (Habs : (Z.abs df ^ Z.of_nat i = Z.abs df ^ Z.of_nat j)%Z).
  { rewrite <- !Z.abs_pow; congruence. }
  destruct (Nat.lt_trichotomy i j) as [Hlt|[Heq|Hlt]]; [|exact Heq|].
  - pose proof (Z.pow_lt_mono_r (Z.abs df) (Z.of_nat i) (Z.of_nat j)); lia.
  - pose proof (Z.pow_lt_mono_r (Z.abs df) (Z.of_nat j) (Z.of_nat i)); lia.
Qed.

Lemma getitem_Some {A} (d : gmap string A) (key : string) (a : A) :
  d !! key = Some a → getitem d key = Ok a.
Proof. unfold getitem; intros ->; reflexivity. Qed.

Lemma WaveDiscriminatorBlock_init_is_Ok (p : path) :
  ∃ blk, WaveDiscriminatorBlock_init p = Ok blk.
Proof.
  destruct (WaveDiscriminatorBlock_init_Ok p)
    as (c0 & c1 & c2 & c3 & c4 & c5 & c6 & _ & _ & _ & _ & _ & _ & _ & Hblk).
  eexists; exact Hblk.
Qed.

(** The constructor fills every key of a scale. *)
Lemma WaveDiscriminator_model_spec (p : path) (df : Z) (n i : nat)
    (acc : gmap string WaveDiscriminatorBlock) :
  ∃ mdl,
    WaveDiscriminator_model p df i n acc = Ok mdl
    ∧ (∀ key, is_Some (acc !! key) → is_Some (mdl !! key))
    ∧ (∀ j, i ≤ j < i + n → is_Some (mdl !! disc_key df j)).
Proof.
  revert i acc; induction n as [|n IH]; intros i acc.
  - exists acc; repeat split; [auto|intros j Hj; lia].
  - destruct (WaveDiscriminatorBlock_init_is_Ok (p ++ [i])) as [blk Hblk].
    destruct (IH (S i) (<[disc_key df i := blk]> acc)) as (mdl & Hmdl & Hkeep & Hnew).
    exists mdl; split; [|split].
    + cbn [WaveDiscriminator_model]; rewrite Hblk; simpl_bind; exact Hmdl.
    + intros key Hkey; apply Hkeep.
      destruct (decide (disc_key df i = key)) as [->|Hne].
      * rewrite lookup_insert_eq; eauto.
      * rewrite lookup_insert_ne by exact Hne; exact Hkey.
    + intros j Hj.
      destruct (decide (j = i)) as [->|Hne]; [|apply Hnew; lia].
      apply Hkeep; rewrite lookup_insert_eq; eauto.
Qed.

(** With pairwise distinct keys, the entry of scale [j] is the length map
    of a block applied to the lengths divided by [2 ^ j]. *)
Lemma WaveDiscriminator_features_lengths_spec (m : WaveDiscriminator)
    (lengths : list Z) (n i : nat) (acc : gmap string (list (list Z))) :
  (∀ a b, disc_key (downsampling_factor m) a = disc_key (downsampling_factor m) b → a = b) →
  (∀ j, i ≤ j < i + n → is_Some (model m !! disc_key (downsampling_factor m) j)) →
  ∃ fl,
    WaveDiscriminator_features_lengths_from m lengths i n acc = Ok fl
    ∧ (∀ j, j < i →
         fl !! disc_key (downsampling_factor m) j
         = acc !! disc_key (downsampling_factor m) j)
    ∧ (∀ j blk, i ≤ j < i + n →
         fl !! disc_key (downsampling_factor m) j
         = Some (WaveDiscriminatorBlock_features_lengths blk
                   (torch_div_floor lengths (2 ^ Z.of_nat j)))).
Proof.
  intros Hinj; revert i acc; induction n as [|n IH]; intros i acc Hmodel.
  - exists acc; repeat split; [intros j blk Hj; lia].
  - destruct (Hmodel i ltac:(lia)) as [blk Hblk].
    destruct (IH (S i)
                (<[disc_key (downsampling_factor m) i :=
                     WaveDiscriminatorBlock_features_lengths blk
                       (torch_div_floor lengths (2 ^ Z.of_nat i))]> acc))
      as (fl & Hfl & Hold & Hnew); [intros j Hj; apply Hmodel; lia|].
    exists fl; split; [|split].
    + cbn [WaveDiscriminator_features_lengths_from].
      rewrite (getitem_Some _ _ _ Hblk); simpl_bind; exact Hfl.
    + intros j Hj; rewrite Hold by lia.
      apply lookup_insert_ne; intros Heq; apply Hinj in Heq; lia.
    + intros j blk' Hj.
      destruct (decide (j = i)) as [->|Hne]; [|apply Hnew; lia].
      rewrite Hold by lia; rewrite lookup_insert_eq; reflexivity.
Qed.

Lemma WaveDiscriminator_init_Ok (p : path) (n : nat) (df : Z) :
  ∃ m, WaveDiscriminator_init p n df = Ok m
       ∧ num_D m = n ∧ downsampling_factor m = df
       ∧ ∀ j, j < n → is_Some (model m !! disc_key df j).
Proof.
  destruct (WaveDiscriminator_model_spec p df n 0 ∅) as (mdl & Hmdl & _ & Hkeys).
  unfold WaveDiscriminator_init; rewrite Hmdl; simpl_bind.
  eexists; split; [reflexivity|]; simpl; repeat split.
  intros j Hj; apply Hkeys; lia.
Qed.

(** The length map with downsampling factor [df] on [n] scales, when the
    keys of the scales are pairwise distinct. *)
Lemma WaveDiscriminator_features_lengths_scale (p : path) (n : nat) (df : Z) :
  (∀ a b, disc_key df a = disc_key df b → a = b) →
  ∃ m,
    WaveDiscriminator_init p n df = Ok m
    ∧ ∀ lengths, ∃ fl,
        WaveDiscriminator_features_lengths m lengths = Ok fl
        ∧ ∀ i blk, i < n →
            fl !! disc_key df i
            = Some (WaveDiscriminatorBlock_features_lengths blk
                      (torch_div_floor lengths (2 ^ Z.of_nat i))).
Proof.
  intros Hinj.
  destruct (WaveDiscriminator_init_Ok p n df) as (m & Hm & Hn & Hd & Hkeys).
  exists m; split; [exact Hm|].
  intros lengths.
  destruct (WaveDiscriminator_features_lengths_spec m lengths n 0 ∅)
    as (fl & Hfl & _ & Hnew).
  - rewrite Hd; exact Hinj.
  - rewrite Hd; intros j Hj; apply Hkeys; lia.
  - exists fl; split; [unfold WaveDiscriminator_features_lengths; rewrite Hn; exact Hfl|].
    intros i blk Hi; rewrite <- Hd; apply Hnew; lia.
Qed.

(** With downsampling factor 1 every scale has the key of scale 0, and the
    entry that remains under it is the one of the last scale. *)
Lemma WaveDiscriminator_colliding_keys (p : path) (lengths : list Z) :
  ∃ m fl,
    WaveDiscriminator_init p 2 1 = Ok m
    ∧ WaveDiscriminator_features_lengths m lengths = Ok fl
    ∧ ∀ blk,
        fl !! disc_key 1 0
        = Some (WaveDiscriminatorBlock_features_lengths blk
                  (torch_div_floor lengths 2)).
Proof.
  destruct (WaveDiscriminatorBlock_init_is_Ok (p ++ [0])) as [b0 Hb0].
  destruct (WaveDiscriminatorBlock_init_is_Ok (p ++ [1])) as [b1 Hb1].
  assert (Hkey : disc_key 1 1 = disc_key 1 0) by reflexivity.
  eexists; eexists; split; [|split].
  - unfold WaveDiscriminator_init; cbn [WaveDiscriminator_model].
    rewrite Hb0; simpl_bind; rewrite Hb1; simpl_bind; reflexivity.
  - unfold WaveDiscriminator_features_lengths; cbn [num_D downsampling_factor model].
    cbn [WaveDiscriminator_features_lengths_from downsampling_factor model].
    rewrite Hkey; unfold getitem.
    rewrite insert_insert_eq, lookup_insert_eq; simpl_bind; reflexivity.
  - intros blk; rewrite lookup_insert_eq; reflexivity.
Qed.

(** * The codec: strides, shapes and causality *)

(** C1 (amended): for the default encoder stride list [2,2,4,5,8] the total
    stride, the product of the strides of the encoder blocks, is 640, and it
    is the ratio between the number of input samples and the number of
    latent frames: an encoder built with the default lists and positive
    channel counts maps every input whose length is a positive multiple of
    640 to [samples / 640] frames. *)
Theorem default_total_stride_is_640 :
  total_stride (block_strides default_strides default_c_mults) = 640
  ∧ ∀ (p : path) (n_channels latent_dim n_io_channels : nat),
      1 ≤ n_channels → 1 ≤ latent_dim → 1 ≤ n_io_channels →
      ∃ m,
        SoundStreamXLEncoder_init p n_channels latent_dim n_io_channels
          default_strides default_c_mults = Ok m
        ∧ ∀ x, channels x = n_io_channels → 1 ≤ steps x → Nat.divide 640 (steps x) →
            ∃ z, SoundStreamXLEncoder_forward m x = Ok z
                 ∧ steps z = steps x `div` 640.
Proof.
  split; [reflexivity|].
  intros p n_channels latent_dim n_io_channels Hn Hl _.
  destruct (SoundStreamXLEncoder_shape p n_channels latent_dim n_io_channels
              default_strides default_c_mults) as (m & Hm & Hshape);
    [simpl; lia|repeat constructor|exact Hn|exact Hl|repeat constructor|].
  exists m; split; [exact Hm|].
  intros x Hc Ht Hdiv.
  destruct (Hshape x Hc Ht) as (z & Hz & _ & _ & Hs & _).
  exists z; split; [exact Hz|].
  rewrite Hs; apply down_all_divide; [repeat constructor|exact Ht|exact Hdiv].
Qed.

(** C2: for encoder blocks of positive strides with product [R], positive
    channel counts, and every input of the encoder's channel count whose
    length [T] is a positive multiple of [R], the encoder returns exactly
    [T / R] frames; when the encoder's strides are those of the decoder,
    the decoder maps these frames back to a tensor of length exactly [T]. *)
Theorem encode_decode_length (p q : path) (n_channels latent_dim n_io_channels : nat)
    (strides c_mults : list nat) :
  length c_mults ≤ length strides →
  Forall (λ s, 1 ≤ s) (block_strides strides c_mults) →
  1 ≤ n_channels → 1 ≤ latent_dim → 1 ≤ n_io_channels →
  Forall (λ c, 1 ≤ c) c_mults →
  ∃ enc dec,
    SoundStreamXLEncoder_init p n_channels latent_dim n_io_channels strides c_mults = Ok enc
    ∧ SoundStreamXLDecoder_init q n_channels latent_dim n_io_channels = Ok dec
    ∧ ∀ x, channels x = n_io_channels → 1 ≤ steps x →
        Nat.divide (total_stride (block_strides strides c_mults)) (steps x) →
        ∃ z, SoundStreamXLEncoder_forward enc x = Ok z
             ∧ batch z = batch x ∧ channels z = latent_dim
             ∧ steps z = steps x `div` total_stride (block_strides strides c_mults)
             ∧ (block_strides strides c_mults = SoundStreamXLDecoder_strides →
                ∃ y, SoundStreamXLDecoder_forward dec z = Ok y
                     ∧ batch y = batch x ∧ channels y = n_io_channels
                     ∧ steps y = steps x).
Proof.
  intros Hlen Hpos Hn Hl Hio Hmults.
  destruct (SoundStreamXLEncoder_shape p n_channels latent_dim n_io_channels
              strides c_mults Hlen Hpos Hn Hl Hmults) as (enc & Henc & Hes).
  destruct (SoundStreamXLDecoder_shape q n_channels latent_dim n_io_channels Hn Hio)
    as (dec & Hdec & Hds).
  exists enc, dec; split; [exact Henc|]; split; [exact Hdec|].
  intros x Hc Ht Hdiv.
  destruct (Hes x Hc Ht) as (z & Hz & Hbz & Hcz & Hsz & Hz1).
  rewrite down_all_divide in Hsz by assumption.
  exists z; repeat split; try assumption.
  intros Hsame.
  destruct (Hds z Hcz Hz1) as (y & Hy & Hby & Hcy & Hsy & _).
  exists y; repeat split; try congruence.
  rewrite Hsy, Hsz, Hsame.
  rewrite Hsame in Hdiv; destruct Hdiv as [k ->].
  rewrite Nat.div_mul; [reflexivity|discriminate].
Qed.

(** C3: the encoder is causal.  The receptive field of latent frame [f]
    ends at input sample [f * R], with [R] the product of the block
    strides: whenever two inputs agree on all samples up to [t], the
    outputs of the encoder agree on every frame [f] with [f * R ≤ t].  In
    particular every causal convolution, which pads on the left only,
    produces its output at index [t'] from the input samples up to
    [t' * stride]. *)
Theorem encoder_causal (p : path) (n_channels latent_dim n_io_channels : nat)
    (strides c_mults : list nat) (m : SoundStreamXLEncoder) :
  SoundStreamXLEncoder_init p n_channels latent_dim n_io_channels strides c_mults = Ok m →
  (∀ x x' y y' t f,
     agree_upto t x x' →
     SoundStreamXLEncoder_forward m x = Ok y →
     SoundStreamXLEncoder_forward m x' = Ok y' →
     f * total_stride (block_strides strides c_mults) ≤ t →
     agree_upto f y y')
  ∧ (∀ (q : path) (in_c out_c k s pad d g : nat) (c : CausalConv1d),
       CausalConv1d_init q in_c out_c k s pad d g = Ok c →
       cc_causal_padding c = (Z.of_nat d * (Z.of_nat k - 1))%Z
       ∧ ∀ x x' y y' t t',
           agree_upto t x x' →
           CausalConv1d_forward c x = Ok y →
           CausalConv1d_forward c x' = Ok y' →
           t' * s ≤ t →
           agree_upto t' y y').
Proof.
  intros Hm; split.
  - exact (SoundStreamXLEncoder_causal _ _ _ _ _ _ _ Hm).
  - intros q in_c out_c k s pad d g c Hc; split.
    + unfold CausalConv1d_init in Hc.
      bind_inv Hc c0 Hc0; injection Hc as <-; simpl.
      apply nn_Conv1d_fields in Hc0 as (_ & _ & -> & _ & -> & _); reflexivity.
    + exact (CausalConv1d_causal _ _ _ _ _ _ _ _ _ Hc).
Qed.

(** * The causal transposed convolution *)

(** C8: a transposed convolution whose causal padding is zero.  The slice
    [[..., :-causal_padding]] is then [[..., :0]]: every successful forward
    pass returns a tensor without any time step, although the transposed
    convolution itself, from which nothing should be removed, produced at
    least one, and [n * stride] of them for an input of length [n] when the
    padding is 0. *)
Theorem CausalConvTranspose1d_zero_causal_padding (p : path)
    (in_c out_c k s pad op g d : nat) (mode : string)
    (m : CausalConvTranspose1d) (x y : tensor) :
  CausalConvTranspose1d_init p in_c out_c k s pad op g d mode = Ok m →
  cct_causal_padding m = 0%Z →
  CausalConvTranspose1d_forward m x = Ok y →
  steps y = 0
  ∧ ∃ z, F_conv_transpose1d x (ct_weight m) (ct_bias m) (ct_stride m) (ct_padding m)
           (ct_output_padding m) (ct_groups m) (ct_dilation m) = Ok z
         ∧ 1 ≤ steps z
         ∧ (pad = 0 → steps z = steps x * s).
Proof.
  unfold CausalConvTranspose1d_init; intros Hm Hcp Hy.
  bind_inv Hm c Hc; injection Hm as <-.
  apply nn_ConvTranspose1d_fields in Hc as (-> & -> & Hg & Hi & Ho).
  unfold CausalConvTranspose1d_forward, _output_padding in Hy; simpl in *.
  bind_inv Hy z Hz; injection Hy as <-.
  rewrite Hcp; split; [apply slice_stop_0|].
  exists z; split; [exact Hz|].
  unfold F_conv_transpose1d in Hz.
  destruct (decide _) as [Hok|] in Hz; [|discriminate]; injection Hz as <-.
  simpl in *; split; [lia|].
  intros ->; nia.
Qed.

(** C9: a padding mode other than ["zeros"] is rejected when the causal
    transposed convolution is constructed, and a module carrying such a
    mode fails in every forward pass. *)
Theorem CausalConvTranspose1d_padding_mode (mode : string) :
  mode ≠ "zeros" →
  (∀ (p : path) (in_c out_c k s pad op g d : nat),
     CausalConvTranspose1d_init p in_c out_c k s pad op g d mode = Raise ValueError)
  ∧ (∀ (m : CausalConvTranspose1d) (x : tensor),
       ct_padding_mode m = mode →
       CausalConvTranspose1d_forward m x = Raise ValueError).
Proof.
  intros Hmode; split.
  - intros; unfold CausalConvTranspose1d_init, nn_ConvTranspose1d.
    rewrite decide_True by exact Hmode; reflexivity.
  - intros m x Hm; unfold CausalConvTranspose1d_forward.
    rewrite Hm, decide_True by exact Hmode; reflexivity.
Qed.

(** * The residual unit *)


(** * The discriminators: analytic length maps *)

Lemma torch_div_floor_add (lengths : list Z) (c d : Z) :
  torch_div_floor (lengths_add lengths c) d = (λ L, (L + c) `div` d)%Z <$> lengths.
Proof.
  unfold torch_div_floor, lengths_add.
  rewrite <- list_fmap_compose; reflexivity.
Qed.

(** C4: the length map of a sub-discriminator returns the seven sequences
    [L, floor((L+3)/4), floor((L+15)/16), floor((L+63)/64),
    floor((L+255)/256), floor((L+255)/256), floor((L+255)/256)], for
    lengths [L] of a 64-bit tensor to which 255 can be added without
    leaving the 64-bit range, and the i-th feature map that [forward]
    returns for an input of length [L] has the i-th of these lengths;
    [forward] returns its seven feature maps for every single-channel input
    of at least 8 samples. *)
Theorem WaveDiscriminatorBlock_lengths (p : path) :
  ∃ m,
    WaveDiscriminatorBlock_init p = Ok m
    ∧ (∀ lengths,
         Forall (λ L, int64 L ∧ int64 (L + 255)) lengths →
         WaveDiscriminatorBlock_features_lengths m lengths =
         [lengths;
          (λ L, (L + 3) `div` 4)%Z <$> lengths;
          (λ L, (L + 15) `div` 16)%Z <$> lengths;
          (λ L, (L + 63) `div` 64)%Z <$> lengths;
          (λ L, (L + 255) `div` 256)%Z <$> lengths;
          (λ L, (L + 255) `div` 256)%Z <$> lengths;
          (λ L, (L + 255) `div` 256)%Z <$> lengths]
         ∧ Forall (Forall int64) (WaveDiscriminatorBlock_features_lengths m lengths))
    ∧ (∀ x fm,
         WaveDiscriminatorBlock_forward m x = Ok fm →
         (λ y, [Z.of_nat (steps y)]) <$> fm =
         WaveDiscriminatorBlock_features_lengths m [Z.of_nat (steps x)])
    ∧ (∀ x, channels x = 1 → 8 ≤ steps x →
         ∃ fm, WaveDiscriminatorBlock_forward m x = Ok fm ∧ length fm = 7).
Proof.
  destruct (WaveDiscriminatorBlock_init_is_Ok p) as [m Hm].
  exists m; split; [exact Hm|]; split; [|split].
  - intros lengths Hrange.
    assert (Heq : WaveDiscriminatorBlock_features_lengths m lengths =
                  [lengths;
                   (λ L, (L + 3) `div` 4)%Z <$> lengths;
                   (λ L, (L + 15) `div` 16)%Z <$> lengths;
                   (λ L, (L + 63) `div` 64)%Z <$> lengths;
                   (λ L, (L + 255) `div` 256)%Z <$> lengths;
                   (λ L, (L + 255) `div` 256)%Z <$> lengths;
                   (λ L, (L + 255) `div` 256)%Z <$> lengths]).
    { unfold WaveDiscriminatorBlock_features_lengths.
      rewrite !torch_div_floor_add; reflexivity. }
    split; [exact Heq|].
    rewrite Heq.
    repeat (apply Forall_cons; split;
            [try apply Forall_fmap; eapply Forall_impl; [exact Hrange|];
             intros L [HL HL']; unfold int64 in *; simpl; clear - HL HL'; lia|]).
    apply Forall_nil_2.
  - intros x fm Hfm.
    destruct (WaveDiscriminatorBlock_forward_inv p m x fm Hm Hfm) as (_ & Hlen & Hsteps).
    unfold WaveDiscriminatorBlock_features_lengths.
    rewrite !torch_div_floor_add; cbn [fmap list_fmap].
    destruct fm as [|y0 [|y1 [|y2 [|y3 [|y4 [|y5 [|y6 [|y7 fm]]]]]]]];
      try discriminate Hsteps.
    cbn [fmap list_fmap] in Hsteps |- *.
    injection Hsteps as -> -> -> -> -> -> ->.
    clear; repeat f_equal; lia.
  - intros x Hc Ht.
    destruct (WaveDiscriminatorBlock_forward_Ok p m x Hm Hc Ht) as [fm Hfm].
    exists fm; split; [exact Hfm|].
    destruct (WaveDiscriminatorBlock_forward_inv p m x fm Hm Hfm) as (_ & _ & Hsteps).
    apply (f_equal length) in Hsteps; rewrite length_fmap in Hsteps; exact Hsteps.
Qed.

(** C5 (amended): for [L = 1000] the length map of a sub-discriminator,
    which is the scale-0 entry of the length map of the multi-scale
    discriminator, is [1000, 250, 63, 16, 4, 4, 4]. *)
Theorem WaveDiscriminator_lengths_1000 :
  (∀ m : WaveDiscriminatorBlock,
     WaveDiscriminatorBlock_features_lengths m [1000%Z] =
     [[1000]; [250]; [63]; [16]; [4]; [4]; [4]]%Z)
  ∧ (∀ (p : path) (n : nat),
       ∃ wd fl,
         WaveDiscriminator_init p (S n) 2 = Ok wd
         ∧ WaveDiscriminator_features_lengths wd [1000%Z] = Ok fl
         ∧ fl !! disc_key 2 0 = Some [[1000]; [250]; [63]; [16]; [4]; [4]; [4]]%Z).
Proof.
  split; [intros m; reflexivity|].
  intros p n.
  destruct (WaveDiscriminator_features_lengths_scale p (S n) 2) as (wd & Hwd & Hfl);
    [intros a b; apply disc_key_inj; lia|].
  destruct (Hfl [1000%Z]) as (fl & Hfl' & Hentry).
  exists wd, fl; split; [exact Hwd|]; split; [exact Hfl'|].
  destruct (WaveDiscriminatorBlock_init_is_Ok []) as [blk _].
  rewrite (Hentry 0 blk ltac:(lia)); reflexivity.
Qed.


(** C7: the length map of the STFT discriminator returns the eight
    sequences [L-6, L-6, floor((L-5)/2), floor((L-5)/2), floor((L-3)/4),
    floor((L-3)/4), floor((L+1)/8), floor((L+1)/8)], for lengths [L] of a
    64-bit tensor from which 6 can be subtracted and to which 1 can be
    added without leaving the 64-bit range; for [L = 64] these are
    [58, 58, 29, 29, 15, 15, 8, 8]. *)
Theorem STFTDiscriminator_lengths :
  (∀ lengths,
     Forall (λ L, int64 (L - 6) ∧ int64 (L + 1)) lengths →
     STFTDiscriminator_features_lengths lengths =
     [(λ L, L - 6)%Z <$> lengths;
      (λ L, L - 6)%Z <$> lengths;
      (λ L, (L - 5) `div` 2)%Z <$> lengths;
      (λ L, (L - 5) `div` 2)%Z <$> lengths;
      (λ L, (L - 3) `div` 4)%Z <$> lengths;
      (λ L, (L - 3) `div` 4)%Z <$> lengths;
      (λ L, (L + 1) `div` 8)%Z <$> lengths;
      (λ L, (L + 1) `div` 8)%Z <$> lengths]
     ∧ Forall (Forall int64) (STFTDiscriminator_features_lengths lengths))
  ∧ Forall (λ L, int64 (L - 6) ∧ int64 (L + 1)) [64%Z]
  ∧ STFTDiscriminator_features_lengths [64%Z] =
    [[58]; [58]; [29]; [29]; [15]; [15]; [8]; [8]]%Z.
Proof.
  split; [|split; [|reflexivity]].
  - intros lengths Hrange.
    assert (Heq : STFTDiscriminator_features_lengths lengths =
                  [(λ L, L - 6)%Z <$> lengths;
                   (λ L, L - 6)%Z <$> lengths;
                   (λ L, (L - 5) `div` 2)%Z <$> lengths;
                   (λ L, (L - 5) `div` 2)%Z <$> lengths;
                   (λ L, (L - 3) `div` 4)%Z <$> lengths;
                   (λ L, (L - 3) `div` 4)%Z <$> lengths;
                   (λ L, (L + 1) `div` 8)%Z <$> lengths;
                   (λ L, (L + 1) `div` 8)%Z <$> lengths]).
    { unfold STFTDiscriminator_features_lengths.
      rewrite !torch_div_floor_add; unfold lengths_add; reflexivity. }
    split; [exact Heq|].
    rewrite Heq.
    repeat (apply Forall_cons; split;
            [apply Forall_fmap; eapply Forall_impl; [exact Hrange|];
             intros L [HL HL']; unfold int64 in *; simpl; clear - HL HL'; lia|]).
    apply Forall_nil_2.
  - apply Forall_cons; split; [|apply Forall_nil_2].
    unfold int64; split; lia.
Qed.

(** * Further properties of the codec *)

(** ** Lengths that are not multiples of the total stride *)

Lemma down_ceil (s T : nat) : 1 ≤ s → 1 ≤ T → down s T = (T + s - 1) `div` s.
Proof.
  intros Hs HT; unfold down.
  replace (T + s - 1) with (T - 1 + 1 * s) by lia.
  rewrite Nat.div_add by lia; reflexivity.
Qed.

Lemma ceil_div_div (T a b : nat) :
  1 ≤ a → 1 ≤ b →
  ((T + a - 1) `div` a + b - 1) `div` b = (T + a * b - 1) `div` (a * b).
Proof.
  intros Ha Hb.
  rewrite <- Nat.Div0.div_div.
  replace (T + a * b - 1) with (T + a - 1 + (b - 1) * a) by nia.
  rewrite Nat.div_add by lia.
  f_equal; lia.
Qed.

Lemma down_all_ceil (l : list nat) (T : nat) :
  Forall (λ s, 1 ≤ s) l → 1 ≤ T →
  down_all l T = (T + total_stride l - 1) `div` total_stride l.
Proof.
  intros Hl; revert T; induction Hl as [|s l Hs Hl IH]; intros T HT.
  - unfold total_stride; simpl; rewrite Nat.div_1_r; lia.
  - pose proof (total_stride_pos l Hl) as Hpos.
    change (total_stride (s :: l)) with (s * total_stride l).
    change (down_all (s :: l) T) with (down_all l (down s T)).
    rewrite IH by apply down_pos.
    rewrite down_ceil by assumption.
    apply ceil_div_div; assumption.
Qed.

(** ** Inputs that the first layer rejects *)

Lemma Sequential_reject (f : nn_Module) (fs : list nn_Module) (x : tensor) (e : exn) :
  f x = Raise e → Sequential (f :: fs) x = Raise e.
Proof. intros H; simpl; rewrite H; reflexivity. Qed.

Lemma CausalConv1d_reject (p : path) (in_c out_c k s d : nat) (m : CausalConv1d)
    (x : tensor) :
  CausalConv1d_init p in_c out_c k s 0 d 1 = Ok m →
  ¬ (channels x = in_c ∧ 1 ≤ steps x) →
  CausalConv1d_forward m x = Raise RuntimeError.
Proof.
  rewrite CausalConv1d_init_groups_1; intros [= <-] Hx.
  unfold CausalConv1d_forward, F_pad; simpl.
  destruct (decide _) as [Hneg|Hpos]; [reflexivity|]; simpl_bind.
  unfold _conv_forward, F_conv1d; simpl.
  rewrite decide_False; [reflexivity|].
  intros (_ & _ & _ & Hk & Hc & _ & Hspan); apply Hx.
  split; [lia|].
  assert (Hcp : (Z.of_nat d * (Z.of_nat k - 1))%Z = Z.of_nat (d * (k - 1))) by nia.
  rewrite Hcp in *; clear Hcp Hx Hc; lia.
Qed.

Lemma SoundStreamXLEncoder_first_layer (p : path) (n_channels latent_dim n_io_channels : nat)
    (strides c_mults : list nat) (m : SoundStreamXLEncoder) :
  SoundStreamXLEncoder_init p n_channels latent_dim n_io_channels strides c_mults = Ok m →
  ∃ c rest,
    CausalConv1d_init (p ++ [0]) n_io_channels (1 * n_channels) 7 1 0 1 1 = Ok c
    ∧ enc_layers m = CausalConv1d_forward c :: rest.
Proof.
  unfold SoundStreamXLEncoder_init; intros Hm.
  bind_inv Hm c_first Hfirst; injection Hfirst as <-.
  bind_inv Hm conv_in Hin.
  bind_inv Hm blocks Hblocks.
  bind_inv Hm c_last Hlast.
  bind_inv Hm conv_out Hout.
  injection Hm as <-.
  exists conv_in; eexists; split; [exact Hin|reflexivity].
Qed.

Lemma SoundStreamXLDecoder_first_layer (p : path) (n_channels latent_dim n_io_channels : nat)
    (m : SoundStreamXLDecoder) :
  SoundStreamXLDecoder_init p n_channels latent_dim n_io_channels = Ok m →
  ∃ c rest,
    CausalConv1d_init (p ++ [0]) latent_dim (16 * n_channels) 7 1 0 1 1 = Ok c
    ∧ dec_layers m = CausalConv1d_forward c :: rest.
Proof.
  unfold SoundStreamXLDecoder_init; intros Hm.
  bind_inv Hm c_last Hlast; injection Hlast as <-.
  bind_inv Hm conv_in Hin.
  bind_inv Hm blocks Hblocks.
  bind_inv Hm c_first Hfirst.
  bind_inv Hm conv_out Hout.
  injection Hm as <-.
  exists conv_in; eexists; split; [exact Hin|reflexivity].
Qed.

(** X1: the encoder rounds up.  With positive channel counts, for every
    non-empty input of the encoder's channel count, of any length [T], the
    encoder returns [ceil(T / R)] frames, [R] being the product of the
    block strides; with the decoder's strides the decoder then returns
    [640 * ceil(T / 640)] samples, at least [T] and less than [T + 640]. *)
Theorem encode_decode_rounds_up (p q : path) (n_channels latent_dim n_io_channels : nat)
    (strides c_mults : list nat) :
  length c_mults ≤ length strides →
  Forall (λ s, 1 ≤ s) (block_strides strides c_mults) →
  1 ≤ n_channels → 1 ≤ latent_dim → 1 ≤ n_io_channels →
  Forall (λ c, 1 ≤ c) c_mults →
  ∃ enc dec,
    SoundStreamXLEncoder_init p n_channels latent_dim n_io_channels strides c_mults = Ok enc
    ∧ SoundStreamXLDecoder_init q n_channels latent_dim n_io_channels = Ok dec
    ∧ ∀ x, channels x = n_io_channels → 1 ≤ steps x →
        ∃ z, SoundStreamXLEncoder_forward enc x = Ok z
             ∧ shape z =
               (batch x, latent_dim,
                (steps x + total_stride (block_strides strides c_mults) - 1)
                  `div` total_stride (block_strides strides c_mults))
             ∧ (block_strides strides c_mults = SoundStreamXLDecoder_strides →
                ∃ y, SoundStreamXLDecoder_forward dec z = Ok y
                     ∧ shape y = (batch x, n_io_channels, 640 * ((steps x + 639) `div` 640))
                     ∧ steps x ≤ steps y < steps x + 640).
Proof.
  intros Hlen Hpos Hn Hl Hio Hmults.
  destruct (SoundStreamXLEncoder_shape p n_channels latent_dim n_io_channels
              strides c_mults Hlen Hpos Hn Hl Hmults) as (enc & Henc & Hes).
  destruct (SoundStreamXLDecoder_shape q n_channels latent_dim n_io_channels Hn Hio)
    as (dec & Hdec & Hds).
  exists enc, dec; split; [exact Henc|]; split; [exact Hdec|].
  intros x Hc Ht.
  destruct (Hes x Hc Ht) as (z & Hz & Hbz & Hcz & Hsz & Hz1).
  rewrite down_all_ceil in Hsz by assumption.
  exists z; split; [exact Hz|]; split.
  { unfold shape; rewrite Hbz, Hcz, Hsz; reflexivity. }
  intros Hsame.
  destruct (Hds z Hcz Hz1) as (y & Hy & Hby & Hcy & Hsy & _).
  exists y; split; [exact Hy|].
  rewrite Hsame in Hsz.
  change (total_stride SoundStreamXLDecoder_strides) with 640 in Hsz, Hsy.
  assert (Hlen_y : steps y = 640 * ((steps x + 639) `div` 640)).
  { rewrite Hsy, Hsz; replace (steps x + 640 - 1) with (steps x + 639) by lia; lia. }
  split; [unfold shape; rewrite Hby, Hbz, Hcy, Hlen_y; reflexivity|].
  rewrite Hlen_y; clear; lia.
Qed.

(** X2: the inputs that the encoder accepts.  An encoder with positive
    block strides and positive channel counts returns a result exactly for
    the non-empty inputs of its channel count; every other input raises
    [RuntimeError]. *)
Theorem SoundStreamXLEncoder_domain (p : path) (n_channels latent_dim n_io_channels : nat)
    (strides c_mults : list nat) :
  length c_mults ≤ length strides →
  Forall (λ s, 1 ≤ s) (block_strides strides c_mults) →
  1 ≤ n_channels → 1 ≤ latent_dim → 1 ≤ n_io_channels →
  Forall (λ c, 1 ≤ c) c_mults →
  ∃ enc,
    SoundStreamXLEncoder_init p n_channels latent_dim n_io_channels strides c_mults = Ok enc
    ∧ ∀ x,
        (channels x = n_io_channels ∧ 1 ≤ steps x →
         is_Ok (SoundStreamXLEncoder_forward enc x))
        ∧ (¬ (channels x = n_io_channels ∧ 1 ≤ steps x) →
           SoundStreamXLEncoder_forward enc x = Raise RuntimeError).
Proof.
  intros Hlen Hpos Hn Hl _ Hmults.
  destruct (SoundStreamXLEncoder_shape p n_channels latent_dim n_io_channels
              strides c_mults Hlen Hpos Hn Hl Hmults) as (enc & Henc & Hes).
  exists enc; split; [exact Henc|].
  intros x; split.
  - intros [Hc Ht]; destruct (Hes x Hc Ht) as (z & Hz & _); exists z; exact Hz.
  - intros Hx.
    destruct (SoundStreamXLEncoder_first_layer _ _ _ _ _ _ _ Henc) as (c & rest & Hc & Hl').
    unfold SoundStreamXLEncoder_forward; rewrite Hl'.
    apply Sequential_reject, (CausalConv1d_reject _ _ _ _ _ _ _ _ Hc Hx).
Qed.

(** ** Construction of the encoder *)

Lemma SoundStreamXLEncoder_blocks_short (p : path) (n_channels : nat)
    (c_mults strides : list nat) (n i : nat) :
  i ≤ length strides → length strides < i + n → i + n < length c_mults →
  SoundStreamXLEncoder_blocks p n_channels c_mults strides i n = Raise IndexError.
Proof.
  revert i; induction n as [|n IH]; intros i Hi Hs Hc; [lia|].
  rewrite SoundStreamXLEncoder_blocks_S.
  destruct (lookup_lt_is_Some_2 c_mults i ltac:(lia)) as [ci Hci].
  destruct (lookup_lt_is_Some_2 c_mults (i + 1) ltac:(lia)) as [cm Hcm].
  rewrite (proj2 (index_Ok _ _ _) Hci), (proj2 (index_Ok _ _ _) Hcm); simpl_bind.
  destruct (decide (i = length strides)) as [->|Hne].
  - unfold index; rewrite lookup_ge_None_2 by lia; reflexivity.
  - destruct (lookup_lt_is_Some_2 strides i ltac:(lia)) as [s Hsi].
    rewrite (proj2 (index_Ok _ _ _) Hsi); simpl_bind.
    destruct (EncoderBlock_init_Ok (p ++ [2 + 2 * i]) (ci * n_channels) (cm * n_channels) s)
      as (r0 & r2 & r4 & c6 & _ & _ & _ & _ & Hblk).
    rewrite Hblk; simpl_bind.
    rewrite IH by lia; reflexivity.
Qed.

Lemma index_take {A} (l : list A) (k i : nat) :
  i < k → index (take k l) i = index l i.
Proof. intros Hi; unfold index; rewrite lookup_take_lt by exact Hi; reflexivity. Qed.

Lemma SoundStreamXLEncoder_blocks_take (p : path) (n_channels : nat)
    (c_mults strides : list nat) (k n i : nat) :
  i + n ≤ k →
  SoundStreamXLEncoder_blocks p n_channels c_mults (take k strides) i n
  = SoundStreamXLEncoder_blocks p n_channels c_mults strides i n.
Proof.
  revert i; induction n as [|n IH]; intros i Hk; [reflexivity|].
  rewrite !SoundStreamXLEncoder_blocks_S.
  rewrite index_take by lia.
  rewrite IH by lia; reflexivity.
Qed.

Lemma SoundStreamXLEncoder_blocks_causal_free (p : path) (n_channels : nat)
    (c_mults strides : list nat) (n i : nat) :
  i + n < length c_mults → i + n ≤ length strides →
  ∃ blocks, SoundStreamXLEncoder_blocks p n_channels c_mults strides i n = Ok blocks.
Proof.
  revert i; induction n as [|n IH]; intros i Hc Hs; [eexists; reflexivity|].
  rewrite SoundStreamXLEncoder_blocks_S.
  destruct (lookup_lt_is_Some_2 c_mults i ltac:(lia)) as [ci Hci].
  destruct (lookup_lt_is_Some_2 c_mults (i + 1) ltac:(lia)) as [cm Hcm].
  destruct (lookup_lt_is_Some_2 strides i ltac:(lia)) as [s Hsi].
  rewrite (proj2 (index_Ok _ _ _) Hci), (proj2 (index_Ok _ _ _) Hcm),
    (proj2 (index_Ok _ _ _) Hsi); simpl_bind.
  destruct (EncoderBlock_init_Ok (p ++ [2 + 2 * i]) (ci * n_channels) (cm * n_channels) s)
    as (r0 & r2 & r4 & c6 & _ & _ & _ & _ & Hblk).
  rewrite Hblk; simpl_bind.
  destruct (IH (S i) ltac:(lia) ltac:(lia)) as [rest ->]; simpl_bind.
  eexists; reflexivity.
Qed.

Lemma SoundStreamXLEncoder_init_is_Ok (p : path)
    (n_channels latent_dim n_io_channels : nat) (strides c_mults : list nat) :
  length c_mults ≤ length strides →
  is_Ok (SoundStreamXLEncoder_init p n_channels latent_dim n_io_channels
           strides c_mults).
Proof.
  assert (Hd : length (1 :: c_mults) - 1 = length c_mults) by (simpl; lia).
  intros Hlen; unfold SoundStreamXLEncoder_init.
  rewrite Hd.
  change (index (1 :: c_mults) 0) with (Ok (A:=nat) 1); simpl_bind.
  rewrite CausalConv1d_init_groups_1; simpl_bind.
  destruct (SoundStreamXLEncoder_blocks_causal_free p n_channels (1 :: c_mults) strides
              (length c_mults) 0) as [blocks ->]; [simpl; lia|lia|]; simpl_bind.
  destruct (lookup_lt_is_Some_2 (1 :: c_mults) (length c_mults) ltac:(simpl; lia))
    as [c_last Hlast].
  rewrite (proj2 (index_Ok _ _ _) Hlast); simpl_bind.
  rewrite CausalConv1d_init_groups_1; simpl_bind.
  eexists; reflexivity.
Qed.

(** X3: the stride list of the encoder.  The constructor reads one stride
    per channel multiplier: with fewer strides it raises [IndexError], and
    strides beyond the number of channel multipliers are ignored. *)
Theorem SoundStreamXLEncoder_init_strides (p : path)
    (n_channels latent_dim n_io_channels : nat) (strides c_mults : list nat) :
  (length strides < length c_mults →
   SoundStreamXLEncoder_init p n_channels latent_dim n_io_channels strides c_mults
   = Raise IndexError)
  ∧ (length c_mults ≤ length strides →
     is_Ok (SoundStreamXLEncoder_init p n_channels latent_dim n_io_channels
              strides c_mults))
  ∧ SoundStreamXLEncoder_init p n_channels latent_dim n_io_channels
      (take (length c_mults) strides) c_mults
    = SoundStreamXLEncoder_init p n_channels latent_dim n_io_channels strides c_mults.
Proof.
  assert (Hd : length (1 :: c_mults) - 1 = length c_mults) by (simpl; lia).
  split; [|split].
  - intros Hshort; unfold SoundStreamXLEncoder_init.
    rewrite Hd.
    change (index (1 :: c_mults) 0) with (Ok (A:=nat) 1); simpl_bind.
    rewrite CausalConv1d_init_groups_1; simpl_bind.
    rewrite SoundStreamXLEncoder_blocks_short; [reflexivity|lia|lia|simpl; lia].
  - apply SoundStreamXLEncoder_init_is_Ok.
  - unfold SoundStreamXLEncoder_init.
    rewrite Hd, SoundStreamXLEncoder_blocks_take by lia; reflexivity.
Qed.

(** ** Construction of the decoder *)

Lemma SoundStreamXLDecoder_blocks_is_Ok (p : path) (n_channels : nat)
    (c_mults strides : list nat) (i pos : nat) :
  i < length c_mults → i ≤ length strides →
  ∃ blocks, SoundStreamXLDecoder_blocks p n_channels c_mults strides i pos = Ok blocks.
Proof.
  revert pos; induction i as [|i IH]; intros pos Hc Hs; [eexists; reflexivity|].
  destruct (lookup_lt_is_Some_2 c_mults (S i) ltac:(lia)) as [ci Hci].
  destruct (lookup_lt_is_Some_2 c_mults i ltac:(lia)) as [cm Hcm].
  destruct (lookup_lt_is_Some_2 strides i ltac:(lia)) as [s Hsi].
  destruct (DecoderBlock_init_Ok (p ++ [pos]) (ci * n_channels) (cm * n_channels) s)
    as (t0 & r2 & r4 & r6 & _ & _ & _ & _ & Hblk).
  destruct (IH (pos + 2) ltac:(lia) ltac:(lia)) as (rest & Hrest).
  change (SoundStreamXLDecoder_blocks p n_channels c_mults strides (S i) pos)
    with (ci ← index c_mults (S i);
          co ← index c_mults i;
          s ← index strides i;
          blk ← DecoderBlock_init (p ++ [pos]) (ci * n_channels) (co * n_channels) s;
          rest ← SoundStreamXLDecoder_blocks p n_channels c_mults strides i (pos + 2);
          Ok (DecoderBlock_forward blk :: ELU :: rest)).
  rewrite (proj2 (index_Ok _ _ _) Hci), (proj2 (index_Ok _ _ _) Hcm),
    (proj2 (index_Ok _ _ _) Hsi); simpl_bind.
  rewrite Hblk; simpl_bind; rewrite Hrest; simpl_bind.
  eexists; reflexivity.
Qed.

Lemma SoundStreamXLDecoder_init_is_Ok (p : path)
    (n_channels latent_dim n_io_channels : nat) :
  is_Ok (SoundStreamXLDecoder_init p n_channels latent_dim n_io_channels).
Proof.
  destruct (SoundStreamXLDecoder_blocks_is_Ok p n_channels [1; 2; 4; 4; 8; 16]
              SoundStreamXLDecoder_strides 5 2) as (blocks & Hblocks);
    [simpl; lia|simpl; lia|].
  unfold SoundStreamXLDecoder_init.
  change (length [1; 2; 4; 4; 8; 16] - 1) with 5.
  change (index [1; 2; 4; 4; 8; 16] 5) with (Ok (A:=nat) 16).
  change (index [1; 2; 4; 4; 8; 16] 0) with (Ok (A:=nat) 1); simpl_bind.
  rewrite CausalConv1d_init_groups_1; simpl_bind.
  rewrite Hblocks; simpl_bind.
  rewrite CausalConv1d_init_groups_1; simpl_bind.
  eexists; reflexivity.
Qed.

(** ** The decoder *)

(** X4: the decoder multiplies the length by 640.  With positive channel
    counts it returns a result exactly for the non-empty inputs of
    [latent_dim] channels, of 640 times their length and with the channel
    count of the waveform; every other input raises [RuntimeError]. *)
Theorem SoundStreamXLDecoder_length (p : path) (n_channels latent_dim n_io_channels : nat) :
  1 ≤ n_channels → 1 ≤ latent_dim → 1 ≤ n_io_channels →
  ∃ dec,
    SoundStreamXLDecoder_init p n_channels latent_dim n_io_channels = Ok dec
    ∧ ∀ x,
        (channels x = latent_dim ∧ 1 ≤ steps x →
         ∃ y, SoundStreamXLDecoder_forward dec x = Ok y
              ∧ shape y = (batch x, n_io_channels, 640 * steps x))
        ∧ (¬ (channels x = latent_dim ∧ 1 ≤ steps x) →
           SoundStreamXLDecoder_forward dec x = Raise RuntimeError).
Proof.
  intros Hn _ Hio.
  destruct (SoundStreamXLDecoder_shape p n_channels latent_dim n_io_channels Hn Hio)
    as (dec & Hdec & Hds).
  exists dec; split; [exact Hdec|].
  intros x; split.
  - intros [Hc Ht]; destruct (Hds x Hc Ht) as (y & Hy & Hby & Hcy & Hsy & _).
    exists y; split; [exact Hy|].
    change (total_stride SoundStreamXLDecoder_strides) with 640 in Hsy.
    unfold shape; rewrite Hby, Hcy, Hsy; f_equal; lia.
  - intros Hx.
    destruct (SoundStreamXLDecoder_first_layer _ _ _ _ _ Hdec) as (c & rest & Hc & Hl).
    unfold SoundStreamXLDecoder_forward; rewrite Hl.
    apply Sequential_reject, (CausalConv1d_reject _ _ _ _ _ _ _ _ Hc Hx).
Qed.

(** ** Causality of the upsampling path *)

Lemma causal_up_of_causal (f : nn_Module) : causal f 1 → causal_up f 1.
Proof.
  intros Hf x x' y y' t t' Hagree Hy Hy' Hle.
  apply (Hf x x' y y' t t'); auto.
  rewrite Nat.div_1_r in Hle; lia.
Qed.

Lemma causal_up_cons (f : nn_Module) (fs : list nn_Module) (s1 s2 : nat) :
  causal_up f s1 → causal_up (Sequential fs) s2 →
  causal_up (Sequential (f :: fs)) (s1 * s2).
Proof.
  intros Hf Hfs x x' z z' t t'' Hagree Hz Hz' Hle; simpl in Hz, Hz'.
  bind_inv Hz y Hy.
  bind_inv Hz' y' Hy'.
  apply (Hfs y y' z z' (t'' `div` s2) t''); auto.
  apply (Hf x x' y y' t (t'' `div` s2)); auto.
  rewrite Nat.Div0.div_div, (Nat.mul_comm s2 s1); exact Hle.
Qed.

Lemma causal_up_nil : causal_up (Sequential []) 1.
Proof. apply causal_up_of_causal, causal_nil. Qed.

Lemma causal_up_app (fs gs : list nn_Module) (s1 s2 : nat) :
  causal_up (Sequential fs) s1 → causal_up (Sequential gs) s2 →
  causal_up (Sequential (fs ++ gs)) (s1 * s2).
Proof.
  intros Hf Hg x x' z z' t t'' Hagree Hz Hz' Hle.
  rewrite Sequential_app in Hz, Hz'.
  bind_inv Hz y Hy.
  bind_inv Hz' y' Hy'.
  apply (Hg y y' z z' (t'' `div` s2) t''); auto.
  apply (Hf x x' y y' t (t'' `div` s2)); auto.
  rewrite Nat.Div0.div_div, (Nat.mul_comm s2 s1); exact Hle.
Qed.

Lemma causal_up_ext (f : nn_Module) (s s' : nat) : s = s' → causal_up f s → causal_up f s'.
Proof. intros ->; auto. Qed.

Lemma transpose_channel_bound (g n m o i : nat) :
  1 ≤ g → n `mod` g = 0 → 1 ≤ m → o < m * g → i < n `div` g →
  o `div` m * (n `div` g) + i < n.
Proof.
  intros Hg Hmod Hm Ho Hi.
  pose proof (Nat.div_mod n g ltac:(lia)) as Hn; rewrite Hmod in Hn.
  set (q := n `div` g) in *.
  assert (Hlt : o `div` m < g) by (apply Nat.Div0.div_lt_upper_bound; nia).
  nia.
Qed.

Lemma CausalConvTranspose1d_upsampling (p : path) (in_c out_c k s op g d : nat)
    (mode : string) (m : CausalConvTranspose1d) :
  CausalConvTranspose1d_init p in_c out_c k s 0 op g d mode = Ok m →
  (0 < cct_causal_padding m)%Z →
  ∀ x x' y y' t t',
    agree_upto t x x' →
    CausalConvTranspose1d_forward m x = Ok y →
    CausalConvTranspose1d_forward m x' = Ok y' →
    t' `div` s ≤ t →
    steps y = steps x * s ∧ steps y' = steps x' * s ∧ agree_upto t' y y'.
Proof.
  intros Hm Hcp x x' y y' t t' (Hb & Hch & Ht & Ht' & Hdat) Hy Hy' Hle.
  assert (Hlen : ∀ u v, CausalConvTranspose1d_forward m u = Ok v →
                        steps v = steps u * s ∧ batch v = batch u
                        ∧ channels v = w_dim1 (ct_weight m) * g ∧ 1 ≤ s).
  { intros u v Hv.
    pose proof Hm as Hm'; unfold CausalConvTranspose1d_init in Hm'.
    bind_inv Hm' c Hc; injection Hm' as Hm'.
    apply nn_ConvTranspose1d_fields in Hc as (-> & -> & Hg & Hi & Ho).
    unfold CausalConvTranspose1d_forward in Hv; rewrite <- Hm' in Hv; simpl in Hv.
    bind_inv Hv z Hz.
    pose proof Hz as Hz'.
    unfold F_conv_transpose1d in Hz'; simpl in Hz'.
    destruct (decide _) as [Hok|] in Hz'; [|discriminate]; injection Hz' as Hz'.
    rewrite <- Hm' in Hm.
    destruct (CausalConvTranspose1d_trim _ _ _ _ _ _ _ _ _ _ _ u z Hm Hz)
      as (v' & Hv' & Hbv & Hcv & _ & _ & Hsv).
    { rewrite <- Hm' in Hcp; exact Hcp. }
    unfold CausalConvTranspose1d_forward in Hv'; simpl in Hv'.
    rewrite Hz in Hv'; simpl in Hv'; rewrite Hv' in Hv; injection Hv as <-.
    rewrite <- Hz' in Hbv, Hcv; simpl in Hbv, Hcv.
    rewrite <- Hm'; simpl.
    repeat split; try assumption; try tauto.
    clear - Hsv; nia. }
  destruct (Hlen x y Hy) as (Hsy & Hby & Hcy & Hs1).
  destruct (Hlen x' y' Hy') as (Hsy' & Hby' & Hcy' & _).
  split; [exact Hsy|]; split; [exact Hsy'|].
  assert (Hidx : t' < (t + 1) * s).
  { pose proof (Nat.mul_succ_div_gt t' s ltac:(lia)); nia. }
  split; [congruence|]; split; [congruence|].
  split; [rewrite Hsy; nia|]; split; [rewrite Hsy'; nia|].
  intros b o i Hbb Ho Hi.
  unfold CausalConvTranspose1d_init in Hm.
  bind_inv Hm c Hc; injection Hm as <-.
  apply nn_ConvTranspose1d_fields in Hc as (-> & -> & Hg & Hin & Hout).
  unfold CausalConvTranspose1d_forward in Hy, Hy'; simpl in Hy, Hy'.
  bind_inv Hy z Hz; injection Hy as <-.
  bind_inv Hy' z' Hz'; injection Hy' as <-.
  unfold F_conv_transpose1d in Hz, Hz'; simpl in Hz, Hz'.
  destruct (decide _) as [Hok|] in Hz; [|discriminate]; injection Hz as <-.
  destruct (decide _) as [Hok'|] in Hz'; [|discriminate]; injection Hz' as <-.
  simpl in *.
  destruct Hok as (_ & _ & _ & _ & _ & Hcx & _).
  f_equal; apply sumR_ext; intros ci Hci; apply sumR_ext; intros j Hj.
  set (u := (Z.of_nat i + Z.of_nat 0 - Z.of_nat j * Z.of_nat d)%Z).
  assert (Hq : (0 ≤ u)%Z → (u `div` Z.of_nat s ≤ Z.of_nat t)%Z).
  { intros Hu.
    assert (Hiu : (u ≤ Z.of_nat i)%Z).
    { unfold u; rewrite <- Nat2Z.inj_mul; clear; lia. }
    pose proof (Z.div_le_mono u (Z.of_nat i) (Z.of_nat s)
                  ltac:(clear - Hs1; lia) Hiu) as H1.
    rewrite <- Nat2Z.inj_div in H1.
    pose proof (Nat.Div0.div_le_mono i t' s Hi) as H2.
    clear - H1 H2 Hle; lia. }
  assert (Hge : (0 ≤ u)%Z → (0 ≤ u `div` Z.of_nat s)%Z).
  { intros Hu; apply Z.div_pos; clear - Hu Hs1; lia. }
  assert (Hchan : o `div` (out_c `div` g) * (in_c `div` g) + ci < channels x).
  { rewrite Hcx; apply transpose_channel_bound; auto.
    destruct (out_c `div` g); [simpl in Ho; lia|lia]. }
  clearbody u.
  destruct (decide (0 ≤ u ∧ u `mod` Z.of_nat s = 0
                    ∧ u `div` Z.of_nat s < Z.of_nat (steps x))%Z) as [Hin1|Hout1];
    destruct (decide (0 ≤ u ∧ u `mod` Z.of_nat s = 0
                      ∧ u `div` Z.of_nat s < Z.of_nat (steps x'))%Z) as [Hin2|Hout2].
  - f_equal; apply Hdat; [clear - Hbb Hby; lia|exact Hchan|].
    destruct Hin1 as (Hu & _ & _); specialize (Hq Hu); specialize (Hge Hu).
    clear - Hq Hge; lia.
  - exfalso; apply Hout2; destruct Hin1 as (Hu & Hmod & _).
    specialize (Hq Hu); repeat split; try assumption; clear - Hq Ht'; lia.
  - exfalso; apply Hout1; destruct Hin2 as (Hu & Hmod & _).
    specialize (Hq Hu); repeat split; try assumption; clear - Hq Ht; lia.
  - reflexivity.
Qed.

(** X5: the transposed convolution does not look ahead.  Without padding
    and with a positive causal padding, the causal transposed convolution
    of stride [s] returns [n * s] samples for [n] input frames, and its
    output at index [t'] is determined by the input frames up to
    [t' / s]. *)
Theorem CausalConvTranspose1d_causal (p : path) (in_c out_c k s op g d : nat)
    (mode : string) (m : CausalConvTranspose1d) :
  CausalConvTranspose1d_init p in_c out_c k s 0 op g d mode = Ok m →
  (0 < cct_causal_padding m)%Z →
  (∀ x y, CausalConvTranspose1d_forward m x = Ok y → steps y = steps x * s)
  ∧ causal_up (CausalConvTranspose1d_forward m) s.
Proof.
  intros Hm Hcp; split.
  - intros x y Hy.
    assert (Hself : agree_upto 0 x x ∨ steps x = 0).
    { destruct (steps x) eqn:E; [right; reflexivity|left].
      repeat split; rewrite ?E; lia. }
    destruct Hself as [Hself|E0].
    + destruct (CausalConvTranspose1d_upsampling _ _ _ _ _ _ _ _ _ _ Hm Hcp
                  x x y y 0 0 Hself Hy Hy) as (H & _); [|exact H].
      destruct s; [reflexivity|rewrite Nat.div_small by lia; lia].
    + exfalso.
      unfold CausalConvTranspose1d_forward in Hy.
      destruct (decide _) in Hy; [discriminate|].
      bind_inv Hy z Hz; unfold F_conv_transpose1d in Hz.
      destruct (decide _) as [Hok|] in Hz; [|discriminate].
      destruct Hok as (_ & _ & _ & _ & _ & _ & _ & Hn & _); lia.
  - intros x x' y y' t t' Hagree Hy Hy' Hle.
    apply (CausalConvTranspose1d_upsampling _ _ _ _ _ _ _ _ _ _ Hm Hcp
             x x' y y' t t' Hagree Hy Hy' Hle).
Qed.

(** *** [DecoderBlock] and the decoder *)

Lemma DecoderBlock_causal_up (p : path) (in_c out_c s : nat) (m : DecoderBlock) :
  DecoderBlock_init p in_c out_c s = Ok m → causal_up (DecoderBlock_forward m) s.
Proof.
  intros Hm.
  destruct (DecoderBlock_init_Ok p in_c out_c s)
    as (t0 & r2 & r4 & r6 & Ht0 & Hr2 & Hr4 & Hr6 & Hinit).
  rewrite Hinit in Hm; injection Hm as <-.
  unfold DecoderBlock_forward; simpl db_layers.
  assert (Hup : causal_up (CausalConvTranspose1d_forward t0) s).
  { intros x x' y y' t t' Hagree Hy Hy' Hle.
    assert (Hs : 1 ≤ s).
    { pose proof Ht0 as Ht0'; unfold CausalConvTranspose1d_init in Ht0'.
      bind_inv Ht0' c Hc; injection Ht0' as Ht0'.
      apply nn_ConvTranspose1d_fields in Hc as (-> & _).
      unfold CausalConvTranspose1d_forward in Hy; rewrite <- Ht0' in Hy; simpl in Hy.
      bind_inv Hy z Hz; unfold F_conv_transpose1d in Hz.
      destruct (decide _) as [Hok|] in Hz; [|discriminate].
      destruct Hok as (Hs & _); exact Hs. }
    assert (Hcp : (0 < cct_causal_padding t0)%Z).
    { pose proof Ht0 as Ht0'; unfold CausalConvTranspose1d_init in Ht0'.
      bind_inv Ht0' c Hc; injection Ht0' as Ht0'.
      apply nn_ConvTranspose1d_fields in Hc as (-> & _).
      rewrite <- Ht0'; simpl; clear - Hs; lia. }
    apply (CausalConvTranspose1d_upsampling _ _ _ _ _ _ _ _ _ _ Ht0 Hcp
             x x' y y' t t' Hagree Hy Hy' Hle). }
  eapply causal_up_ext;
    [|apply causal_up_cons; [exact Hup|];
      apply causal_up_of_causal;
      eapply causal_ext;
        [|apply causal_cons; [apply activation_causal|];
          apply causal_cons; [eapply ResidualUnit_causal; exact Hr2|];
          apply causal_cons; [apply activation_causal|];
          apply causal_cons; [eapply ResidualUnit_causal; exact Hr4|];
          apply causal_cons; [apply activation_causal|];
          apply causal_cons; [eapply ResidualUnit_causal; exact Hr6|];
          apply causal_nil]; reflexivity].
  lia.
Qed.

Lemma SoundStreamXLDecoder_blocks_causal_up (p : path) (n_channels : nat)
    (c_mults strides : list nat) (i pos : nat) (blocks : list nn_Module) :
  SoundStreamXLDecoder_blocks p n_channels c_mults strides i pos = Ok blocks →
  causal_up (Sequential blocks) (total_stride (take i strides)).
Proof.
  revert pos blocks; induction i as [|i IH]; intros pos blocks Hb.
  - injection Hb as <-; apply causal_up_nil.
  - change (SoundStreamXLDecoder_blocks p n_channels c_mults strides (S i) pos)
      with (ci ← index c_mults (S i);
            co ← index c_mults i;
            s ← index strides i;
            blk ← DecoderBlock_init (p ++ [pos]) (ci * n_channels) (co * n_channels) s;
            rest ← SoundStreamXLDecoder_blocks p n_channels c_mults strides i (pos + 2);
            Ok (DecoderBlock_forward blk :: ELU :: rest)) in Hb.
    bind_inv Hb ci Hci.
    bind_inv Hb co Hco.
    bind_inv Hb s Hs.
    bind_inv Hb blk Hblk.
    bind_inv Hb rest Hrest.
    injection Hb as <-.
    apply index_Ok in Hs.
    rewrite (take_S_r _ _ _ Hs), total_stride_snoc.
    eapply causal_up_ext;
      [|apply causal_up_cons; [eapply DecoderBlock_causal_up; exact Hblk|];
        apply causal_up_cons;
          [apply causal_up_of_causal, activation_causal|apply (IH _ _ Hrest)]].
    lia.
Qed.

Lemma SoundStreamXLDecoder_causal_up (p : path) (n_channels latent_dim n_io_channels : nat)
    (m : SoundStreamXLDecoder) :
  SoundStreamXLDecoder_init p n_channels latent_dim n_io_channels = Ok m →
  causal_up (SoundStreamXLDecoder_forward m) 640.
Proof.
  unfold SoundStreamXLDecoder_init; intros Hm.
  bind_inv Hm c_last Hlast.
  bind_inv Hm conv_in Hin.
  bind_inv Hm blocks Hblocks.
  bind_inv Hm c_first Hfirst.
  bind_inv Hm conv_out Hout.
  injection Hm as <-.
  apply SoundStreamXLDecoder_blocks_causal_up in Hblocks.
  unfold SoundStreamXLDecoder_forward; simpl dec_layers.
  eapply causal_up_ext;
    [|apply causal_up_cons;
        [apply causal_up_of_causal; eapply CausalConv1d_causal; exact Hin|];
      apply causal_up_cons; [apply causal_up_of_causal, activation_causal|];
      apply causal_up_app; [exact Hblocks|];
      apply causal_up_cons;
        [apply causal_up_of_causal; eapply CausalConv1d_causal; exact Hout
        |apply causal_up_nil]].
  reflexivity.
Qed.

(** X6: the decoder is causal.  Whenever two latent tensors agree on all
    frames up to [t], the waveforms that the decoder returns agree on every
    sample [t'] with [t' / 640 ≤ t], that is on the first [640 * (t + 1)]
    samples. *)
Theorem SoundStreamXLDecoder_causal (p : path) (n_channels latent_dim n_io_channels : nat)
    (m : SoundStreamXLDecoder) :
  SoundStreamXLDecoder_init p n_channels latent_dim n_io_channels = Ok m →
  ∀ x x' y y' t t',
    agree_upto t x x' →
    SoundStreamXLDecoder_forward m x = Ok y →
    SoundStreamXLDecoder_forward m x' = Ok y' →
    t' < 640 * (t + 1) →
    agree_upto t' y y'.
Proof.
  intros Hm x x' y y' t t' Hagree Hy Hy' Hlt.
  apply (SoundStreamXLDecoder_causal_up _ _ _ _ _ Hm x x' y y' t t'); auto.
  assert (t' `div` 640 < t + 1) by (apply Nat.Div0.div_lt_upper_bound; lia).
  lia.
Qed.

(** ** The composite codec *)

Lemma SoundStreamXL_init_Ok {I L : Type} (p : path)
    (vq : tensor → result (tensor * I * L))
    (n_io_channels n_feature_channels latent_dim : nat) :
  ∃ enc dec,
    SoundStreamXLEncoder_init (p ++ [0]) n_feature_channels latent_dim n_io_channels
      default_strides default_c_mults = Ok enc
    ∧ SoundStreamXLDecoder_init (p ++ [1]) n_feature_channels latent_dim n_io_channels
      = Ok dec
    ∧ SoundStreamXL_init p vq n_io_channels n_feature_channels latent_dim
      = Ok {| sx_encoder := enc; sx_decoder := dec; sx_quantizer := vq |}.
Proof.
  destruct (SoundStreamXLEncoder_init_is_Ok (p ++ [0]) n_feature_channels latent_dim
              n_io_channels default_strides default_c_mults) as (enc & Henc);
    [simpl; lia|].
  destruct (SoundStreamXLDecoder_init_is_Ok (p ++ [1]) n_feature_channels latent_dim
              n_io_channels) as (dec & Hdec).
  exists enc, dec; split; [exact Henc|]; split; [exact Hdec|].
  unfold SoundStreamXL_init; rewrite Henc; simpl_bind; rewrite Hdec; reflexivity.
Qed.

(** X7: the shape of the reconstruction.  With positive channel counts
    and a quantizer that returns a tensor of the shape of its input, the
    codec maps every non-empty input of [n_io_channels] channels and length
    [T] to a reconstruction of the same batch and channel sizes and of
    length [640 * ceil(T / 640)]: the shape of the input when [T] is a
    multiple of 640. *)
Theorem SoundStreamXL_forward_shape {I L : Type} (p : path)
    (vq : tensor → result (tensor * I * L))
    (n_io_channels n_feature_channels latent_dim : nat) :
  1 ≤ n_io_channels → 1 ≤ n_feature_channels → 1 ≤ latent_dim →
  (∀ z, channels z = latent_dim → 1 ≤ steps z →
     ∃ q i l, vq z = Ok (q, i, l) ∧ shape q = shape z) →
  ∃ m,
    SoundStreamXL_init p vq n_io_channels n_feature_channels latent_dim = Ok m
    ∧ ∀ x, channels x = n_io_channels → 1 ≤ steps x →
        ∃ y i l,
          SoundStreamXL_forward m x = Ok (y, i, l)
          ∧ shape y = (batch x, n_io_channels, 640 * ((steps x + 639) `div` 640))
          ∧ (Nat.divide 640 (steps x) → shape y = shape x).
Proof.
  intros Hio Hn Hl Hvq.
  destruct (SoundStreamXL_init_Ok p vq n_io_channels n_feature_channels latent_dim)
    as (enc & dec & Henc & Hdec & Hinit).
  eexists; split; [exact Hinit|].
  intros x Hc Ht.
  destruct (SoundStreamXLEncoder_shape (p ++ [0]) n_feature_channels latent_dim
              n_io_channels default_strides default_c_mults) as (enc' & Henc' & Hes);
    [simpl; lia|repeat constructor|exact Hn|exact Hl|repeat constructor|].
  rewrite Henc in Henc'; injection Henc' as <-.
  destruct (SoundStreamXLDecoder_shape (p ++ [1]) n_feature_channels latent_dim
              n_io_channels Hn Hio) as (dec' & Hdec' & Hds).
  rewrite Hdec in Hdec'; injection Hdec' as <-.
  destruct (Hes x Hc Ht) as (z & Hz & Hbz & Hcz & Hsz & Hz1).
  rewrite down_all_ceil in Hsz by (repeat constructor || exact Ht).
  change (total_stride (block_strides default_strides default_c_mults)) with 640 in Hsz.
  destruct (Hvq z Hcz Hz1) as (q & i & l & Hq & Hshape).
  unfold shape in Hshape; injection Hshape as Hbq Hcq Hsq.
  destruct (Hds q ltac:(congruence) ltac:(lia)) as (y & Hy & Hby & Hcy & Hsy & _).
  change (total_stride SoundStreamXLDecoder_strides) with 640 in Hsy.
  exists y, i, l.
  unfold SoundStreamXL_forward; simpl sx_encoder; simpl sx_quantizer; simpl sx_decoder.
  rewrite Hz; simpl_bind; rewrite Hq; simpl_bind; rewrite Hy; simpl_bind.
  split; [reflexivity|].
  assert (Hlen : steps y = 640 * ((steps x + 639) `div` 640)).
  { rewrite Hsy, Hsq, Hsz; replace (steps x + 640 - 1) with (steps x + 639) by lia; lia. }
  split.
  - unfold shape; rewrite Hby, Hbq, Hbz, Hcy, Hlen; reflexivity.
  - intros [k Hk]; unfold shape; rewrite Hby, Hbq, Hbz, Hcy, Hc, Hlen.
    f_equal; rewrite Hk; clear; lia.
Qed.

(** X8: the codec is causal when its quantizer is.  If the quantizer maps
    latent tensors that agree up to a frame to quantized tensors that agree
    up to that frame, then reconstructions of inputs that agree on all
    samples up to [t] agree on every sample [t'] whose frame starts at or
    before [t], [640 * (t' / 640) ≤ t]; in particular on every [t' ≤ t]. *)
Theorem SoundStreamXL_causal {I L : Type} (p : path)
    (vq : tensor → result (tensor * I * L))
    (n_io_channels n_feature_channels latent_dim : nat) (m : SoundStreamXL I L) :
  SoundStreamXL_init p vq n_io_channels n_feature_channels latent_dim = Ok m →
  (∀ z z' q q' i i' l l' f,
     agree_upto f z z' → vq z = Ok (q, i, l) → vq z' = Ok (q', i', l') →
     agree_upto f q q') →
  ∀ x x' y y' i i' l l' t t',
    agree_upto t x x' →
    SoundStreamXL_forward m x = Ok (y, i, l) →
    SoundStreamXL_forward m x' = Ok (y', i', l') →
    640 * (t' `div` 640) ≤ t →
    agree_upto t' y y'.
Proof.
  intros Hm Hvq x x' y y' i i' l l' t t' Hagree Hy Hy' Hle.
  destruct (SoundStreamXL_init_Ok p vq n_io_channels n_feature_channels latent_dim)
    as (enc & dec & Henc & Hdec & Hinit).
  rewrite Hinit in Hm; injection Hm as <-.
  unfold SoundStreamXL_forward in Hy, Hy'; simpl in Hy, Hy'.
  bind_inv Hy z Hz. bind_inv Hy r Hr. destruct r as [[q iq] lq].
  bind_inv Hy w Hw. injection Hy as -> -> ->.
  bind_inv Hy' z' Hz'. bind_inv Hy' r' Hr'. destruct r' as [[q' iq'] lq'].
  bind_inv Hy' w' Hw'. injection Hy' as -> -> ->.
  pose proof (SoundStreamXLEncoder_causal _ _ _ _ _ _ _ Henc) as Hcausal.
  change (total_stride (block_strides default_strides default_c_mults)) with 640
    in Hcausal.
  assert (Hzz : agree_upto (t' `div` 640) z z').
  { apply (Hcausal x x' z z' t (t' `div` 640)); auto; lia. }
  assert (Hqq : agree_upto (t' `div` 640) q q').
  { apply (Hvq z z' q q' i i' l l' _ Hzz Hr Hr'). }
  apply (SoundStreamXLDecoder_causal_up _ _ _ _ _ Hdec q q' y y' (t' `div` 640) t');
    auto.
Qed.

(** ** The trimming of the transposed convolution *)

(** X9: a negative causal padding.  When the stride exceeds
    [dilation * (kernel_size - 1) + output_padding + 1], the slice
    [[..., :-causal_padding]] has a positive stop: the forward pass keeps
    the first [- causal_padding] samples of the transposed convolution, or
    all of them if there are fewer, instead of removing any. *)
Theorem CausalConvTranspose1d_negative_causal_padding (p : path)
    (in_c out_c k s pad op g d : nat) (mode : string)
    (m : CausalConvTranspose1d) (x y : tensor) :
  CausalConvTranspose1d_init p in_c out_c k s pad op g d mode = Ok m →
  (cct_causal_padding m < 0)%Z →
  CausalConvTranspose1d_forward m x = Ok y →
  cct_causal_padding m
  = (Z.of_nat d * (Z.of_nat k - 1) + Z.of_nat op + 1 - Z.of_nat s)%Z
  ∧ ∃ z, F_conv_transpose1d x (ct_weight m) (ct_bias m) (ct_stride m) (ct_padding m)
           (ct_output_padding m) (ct_groups m) (ct_dilation m) = Ok z
         ∧ data y = data z
         ∧ Z.of_nat (steps y) = Z.min (- cct_causal_padding m) (Z.of_nat (steps z))
         ∧ (pad = 0 →
            (Z.of_nat (steps z) = Z.of_nat (steps x * s) + cct_causal_padding m)%Z).
Proof.
  unfold CausalConvTranspose1d_init; intros Hm Hcp Hy.
  bind_inv Hm c Hc; injection Hm as <-.
  apply nn_ConvTranspose1d_fields in Hc as (-> & -> & Hg & Hi & Ho).
  unfold CausalConvTranspose1d_forward, _output_padding in Hy; simpl in *.
  bind_inv Hy z Hz; injection Hy as <-.
  split; [reflexivity|].
  exists z; split; [exact Hz|]; split; [reflexivity|].
  unfold F_conv_transpose1d in Hz.
  destruct (decide _) as [Hok|] in Hz; [|discriminate]; injection Hz as <-.
  simpl in *; split.
  - unfold slice_stop; rewrite decide_False by (clear - Hcp; lia); clear - Hcp; lia.
  - intros ->; destruct Hok as (_ & _ & _ & _ & _ & _ & _ & _ & Hlen).
    clear - Hlen; nia.
Qed.

(** * [get_padding] *)

(** X10: the padding of [get_padding] is 'same' padding exactly for an
    even [(kernel_size - 1) * dilation].  In each of the three modes both
    paddings are non-negative and their sum is
    [(kernel_size - 1) * dilation], plus one when that number is odd; a
    convolution of stride 1, with a weight of at least one output and one
    input channel, on an input padded by them returns the length of the
    input, plus one in the odd case. *)
Theorem get_padding_same (k d : nat) (mode : string) (p_left p_right : Z)
    (w : weight_t) (bias : nat → R) (x : tensor) :
  1 ≤ k → 1 ≤ d →
  get_padding (Z.of_nat k) (Z.of_nat d) mode = inr (p_left, p_right) →
  w_k w = k → 1 ≤ w_dim0 w → 1 ≤ w_dim1 w →
  channels x = w_dim1 w → 1 ≤ steps x →
  (0 ≤ p_left)%Z ∧ (0 ≤ p_right)%Z
  ∧ (p_left + p_right)%Z = Z.of_nat ((k - 1) * d + ((k - 1) * d) `mod` 2)
  ∧ ∃ xp y,
      F_pad x p_left p_right = Ok xp
      ∧ F_conv1d xp w bias 1 0 d 1 = Ok y
      ∧ steps y = steps x + ((k - 1) * d) `mod` 2.
Proof.
  intros Hk Hd Hpad Hwk Hw0 _ Hc Ht.
  set (e := (k - 1) * d) in *.
  assert (Hsum : (0 ≤ p_left)%Z ∧ (0 ≤ p_right)%Z
                 ∧ (p_left + p_right)%Z = Z.of_nat (e + e `mod` 2)).
  { unfold get_padding in Hpad.
    destruct (decide (Z.of_nat k = 1%Z)) as [Hk1|Hk1].
    - injection Hpad as <- <-.
      assert (e = 0) by (unfold e; replace k with 1 by lia; reflexivity).
      subst e; rewrite H; simpl; lia.
    - assert (He : ((Z.of_nat k - 1) * Z.of_nat d + 1)%Z = Z.of_nat (e + 1)).
      { unfold e; clear - Hk; nia. }
      rewrite He in Hpad; clearbody e; clear - Hpad.
      repeat (destruct (decide _) in Hpad); try discriminate Hpad;
        injection Hpad as <- <-; lia. }
  destruct Hsum as (Hl & Hr & Hsum).
  split; [exact Hl|]; split; [exact Hr|]; split; [exact Hsum|].
  unfold F_pad.
  rewrite decide_False by (clear - Hl Hr; lia).
  eexists; eexists; split; [reflexivity|].
  assert (He : d * (k - 1) = e) by (unfold e; lia).
  unfold F_conv1d; rewrite Hwk; simpl.
  rewrite He; clearbody e.
  rewrite decide_True.
  - split; [reflexivity|]; simpl.
    rewrite Nat.div_1_r; clear - Hl Hr Hsum Ht; lia.
  - split; [lia|]; split; [exact Hd|]; split; [lia|]; split; [exact Hk|].
    split; [lia|]; split; [apply Nat.mod_1_r|].
    split; [clear - Hl Hr Hsum Ht; lia|exact Hw0].
Qed.

(** * [WaveDiscriminator.forward] *)

Lemma WaveDiscriminator_downsampler_inv (div_by : R → nat → R) (x y : tensor) :
  WaveDiscriminator_downsampler div_by x = Ok y →
  2 ≤ steps x ∧ batch y = batch x ∧ channels y = channels x
  ∧ steps y = steps x `div` 2.
Proof.
  unfold WaveDiscriminator_downsampler, AvgPool1d.
  destruct (decide _) as [Hok|]; [|discriminate].
  intros [= <-]; simpl.
  destruct Hok as (_ & _ & _ & _ & Hlen).
  repeat split; clear - Hlen; lia.
Qed.

Lemma WaveDiscriminator_downsampler_Ok (div_by : R → nat → R) (x : tensor) :
  2 ≤ steps x → is_Ok (WaveDiscriminator_downsampler div_by x).
Proof.
  intros Hlen; unfold WaveDiscriminator_downsampler, AvgPool1d.
  rewrite decide_True by (clear - Hlen; lia).
  eexists; reflexivity.
Qed.

(** Every sub-discriminator of a constructed bank comes from the
    constructor of the block. *)
Lemma WaveDiscriminator_model_blocks (p : path) (df : Z) (n i : nat)
    (acc mdl : gmap string WaveDiscriminatorBlock) :
  WaveDiscriminator_model p df i n acc = Ok mdl →
  (∀ key b, acc !! key = Some b → ∃ q, WaveDiscriminatorBlock_init q = Ok b) →
  ∀ key b, mdl !! key = Some b → ∃ q, WaveDiscriminatorBlock_init q = Ok b.
Proof.
  revert i acc; induction n as [|n IH]; intros i acc Hmdl Hacc.
  - injection Hmdl as <-; exact Hacc.
  - cbn [WaveDiscriminator_model] in Hmdl.
    bind_inv Hmdl blk Hblk.
    apply (IH _ _ Hmdl).
    intros key b Hb.
    destruct (decide (disc_key df i = key)) as [Heq|Hne].
    + subst key; rewrite lookup_insert_eq in Hb; injection Hb as <-; eauto.
    + rewrite lookup_insert_ne in Hb by exact Hne; eauto.
Qed.

Lemma WaveDiscriminator_init_blocks (p : path) (n : nat) (df : Z) (m : WaveDiscriminator) :
  WaveDiscriminator_init p n df = Ok m →
  num_D m = n ∧ downsampling_factor m = df
  ∧ (∀ key b, model m !! key = Some b → ∃ q, WaveDiscriminatorBlock_init q = Ok b)
  ∧ (∀ j, j < n → is_Some (model m !! disc_key df j)).
Proof.
  intros Hm.
  destruct (WaveDiscriminator_init_Ok p n df) as (m' & Hm' & Hn & Hd & Hkeys).
  rewrite Hm in Hm'; injection Hm' as <-.
  split; [exact Hn|]; split; [exact Hd|]; split; [|exact Hkeys].
  unfold WaveDiscriminator_init in Hm.
  bind_inv Hm mdl Hmdl; injection Hm as <-; simpl.
  apply (WaveDiscriminator_model_blocks _ _ _ _ _ _ Hmdl).
  intros key b Hb; rewrite lookup_empty in Hb; discriminate.
Qed.

Lemma WaveDiscriminatorBlock_forward_lengths (q : path) (blk : WaveDiscriminatorBlock)
    (x : tensor) (fm : list tensor) :
  WaveDiscriminatorBlock_init q = Ok blk →
  WaveDiscriminatorBlock_forward blk x = Ok fm →
  feature_lengths fm
  = WaveDiscriminatorBlock_features_lengths blk [Z.of_nat (steps x)].
Proof.
  intros Hblk Hfm.
  destruct (WaveDiscriminatorBlock_forward_inv q blk x fm Hblk Hfm) as (_ & Hlen & Hsteps).
  unfold WaveDiscriminatorBlock_features_lengths, feature_lengths.
  rewrite !torch_div_floor_add; cbn [fmap list_fmap].
  destruct fm as [|y0 [|y1 [|y2 [|y3 [|y4 [|y5 [|y6 [|y7 fm]]]]]]]];
    try discriminate Hsteps.
  cbn [fmap list_fmap] in Hsteps |- *.
  injection Hsteps as -> -> -> -> -> -> ->.
  clear; repeat f_equal; lia.
Qed.

Lemma getitem_Ok {A} (d : gmap string A) (key : string) (a : A) :
  getitem d key = Ok a → d !! key = Some a.
Proof. unfold getitem; destruct (d !! key); congruence. Qed.

Lemma torch_div_floor_pow2 (L i : nat) :
  torch_div_floor [Z.of_nat L] (2 ^ Z.of_nat i) = [Z.of_nat (L `div` 2 ^ i)].
Proof.
  unfold torch_div_floor; cbn [fmap list_fmap].
  rewrite Nat2Z.inj_div, Nat2Z.inj_pow; reflexivity.
Qed.

(** The loop of [forward] and the loop of [features_lengths], side by
    side: the input of scale [i] has length [L `div` 2 ^ i]. *)
Lemma WaveDiscriminator_forward_from_lengths (div_by : R → nat → R)
    (m : WaveDiscriminator) (L n i : nat)
    (results res : gmap string (list tensor)) (x : tensor) :
  (∀ key b, model m !! key = Some b → ∃ q, WaveDiscriminatorBlock_init q = Ok b) →
  steps x = L `div` 2 ^ i →
  WaveDiscriminator_forward_from div_by m i n results x = Ok res →
  WaveDiscriminator_features_lengths_from m [Z.of_nat L] i n (feature_lengths <$> results)
  = Ok (feature_lengths <$> res).
Proof.
  intros Hblocks; revert i results x; induction n as [|n IH]; intros i results x Hx Hres.
  - injection Hres as <-; reflexivity.
  - cbn [WaveDiscriminator_forward_from] in Hres.
    bind_inv Hres disc Hdisc.
    bind_inv Hres fm Hfm.
    bind_inv Hres x' Hx'.
    cbn [WaveDiscriminator_features_lengths_from].
    rewrite Hdisc; simpl_bind.
    destruct (Hblocks _ _ (getitem_Ok _ _ _ Hdisc)) as [q Hq].
    rewrite torch_div_floor_pow2, <- Hx.
    rewrite <- (WaveDiscriminatorBlock_forward_lengths q disc x fm Hq Hfm).
    rewrite <- fmap_insert.
    apply (IH (S i) _ x'); [|exact Hres].
    destruct (WaveDiscriminator_downsampler_inv _ _ _ Hx') as (_ & _ & _ & ->).
    rewrite Hx, Nat.Div0.div_div, Nat.pow_succ_r', (Nat.mul_comm 2); reflexivity.
Qed.

(** X11: [forward] and [features_lengths] agree.  Whenever [forward]
    returns its dictionary of feature maps for an input of length [L], the
    lengths of the feature maps are, key by key, what [features_lengths]
    returns for [L]: after [i] average poolings the input has
    [floor(L / 2^i)] samples. *)
Theorem WaveDiscriminator_forward_lengths (div_by : R → nat → R) (p : path) (n : nat)
    (df : Z) (m : WaveDiscriminator) (x : tensor)
    (results : gmap string (list tensor)) :
  WaveDiscriminator_init p n df = Ok m →
  WaveDiscriminator_forward div_by m x = Ok results →
  WaveDiscriminator_features_lengths m [Z.of_nat (steps x)]
  = Ok (feature_lengths <$> results).
Proof.
  intros Hm Hres.
  destruct (WaveDiscriminator_init_blocks _ _ _ _ Hm) as (_ & _ & Hblocks & _).
  unfold WaveDiscriminator_forward in Hres; unfold WaveDiscriminator_features_lengths.
  rewrite <- (fmap_empty feature_lengths).
  apply (WaveDiscriminator_forward_from_lengths div_by m (steps x) (num_D m) 0 ∅
           results x Hblocks); [|exact Hres].
  simpl; rewrite Nat.div_1_r; reflexivity.
Qed.

Lemma WaveDiscriminator_forward_from_Ok (div_by : R → nat → R)
    (m : WaveDiscriminator) (n i : nat)
    (results : gmap string (list tensor)) (x : tensor) :
  (∀ key b, model m !! key = Some b → ∃ q, WaveDiscriminatorBlock_init q = Ok b) →
  (∀ j, i ≤ j < i + S n → is_Some (model m !! disc_key (downsampling_factor m) j)) →
  channels x = 1 → 8 * 2 ^ n ≤ steps x →
  is_Ok (WaveDiscriminator_forward_from div_by m i (S n) results x).
Proof.
  intros Hblocks; revert i results x; induction n as [|n IH];
    intros i results x Hkeys Hc Ht.
  - destruct (Hkeys i ltac:(lia)) as [disc Hdisc].
    destruct (Hblocks _ _ Hdisc) as [q Hq].
    destruct (WaveDiscriminatorBlock_forward_Ok q disc x Hq Hc) as [fm Hfm];
      [simpl in Ht; lia|].
    destruct (WaveDiscriminator_downsampler_Ok div_by x) as [x' Hx'];
      [simpl in Ht; lia|].
    cbn [WaveDiscriminator_forward_from].
    rewrite (getitem_Some _ _ _ Hdisc); simpl_bind.
    rewrite Hfm; simpl_bind; rewrite Hx'; simpl_bind.
    eexists; reflexivity.
  - assert (Hpow : 2 ^ S n = 2 * 2 ^ n) by apply Nat.pow_succ_r'.
    assert (Hp1 : 1 ≤ 2 ^ n) by (clear; induction n; simpl; lia).
    destruct (Hkeys i ltac:(lia)) as [disc Hdisc].
    destruct (Hblocks _ _ Hdisc) as [q Hq].
    destruct (WaveDiscriminatorBlock_forward_Ok q disc x Hq Hc) as [fm Hfm];
      [clear - Ht Hpow Hp1; lia|].
    destruct (WaveDiscriminator_downsampler_Ok div_by x) as [x' Hx'];
      [clear - Ht Hpow Hp1; lia|].
    destruct (WaveDiscriminator_downsampler_inv _ _ _ Hx') as (_ & _ & Hcx' & Hsx').
    change (WaveDiscriminator_forward_from div_by m i (S (S n)) results x)
      with (disc ← getitem (model m) (disc_key (downsampling_factor m) i);
            fm ← WaveDiscriminatorBlock_forward disc x;
            x' ← WaveDiscriminator_downsampler div_by x;
            WaveDiscriminator_forward_from div_by m (S i) (S n)
              (<[disc_key (downsampling_factor m) i := fm]> results) x').
    rewrite (getitem_Some _ _ _ Hdisc); simpl_bind.
    rewrite Hfm; simpl_bind; rewrite Hx'; simpl_bind.
    apply IH.
    + intros j Hj; apply Hkeys; lia.
    + congruence.
    + rewrite Hsx'; clear - Ht Hpow; lia.
Qed.

Lemma WaveDiscriminator_forward_from_inv (div_by : R → nat → R)
    (m : WaveDiscriminator) (n i : nat)
    (results res : gmap string (list tensor)) (x : tensor) :
  (∀ key b, model m !! key = Some b → ∃ q, WaveDiscriminatorBlock_init q = Ok b) →
  WaveDiscriminator_forward_from div_by m i (S n) results x = Ok res →
  channels x = 1 ∧ 8 * 2 ^ n ≤ steps x.
Proof.
  intros Hblocks; revert i results x; induction n as [|n IH]; intros i results x Hres.
  - cbn [WaveDiscriminator_forward_from] in Hres.
    bind_inv Hres disc Hdisc.
    bind_inv Hres fm Hfm.
    destruct (Hblocks _ _ (getitem_Ok _ _ _ Hdisc)) as [q Hq].
    destruct (WaveDiscriminatorBlock_forward_inv q disc x fm Hq Hfm) as (Hc & Ht & _).
    split; [exact Hc|simpl; lia].
  - change (WaveDiscriminator_forward_from div_by m i (S (S n)) results x)
      with (disc ← getitem (model m) (disc_key (downsampling_factor m) i);
            fm ← WaveDiscriminatorBlock_forward disc x;
            x' ← WaveDiscriminator_downsampler div_by x;
            WaveDiscriminator_forward_from div_by m (S i) (S n)
              (<[disc_key (downsampling_factor m) i := fm]> results) x') in Hres.
    bind_inv Hres disc Hdisc.
    bind_inv Hres fm Hfm.
    bind_inv Hres x' Hx'.
    destruct (Hblocks _ _ (getitem_Ok _ _ _ Hdisc)) as [q Hq].
    destruct (WaveDiscriminatorBlock_forward_inv q disc x fm Hq Hfm) as (Hc & _ & _).
    destruct (IH _ _ _ Hres) as (_ & Ht').
    destruct (WaveDiscriminator_downsampler_inv _ _ _ Hx') as (_ & _ & _ & Hsx').
    split; [exact Hc|].
    assert (Hpow : 2 ^ S n = 2 * 2 ^ n) by apply Nat.pow_succ_r'.
    rewrite Hsx' in Ht'; clear - Ht' Hpow; lia.
Qed.

Lemma WaveDiscriminator_forward_Ok (div_by : R → nat → R) (p : path) (n : nat)
    (df : Z) (m : WaveDiscriminator) (x : tensor) :
  WaveDiscriminator_init p (S n) df = Ok m →
  channels x = 1 → 8 * 2 ^ n ≤ steps x →
  is_Ok (WaveDiscriminator_forward div_by m x).
Proof.
  intros Hm Hc Ht.
  destruct (WaveDiscriminator_init_blocks _ _ _ _ Hm) as (Hn & Hd & Hblocks & Hkeys).
  unfold WaveDiscriminator_forward; rewrite Hn.
  apply WaveDiscriminator_forward_from_Ok; auto.
  rewrite Hd; intros j Hj; apply Hkeys; lia.
Qed.

(** X12: the inputs that the bank of discriminators accepts.  With at
    least one scale, [forward] returns a result exactly for the
    single-channel inputs with at least [8 * 2^(num_D - 1)] samples, so
    that the last scale still receives 8 samples; without any scale it
    returns the empty dictionary. *)
Theorem WaveDiscriminator_forward_domain (div_by : R → nat → R) (p : path) (n : nat)
    (df : Z) (x : tensor) :
  (∃ m, WaveDiscriminator_init p (S n) df = Ok m
        ∧ (is_Ok (WaveDiscriminator_forward div_by m x)
           ↔ channels x = 1 ∧ 8 * 2 ^ n ≤ steps x))
  ∧ (∃ m, WaveDiscriminator_init p 0 df = Ok m
          ∧ WaveDiscriminator_forward div_by m x = Ok ∅).
Proof.
  split.
  - destruct (WaveDiscriminator_init_Ok p (S n) df) as (m & Hm & _).
    destruct (WaveDiscriminator_init_blocks _ _ _ _ Hm) as (Hn & Hd & Hblocks & Hkeys).
    exists m; split; [exact Hm|].
    unfold WaveDiscriminator_forward; rewrite Hn; split.
    + intros [res Hres].
      apply (WaveDiscriminator_forward_from_inv div_by m n 0 ∅ res x Hblocks Hres).
    + intros [Hc Ht].
      apply WaveDiscriminator_forward_from_Ok; auto.
      rewrite Hd; intros j Hj; apply Hkeys; lia.
  - destruct (WaveDiscriminator_init_Ok p 0 df) as (m & Hm & Hn & _).
    exists m; split; [exact Hm|].
    unfold WaveDiscriminator_forward; rewrite Hn; reflexivity.
Qed.

(** * The STFT-based discriminator *)

Lemma nn_Conv2d_inv (p : path) (in_c out_c : nat) (k s : nat * nat)
    (pad : conv_padding) (m : Conv2d) :
  nn_Conv2d p in_c out_c k s pad = Ok m →
  c2_stride m = s ∧ c2_padding m = pad
  ∧ w4_out (c2_weight m) = out_c ∧ w4_in (c2_weight m) = in_c
  ∧ w4_kh (c2_weight m) = k.1 ∧ w4_kw (c2_weight m) = k.2.
Proof.
  unfold nn_Conv2d; destruct (decide _); [discriminate|].
  intros [= <-]; simpl; repeat split; reflexivity.
Qed.

Lemma nn_Conv2d_Ok (p : path) (in_c out_c : nat) (k s : nat * nat) (ph pw : nat) :
  is_Ok (nn_Conv2d p in_c out_c k s (Padding ph pw)).
Proof.
  unfold nn_Conv2d; rewrite decide_False; [eexists; reflexivity|].
  simpl; intros [? _]; discriminate.
Qed.

Lemma nn_Conv2d_same_Ok (p : path) (in_c out_c : nat) (k : nat * nat) :
  is_Ok (nn_Conv2d p in_c out_c k (1, 1) Same).
Proof.
  unfold nn_Conv2d; rewrite decide_False; [eexists; reflexivity|].
  intros [_ H]; apply H; reflexivity.
Qed.

(** A convolution with explicit padding. *)
Lemma Conv2d_forward_inv (p : path) (in_c out_c kh kw sh sw ph pw : nat)
    (m : Conv2d) (x y : tensor4) :
  nn_Conv2d p in_c out_c (kh, kw) (sh, sw) (Padding ph pw) = Ok m →
  Conv2d_forward m x = Ok y →
  channels4 x = in_c ∧ kh ≤ height x + 2 * ph ∧ kw ≤ width x + 2 * pw
  ∧ batch4 y = batch4 x ∧ channels4 y = out_c
  ∧ height y = (height x + 2 * ph - kh) `div` sh + 1
  ∧ width y = (width x + 2 * pw - kw) `div` sw + 1.
Proof.
  intros Hm Hy.
  apply nn_Conv2d_inv in Hm as (Hs & Hpad & Ho & Hi & Hkh & Hkw).
  unfold Conv2d_forward, F_conv2d in Hy.
  rewrite Hs, Hpad, Ho, Hi, Hkh, Hkw in Hy; simpl in Hy.
  destruct (decide _) as [Hok|] in Hy; [|discriminate]; injection Hy as <-.
  destruct Hok as (_ & _ & _ & _ & _ & Hc & Hh & Hw); simpl.
  split; [exact Hc|].
  split; [clear - Hh; lia|]; split; [clear - Hw; lia|].
  split; [reflexivity|]; split; [reflexivity|].
  split; f_equal; f_equal; lia.
Qed.

Lemma Conv2d_forward_Ok (p : path) (in_c out_c kh kw sh sw ph pw : nat)
    (m : Conv2d) (x : tensor4) :
  nn_Conv2d p in_c out_c (kh, kw) (sh, sw) (Padding ph pw) = Ok m →
  1 ≤ kh → 1 ≤ kw → 1 ≤ sh → 1 ≤ sw → 1 ≤ out_c →
  channels4 x = in_c → kh ≤ height x + 2 * ph → kw ≤ width x + 2 * pw →
  is_Ok (Conv2d_forward m x).
Proof.
  intros Hm Hkh1 Hkw1 Hsh Hsw Ho1 Hc Hh Hw.
  apply nn_Conv2d_inv in Hm as (Hs & Hpad & Ho & Hi & Hkh & Hkw).
  unfold Conv2d_forward, F_conv2d.
  rewrite Hs, Hpad, Ho, Hi, Hkh, Hkw; simpl.
  rewrite decide_True; [eexists; reflexivity|].
  repeat split; try assumption; lia.
Qed.

(** The 3 x 3 convolution with padding ["same"] keeps height and width. *)
Lemma Conv2d_same_inv (p : path) (in_c out_c : nat) (m : Conv2d) (x y : tensor4) :
  nn_Conv2d p in_c out_c (3, 3) (1, 1) Same = Ok m →
  Conv2d_forward m x = Ok y →
  channels4 x = in_c ∧ 1 ≤ height x ∧ 1 ≤ width x
  ∧ batch4 y = batch4 x ∧ channels4 y = out_c
  ∧ height y = height x ∧ width y = width x.
Proof.
  intros Hm Hy.
  apply nn_Conv2d_inv in Hm as (Hs & Hpad & Ho & Hi & Hkh & Hkw).
  unfold Conv2d_forward, F_conv2d in Hy.
  rewrite Hs, Hpad, Ho, Hi, Hkh, Hkw in Hy; simpl in Hy.
  change ((3 - 1) `div` 2) with 1 in Hy.
  destruct (decide _) as [Hok|] in Hy; [|discriminate]; injection Hy as <-.
  destruct Hok as (_ & _ & _ & _ & _ & Hc & Hh & Hw); simpl.
  rewrite !Nat.div_1_r.
  repeat split; try assumption; try reflexivity; lia.
Qed.

Lemma Conv2d_same_Ok (p : path) (in_c out_c : nat) (m : Conv2d) (x : tensor4) :
  nn_Conv2d p in_c out_c (3, 3) (1, 1) Same = Ok m →
  1 ≤ out_c → channels4 x = in_c → 1 ≤ height x → 1 ≤ width x →
  is_Ok (Conv2d_forward m x).
Proof.
  intros Hm Ho1 Hc Hh Hw.
  apply nn_Conv2d_inv in Hm as (Hs & Hpad & Ho & Hi & Hkh & Hkw).
  unfold Conv2d_forward, F_conv2d.
  rewrite Hs, Hpad, Ho, Hi, Hkh, Hkw; simpl.
  change ((3 - 1) `div` 2) with 1.
  rewrite decide_True; [eexists; reflexivity|].
  repeat split; try assumption; lia.
Qed.

(** ** [ResidualUnit2d] *)

Lemma ResidualUnit2d_init_Ok (p : path) (in_c N m st sf : nat) :
  ∃ c0 c2 skip,
    nn_Conv2d (p ++ [0; 0]) in_c N (3, 3) (1, 1) Same = Ok c0
    ∧ nn_Conv2d (p ++ [0; 2]) N (m * N) (sf + 2, st + 2) (sf, st) (Padding 0 0) = Ok c2
    ∧ nn_Conv2d (p ++ [1]) in_c (m * N) (1, 1) (sf, st) (Padding 0 0) = Ok skip
    ∧ ResidualUnit2d_init p in_c N m st sf
      = Ok {| s_t := st; s_f := sf;
              ru2_layers := [Conv2d_forward c0; ELU4; Conv2d_forward c2];
              skip_connection := skip |}.
Proof.
  destruct (nn_Conv2d_same_Ok (p ++ [0; 0]) in_c N (3, 3)) as [c0 H0].
  destruct (nn_Conv2d_Ok (p ++ [0; 2]) N (m * N) (sf + 2, st + 2) (sf, st) 0 0) as [c2 H2].
  destruct (nn_Conv2d_Ok (p ++ [1]) in_c (m * N) (1, 1) (sf, st) 0 0) as [skip Hsk].
  exists c0, c2, skip; unfold ResidualUnit2d_init.
  rewrite H0, H2, Hsk; simpl_bind; auto.
Qed.

Lemma bdim_same (a : nat) : bdim a a = Ok a.
Proof. unfold bdim; rewrite decide_True; reflexivity. Qed.

(** The unit divides the height by [s_f] and the width by [s_t], rounding
    up; the two branches of the sum have the same shape. *)
Lemma ResidualUnit2d_forward_inv (p : path) (in_c N m st sf : nat)
    (u : ResidualUnit2d) (x y : tensor4) :
  ResidualUnit2d_init p in_c N m st sf = Ok u →
  ResidualUnit2d_forward u x = Ok y →
  channels4 x = in_c ∧ 1 ≤ height x ∧ 1 ≤ width x
  ∧ batch4 y = batch4 x ∧ channels4 y = m * N
  ∧ height y = down sf (height x) ∧ width y = down st (width x).
Proof.
  destruct (ResidualUnit2d_init_Ok p in_c N m st sf)
    as (c0 & c2 & skip & H0 & H2 & Hsk & ->).
  intros [= <-] Hy.
  unfold ResidualUnit2d_forward in Hy.
  cbn [ru2_layers s_t s_f skip_connection Sequential4] in Hy.
  bind_inv Hy y2 Hy2.
  bind_inv Hy2 y0 Hy0.
  bind_inv Hy2 e He; unfold ELU4 in He; injection He as <-.
  bind_inv Hy2 y2' Hy2'; injection Hy2 as ->.
  rename Hy2' into Hy2.
  bind_inv Hy z Hz.
  apply (Conv2d_same_inv _ _ _ _ _ _ H0) in Hy0
    as (Hc & _ & _ & Hb0 & Hc0 & Hh0 & Hw0); simpl in Hc, Hb0, Hh0, Hw0.
  apply (Conv2d_forward_inv _ _ _ _ _ _ _ _ _ _ _ _ H2) in Hy2
    as (_ & _ & _ & Hb2 & Hc2 & Hh2 & Hw2); simpl in Hb2, Hh2, Hw2.
  apply (Conv2d_forward_inv _ _ _ _ _ _ _ _ _ _ _ _ Hsk) in Hz
    as (_ & Hh & Hw & Hbz & Hcz & Hhz & Hwz).
  rewrite Hh0 in Hh2; rewrite Hw0 in Hw2; rewrite Hb0 in Hb2.
  assert (Eh : height y2 = down sf (height x)).
  { rewrite Hh2; unfold down; clear - Hh; f_equal; f_equal; lia. }
  assert (Ew : width y2 = down st (width x)).
  { rewrite Hw2; unfold down; clear - Hw; f_equal; f_equal; lia. }
  assert (Ehz : height z = down sf (height x)).
  { rewrite Hhz; unfold down; clear - Hh; f_equal; f_equal; lia. }
  assert (Ewz : width z = down st (width x)).
  { rewrite Hwz; unfold down; clear - Hw; f_equal; f_equal; lia. }
  unfold tensor4_add in Hy.
  rewrite Hb2, Hbz, Hc2, Hcz, Eh, Ehz, Ew, Ewz, !bdim_same in Hy.
  cbv beta iota delta [mbind result_bind] in Hy; injection Hy as <-; simpl.
  repeat split; try assumption; try reflexivity; lia.
Qed.

Lemma ResidualUnit2d_forward_Ok (p : path) (in_c N m st sf : nat)
    (u : ResidualUnit2d) (x : tensor4) :
  ResidualUnit2d_init p in_c N m st sf = Ok u →
  1 ≤ st → 1 ≤ sf → 1 ≤ N → 1 ≤ m →
  channels4 x = in_c → 1 ≤ height x → 1 ≤ width x →
  is_Ok (ResidualUnit2d_forward u x).
Proof.
  destruct (ResidualUnit2d_init_Ok p in_c N m st sf)
    as (c0 & c2 & skip & H0 & H2 & Hsk & ->).
  intros [= <-] Hst Hsf HN Hm Hc Hh Hw.
  assert (HmN : 1 ≤ m * N) by (clear - HN Hm; nia).
  unfold ResidualUnit2d_forward.
  cbn [ru2_layers s_t s_f skip_connection Sequential4].
  destruct (Conv2d_same_Ok _ _ _ c0 (F_pad4 x (st + 1) 0 (sf + 1) 0) H0 HN)
    as [y0 Hy0]; [exact Hc|simpl; lia..|].
  pose proof (Conv2d_same_inv _ _ _ _ _ _ H0 Hy0)
    as (_ & _ & _ & Hb0 & Hc0 & Hh0 & Hw0); simpl in Hb0, Hh0, Hw0.
  destruct (Conv2d_forward_Ok _ _ _ _ _ _ _ _ _ c2 (tensor4_map elu y0) H2)
    as [y2 Hy2]; [lia..|exact Hc0|simpl; rewrite Hh0; lia|simpl; rewrite Hw0; lia|].
  pose proof (Conv2d_forward_inv _ _ _ _ _ _ _ _ _ _ _ _ H2 Hy2)
    as (_ & _ & _ & Hb2 & Hc2 & Hh2 & Hw2); simpl in Hb2, Hh2, Hw2.
  destruct (Conv2d_forward_Ok _ _ _ _ _ _ _ _ _ skip x Hsk)
    as [z Hz]; [lia..|exact Hc|lia|lia|].
  pose proof (Conv2d_forward_inv _ _ _ _ _ _ _ _ _ _ _ _ Hsk Hz)
    as (_ & _ & _ & Hbz & Hcz & Hhz & Hwz).
  rewrite Hy0; simpl_bind; unfold ELU4 at 1; rewrite Hy2; simpl_bind.
  rewrite Hz; simpl_bind.
  rewrite Hh0 in Hh2; rewrite Hw0 in Hw2; rewrite Hb0 in Hb2.
  assert (Eh : height y2 = height z).
  { rewrite Hh2, Hhz; clear - Hh; f_equal; f_equal; lia. }
  assert (Ew : width y2 = width z).
  { rewrite Hw2, Hwz; clear - Hw; f_equal; f_equal; lia. }
  unfold tensor4_add.
  rewrite Hb2, Hbz, Hc2, Hcz, Eh, Ew, !bdim_same; simpl_bind.
  eexists; reflexivity.
Qed.

(** A residual unit followed by the activation. *)
Lemma unit_act_inv (p : path) (in_c N m st sf : nat)
    (u : ResidualUnit2d) (x y : tensor4) :
  ResidualUnit2d_init p in_c N m st sf = Ok u →
  Sequential4 [ResidualUnit2d_forward u; ELU4] x = Ok y →
  channels4 x = in_c ∧ 1 ≤ height x ∧ 1 ≤ width x
  ∧ batch4 y = batch4 x ∧ channels4 y = m * N
  ∧ height y = down sf (height x) ∧ width y = down st (width x).
Proof.
  intros Hu Hy; cbn [Sequential4] in Hy.
  bind_inv Hy z Hz; injection Hy as <-.
  exact (ResidualUnit2d_forward_inv _ _ _ _ _ _ _ _ _ Hu Hz).
Qed.

Lemma unit_act_Ok (p : path) (in_c N m st sf : nat)
    (u : ResidualUnit2d) (x : tensor4) :
  ResidualUnit2d_init p in_c N m st sf = Ok u →
  1 ≤ st → 1 ≤ sf → 1 ≤ N → 1 ≤ m →
  channels4 x = in_c → 1 ≤ height x → 1 ≤ width x →
  ∃ y, Sequential4 [ResidualUnit2d_forward u; ELU4] x = Ok y
       ∧ batch4 y = batch4 x ∧ channels4 y = m * N
       ∧ height y = down sf (height x) ∧ width y = down st (width x).
Proof.
  intros Hu Hst Hsf HN Hm Hc Hh Hw.
  destruct (ResidualUnit2d_forward_Ok _ _ _ _ _ _ _ x Hu Hst Hsf HN Hm Hc Hh Hw)
    as [z Hz].
  pose proof (ResidualUnit2d_forward_inv _ _ _ _ _ _ _ _ _ Hu Hz)
    as (_ & _ & _ & Hb & Hcz & Hhz & Hwz).
  exists (tensor4_map elu z); cbn [Sequential4].
  rewrite Hz; simpl_bind; auto.
Qed.

(** ** [STFTDiscriminator] *)

Lemma down_down (s1 s2 T : nat) : down s2 (down s1 T) = down (s1 * s2) T.
Proof.
  unfold down.
  replace ((T - 1) `div` s1 + 1 - 1) with ((T - 1) `div` s1) by lia.
  rewrite Nat.Div0.div_div; reflexivity.
Qed.

Lemma ResidualUnit2d_init_is_Ok (p : path) (in_c N m st sf : nat) :
  is_Ok (ResidualUnit2d_init p in_c N m st sf).
Proof.
  destruct (ResidualUnit2d_init_Ok p in_c N m st sf) as (c0 & c2 & skip & _ & _ & _ & ->).
  eexists; reflexivity.
Qed.

Lemma STFTDiscriminator_init_Ok (p : path) (C F_bins : nat) :
  ∃ c0 r1 r2 r3 r4 r5 r6 c7,
    nn_Conv2d (p ++ [0; 0]) 2 32 (7, 7) (1, 1) (Padding 0 0) = Ok c0
    ∧ ResidualUnit2d_init (p ++ [1; 0]) 32 C 2 1 2 = Ok r1
    ∧ ResidualUnit2d_init (p ++ [2; 0]) (2 * C) (2 * C) 2 2 2 = Ok r2
    ∧ ResidualUnit2d_init (p ++ [3; 0]) (4 * C) (4 * C) 1 1 2 = Ok r3
    ∧ ResidualUnit2d_init (p ++ [4; 0]) (4 * C) (4 * C) 2 2 2 = Ok r4
    ∧ ResidualUnit2d_init (p ++ [5; 0]) (8 * C) (8 * C) 1 1 2 = Ok r5
    ∧ ResidualUnit2d_init (p ++ [6; 0]) (8 * C) (8 * C) 2 2 2 = Ok r6
    ∧ nn_Conv2d (p ++ [7]) (16 * C) 1 (F_bins `div` 2 ^ 6, 1) (1, 1) (Padding 0 0) = Ok c7
    ∧ STFTDiscriminator_init p C F_bins =
        Ok {| stft_layers :=
                [Sequential4 [Conv2d_forward c0; ELU4];
                 Sequential4 [ResidualUnit2d_forward r1; ELU4];
                 Sequential4 [ResidualUnit2d_forward r2; ELU4];
                 Sequential4 [ResidualUnit2d_forward r3; ELU4];
                 Sequential4 [ResidualUnit2d_forward r4; ELU4];
                 Sequential4 [ResidualUnit2d_forward r5; ELU4];
                 Sequential4 [ResidualUnit2d_forward r6; ELU4];
                 Conv2d_forward c7] |}.
Proof.
  destruct (nn_Conv2d_Ok (p ++ [0; 0]) 2 32 (7, 7) (1, 1) 0 0) as [c0 H0].
  destruct (ResidualUnit2d_init_is_Ok (p ++ [1; 0]) 32 C 2 1 2) as [r1 H1].
  destruct (ResidualUnit2d_init_is_Ok (p ++ [2; 0]) (2 * C) (2 * C) 2 2 2) as [r2 H2].
  destruct (ResidualUnit2d_init_is_Ok (p ++ [3; 0]) (4 * C) (4 * C) 1 1 2) as [r3 H3].
  destruct (ResidualUnit2d_init_is_Ok (p ++ [4; 0]) (4 * C) (4 * C) 2 2 2) as [r4 H4].
  destruct (ResidualUnit2d_init_is_Ok (p ++ [5; 0]) (8 * C) (8 * C) 1 1 2) as [r5 H5].
  destruct (ResidualUnit2d_init_is_Ok (p ++ [6; 0]) (8 * C) (8 * C) 2 2 2) as [r6 H6].
  destruct (nn_Conv2d_Ok (p ++ [7]) (16 * C) 1 (F_bins `div` 2 ^ 6, 1) (1, 1) 0 0)
    as [c7 H7].
  exists c0, r1, r2, r3, r4, r5, r6, c7.
  unfold STFTDiscriminator_init.
  rewrite H0, H1, H2, H3, H4, H5, H6, H7; simpl_bind.
  repeat split; reflexivity.
Qed.

Lemma shape4_eq (y : tensor4) (b c h w : nat) :
  batch4 y = b → channels4 y = c → height y = h → width y = w →
  shape4 y = (b, c, h, w).
Proof. unfold shape4; congruence. Qed.

Lemma STFTDiscriminator_forward_inv (p : path) (C F_bins : nat)
    (m : STFTDiscriminator) (x : tensor4) (fm : list tensor4) :
  STFTDiscriminator_init p C F_bins = Ok m →
  STFTDiscriminator_forward m x = Ok fm →
  channels4 x = 2 ∧ 7 ≤ height x ∧ 7 ≤ width x
  ∧ F_bins `div` 64 ≤ down 64 (height x - 6)
  ∧ shape4 <$> fm
    = STFTDiscriminator_shapes C F_bins (batch4 x) (height x - 6) (width x - 6).
Proof.
  destruct (STFTDiscriminator_init_Ok p C F_bins)
    as (c0 & r1 & r2 & r3 & r4 & r5 & r6 & c7
        & H0 & H1 & H2 & H3 & H4 & H5 & H6 & H7 & ->).
  intros [= <-] Hfm.
  unfold STFTDiscriminator_forward in Hfm; cbn [stft_layers] in Hfm.
  cbn [feature_maps4] in Hfm.
  bind_inv Hfm y0 Hy0. bind_inv Hfm q0 Hq0.
  bind_inv Hq0 y1 Hy1. bind_inv Hq0 q1 Hq1.
  bind_inv Hq1 y2 Hy2. bind_inv Hq1 q2 Hq2.
  bind_inv Hq2 y3 Hy3. bind_inv Hq2 q3 Hq3.
  bind_inv Hq3 y4 Hy4. bind_inv Hq3 q4 Hq4.
  bind_inv Hq4 y5 Hy5. bind_inv Hq4 q5 Hq5.
  bind_inv Hq5 y6 Hy6. bind_inv Hq5 q6 Hq6.
  bind_inv Hq6 y7 Hy7. bind_inv Hq6 q7 Hq7.
  injection Hq7 as <-. injection Hq6 as <-. injection Hq5 as <-.
  injection Hq4 as <-. injection Hq3 as <-. injection Hq2 as <-.
  injection Hq1 as <-. injection Hq0 as <-. injection Hfm as <-.
  (* layer 0: the 7 x 7 convolution and the activation *)
  cbn [Sequential4] in Hy0.
  bind_inv Hy0 z0 Hz0; unfold ELU4 in Hy0; injection Hy0 as <-.
  apply (Conv2d_forward_inv _ _ _ _ _ _ _ _ _ _ _ _ H0) in Hz0
    as (Hc & Hh & Hw & Eb0 & Ec0 & Eh0 & Ew0).
  rewrite Nat.div_1_r in Eh0, Ew0.
  assert (Fh0 : height z0 = height x - 6) by (clear - Hh Eh0; lia).
  assert (Fw0 : width z0 = width x - 6) by (clear - Hw Ew0; lia).
  clear Eh0 Ew0.
  apply (unit_act_inv _ _ _ _ _ _ _ _ _ H1) in Hy1
    as (_ & _ & Hw1 & Eb1 & Ec1 & Eh1 & Ew1).
  apply (unit_act_inv _ _ _ _ _ _ _ _ _ H2) in Hy2
    as (_ & _ & _ & Eb2 & Ec2 & Eh2 & Ew2).
  apply (unit_act_inv _ _ _ _ _ _ _ _ _ H3) in Hy3
    as (_ & _ & Hw3 & Eb3 & Ec3 & Eh3 & Ew3).
  apply (unit_act_inv _ _ _ _ _ _ _ _ _ H4) in Hy4
    as (_ & _ & _ & Eb4 & Ec4 & Eh4 & Ew4).
  apply (unit_act_inv _ _ _ _ _ _ _ _ _ H5) in Hy5
    as (_ & _ & Hw5 & Eb5 & Ec5 & Eh5 & Ew5).
  apply (unit_act_inv _ _ _ _ _ _ _ _ _ H6) in Hy6
    as (_ & _ & _ & Eb6 & Ec6 & Eh6 & Ew6).
  apply (Conv2d_forward_inv _ _ _ _ _ _ _ _ _ _ _ _ H7) in Hy7
    as (_ & Hh7 & _ & Eb7 & Ec7 & Eh7 & Ew7).
  cbn [tensor4_map batch4 channels4 height width] in *.
  change (2 ^ 6) with 64 in *.
  rewrite Nat.div_1_r in Eh7, Ew7.
  rewrite down_1 in Ew1, Ew3, Ew5 by assumption.
  rewrite Fh0 in Eh1; rewrite Fw0 in Ew1.
  rewrite Eh1, down_down in Eh2; rewrite Ew1 in Ew2.
  rewrite Eh2, down_down in Eh3; rewrite Ew2 in Ew3.
  rewrite Eh3, down_down in Eh4; rewrite Ew3, down_down in Ew4.
  rewrite Eh4, down_down in Eh5; rewrite Ew4 in Ew5.
  rewrite Eh5, down_down in Eh6; rewrite Ew5, down_down in Ew6.
  rewrite Eh6 in Eh7, Hh7.
  change (2 * 2) with 4 in *. change (4 * 2) with 8 in *.
  change (8 * 2) with 16 in *. change (16 * 2) with 32 in *.
  change (32 * 2) with 64 in *.
  split; [exact Hc|]; split; [clear - Hh; lia|]; split; [clear - Hw; lia|].
  split; [clear - Hh7; lia|].
  unfold STFTDiscriminator_shapes; cbn [fmap list_fmap].
  assert (B1 : batch4 y1 = batch4 x) by congruence.
  assert (B2 : batch4 y2 = batch4 x) by congruence.
  assert (B3 : batch4 y3 = batch4 x) by congruence.
  assert (B4 : batch4 y4 = batch4 x) by congruence.
  assert (B5 : batch4 y5 = batch4 x) by congruence.
  assert (B6 : batch4 y6 = batch4 x) by congruence.
  assert (B7 : batch4 y7 = batch4 x) by congruence.
  clear Eb1 Eb2 Eb3 Eb4 Eb5 Eb6 Eb7.
  assert (Fw7 : width y7 = down 8 (width x - 6)).
  { pose proof (down_pos 8 (width x - 6)) as Hpos.
    rewrite Ew6 in Ew7; clear - Ew7 Hpos; lia. }
  assert (Fh7 : height y7 = down 64 (height x - 6) - F_bins `div` 64 + 1).
  { clear - Eh7; lia. }
  clear Ew7 Eh7.
  repeat (f_equal; [apply shape4_eq; cbn [tensor4_map batch4 channels4 height width];
                    first [assumption | lia]|]).
  f_equal; apply shape4_eq; assumption.
Qed.

Lemma feature_maps4_cons (l : nn_Module4) (ls : list nn_Module4) (x y : tensor4) :
  l x = Ok y →
  feature_maps4 (l :: ls) x = (rest ← feature_maps4 ls y; Ok (y :: rest)).
Proof. intros H; cbn [feature_maps4]; rewrite H; reflexivity. Qed.

Lemma STFTDiscriminator_forward_Ok (p : path) (C F_bins : nat)
    (m : STFTDiscriminator) (x : tensor4) :
  STFTDiscriminator_init p C F_bins = Ok m →
  1 ≤ C → 64 ≤ F_bins →
  channels4 x = 2 → 7 ≤ height x → 7 ≤ width x →
  F_bins `div` 64 ≤ down 64 (height x - 6) →
  is_Ok (STFTDiscriminator_forward m x).
Proof.
  destruct (STFTDiscriminator_init_Ok p C F_bins)
    as (c0 & r1 & r2 & r3 & r4 & r5 & r6 & c7
        & H0 & H1 & H2 & H3 & H4 & H5 & H6 & H7 & ->).
  intros [= <-] HC HF Hc Hh Hw Hk.
  assert (Hk1 : 1 ≤ F_bins `div` 64).
  { clear - HF; apply Nat.div_le_lower_bound; lia. }
  unfold STFTDiscriminator_forward; cbn [stft_layers].
  (* layer 0 *)
  destruct (Conv2d_forward_Ok _ _ _ _ _ _ _ _ _ c0 x H0) as [z0 Hz0];
    [lia..|exact Hc|lia|lia|].
  pose proof (Conv2d_forward_inv _ _ _ _ _ _ _ _ _ _ _ _ H0 Hz0)
    as (_ & _ & _ & _ & Ec0 & Eh0 & Ew0).
  rewrite Nat.div_1_r in Eh0, Ew0.
  assert (Gh0 : 1 ≤ height z0) by (clear - Hh Eh0; lia).
  assert (Gw0 : 1 ≤ width z0) by (clear - Hw Ew0; lia).
  assert (Fh0 : height z0 = height x - 6) by (clear - Hh Eh0; lia).
  clear Eh0 Ew0.
  (* layers 1 to 6 *)
  destruct (unit_act_Ok _ _ _ _ _ _ _ (tensor4_map elu z0) H1)
    as (y1 & Hy1 & _ & Ec1 & Eh1 & Ew1); [lia..|exact Ec0|exact Gh0|exact Gw0|].
  cbn [tensor4_map height width] in Eh1, Ew1.
  destruct (unit_act_Ok _ _ _ _ _ _ _ y1 H2)
    as (y2 & Hy2 & _ & Ec2 & Eh2 & Ew2);
    [lia..|exact Ec1|rewrite Eh1; apply down_pos|rewrite Ew1; apply down_pos|].
  destruct (unit_act_Ok _ _ _ _ _ _ _ y2 H3)
    as (y3 & Hy3 & _ & Ec3 & Eh3 & Ew3);
    [lia..|clear - Ec2; lia|rewrite Eh2; apply down_pos|rewrite Ew2; apply down_pos|].
  destruct (unit_act_Ok _ _ _ _ _ _ _ y3 H4)
    as (y4 & Hy4 & _ & Ec4 & Eh4 & Ew4);
    [lia..|clear - Ec3; lia|rewrite Eh3; apply down_pos|rewrite Ew3; apply down_pos|].
  destruct (unit_act_Ok _ _ _ _ _ _ _ y4 H5)
    as (y5 & Hy5 & _ & Ec5 & Eh5 & Ew5);
    [lia..|clear - Ec4; lia|rewrite Eh4; apply down_pos|rewrite Ew4; apply down_pos|].
  destruct (unit_act_Ok _ _ _ _ _ _ _ y5 H6)
    as (y6 & Hy6 & _ & Ec6 & Eh6 & Ew6);
    [lia..|clear - Ec5; lia|rewrite Eh5; apply down_pos|rewrite Ew5; apply down_pos|].
  (* layer 7 *)
  assert (Fh6 : height y6 = down 64 (height x - 6)).
  { rewrite Eh6, Eh5, Eh4, Eh3, Eh2, Eh1, Fh0.
    rewrite 5!down_down; reflexivity. }
  clear Eh6; rename Fh6 into Eh6.
  change (2 ^ 6) with 64 in H7.
  destruct (Conv2d_forward_Ok _ _ _ _ _ _ _ _ _ c7 y6 H7) as [y7 Hy7];
    [exact Hk1|lia..|clear - Ec6; lia|rewrite Eh6; clear - Hk; lia|
     rewrite Ew6; pose proof (down_pos 2 (width y5)) as Hpos; clear - Hpos; lia|].
  assert (Hy0 : Sequential4 [Conv2d_forward c0; ELU4] x = Ok (tensor4_map elu z0)).
  { cbn [Sequential4]; rewrite Hz0; reflexivity. }
  rewrite (feature_maps4_cons _ _ _ _ Hy0), (feature_maps4_cons _ _ _ _ Hy1),
    (feature_maps4_cons _ _ _ _ Hy2), (feature_maps4_cons _ _ _ _ Hy3),
    (feature_maps4_cons _ _ _ _ Hy4), (feature_maps4_cons _ _ _ _ Hy5),
    (feature_maps4_cons _ _ _ _ Hy6), (feature_maps4_cons _ _ _ _ Hy7).
  cbn [feature_maps4]; simpl_bind.
  eexists; reflexivity.
Qed.

Lemma time_lengths_shapes (fm : list tensor4) (l : list (nat * nat * nat * nat)) :
  shape4 <$> fm = l → time_lengths fm = (λ s, [Z.of_nat s.2]) <$> l.
Proof.
  intros <-; unfold time_lengths; rewrite <- list_fmap_compose; reflexivity.
Qed.

(** X13: [forward] and [features_lengths] of the STFT-based discriminator
    agree on the time axis.  Whenever [forward] returns its feature maps
    for a spectrogram of [L] frames, there are eight of them and their
    numbers of frames are the eight entries of [features_lengths(L)]. *)
Theorem STFTDiscriminator_forward_lengths (p : path) (C F_bins : nat)
    (m : STFTDiscriminator) (x : tensor4) (fm : list tensor4) :
  STFTDiscriminator_init p C F_bins = Ok m →
  STFTDiscriminator_forward m x = Ok fm →
  time_lengths fm = STFTDiscriminator_features_lengths [Z.of_nat (width x)].
Proof.
  intros Hm Hfm.
  destruct (STFTDiscriminator_forward_inv p C F_bins m x fm Hm Hfm)
    as (_ & _ & Hw & _ & Hshapes).
  rewrite (time_lengths_shapes _ _ Hshapes).
  unfold STFTDiscriminator_shapes, STFTDiscriminator_features_lengths,
    torch_div_floor, lengths_add, down.
  cbn [fmap list_fmap snd].
  clear - Hw; repeat f_equal; lia.
Qed.

(** X14: the spectrograms that the STFT-based discriminator accepts.  For
    a positive channel multiplier [C] and at least 64 frequency bins set
    at construction, [forward] returns a result exactly for the inputs of
    two channels with at least 7 frames and 7 bins whose height, after the
    first convolution and six halvings, is at least the height
    [F_bins // 64] of the last kernel. *)
Theorem STFTDiscriminator_forward_domain (p : path) (C F_bins : nat)
    (m : STFTDiscriminator) (x : tensor4) :
  1 ≤ C → 64 ≤ F_bins →
  STFTDiscriminator_init p C F_bins = Ok m →
  is_Ok (STFTDiscriminator_forward m x)
  ↔ channels4 x = 2 ∧ 7 ≤ height x ∧ 7 ≤ width x
    ∧ F_bins `div` 64 ≤ down 64 (height x - 6).
Proof.
  intros HC HF Hm; split.
  - intros [fm Hfm].
    destruct (STFTDiscriminator_forward_inv p C F_bins m x fm Hm Hfm)
      as (Hc & Hh & Hw & Hk & _); auto.
  - intros (Hc & Hh & Hw & Hk).
    exact (STFTDiscriminator_forward_Ok p C F_bins m x Hm HC HF Hc Hh Hw Hk).
Qed.

(** X15: the logits on a spectrogram of exactly [F_bins] bins.  With a
    positive [C], at least 64 bins and at least 7 frames, [forward]
    returns eight feature maps; the last one has one channel,
    [floor((L + 1) / 8)] frames, and on the frequency axis one row when
    [F_bins mod 64 <= 6] and two rows otherwise. *)
Theorem STFTDiscriminator_logits_shape (p : path) (C F_bins : nat)
    (m : STFTDiscriminator) (x : tensor4) :
  1 ≤ C → 64 ≤ F_bins →
  STFTDiscriminator_init p C F_bins = Ok m →
  channels4 x = 2 → height x = F_bins → 7 ≤ width x →
  ∃ fm, STFTDiscriminator_forward m x = Ok fm
        ∧ length fm = 8
        ∧ shape4 <$> last fm
          = Some (batch4 x, 1,
                  if decide (F_bins `mod` 64 ≤ 6) then 1 else 2,
                  (width x + 1) `div` 8).
Proof.
  intros HC HF Hm Hc Hh Hw.
  assert (Hrows : down 64 (F_bins - 6) - F_bins `div` 64 + 1
                  = if decide (F_bins `mod` 64 ≤ 6) then 1 else 2).
  { unfold down; clear - HF; destruct (decide _); lia. }
  destruct (STFTDiscriminator_forward_Ok p C F_bins m x Hm HC HF Hc) as [fm Hfm];
    [lia|exact Hw|rewrite Hh; unfold down; clear - HF; lia|].
  destruct (STFTDiscriminator_forward_inv p C F_bins m x fm Hm Hfm)
    as (_ & _ & _ & _ & Hshapes).
  exists fm; split; [exact Hfm|].
  rewrite Hh in Hshapes.
  split.
  - rewrite <- (length_fmap shape4), Hshapes; reflexivity.
  - rewrite <- fmap_last, Hshapes; unfold STFTDiscriminator_shapes.
    cbn [last]; rewrite Hrows; unfold down.
    do 2 f_equal; clear - Hw; lia.
Qed.


(** * Layers and blocks on their own *)

(** X17: the length left by a causal convolution does not depend on its
    kernel.  For positive channel counts and every kernel size, dilation,
    stride, group count and additional padding, the causal convolution
    accepts, among the non-empty inputs, exactly those of its channel
    count, and returns [floor((T + 2 * padding - 1) / stride) + 1] steps
    for an input of [T] steps. *)
Theorem CausalConv1d_length (p : path) (in_c out_c k s pad d g : nat)
    (m : CausalConv1d) (x : tensor) :
  CausalConv1d_init p in_c out_c k s pad d g = Ok m →
  1 ≤ k → 1 ≤ s → 1 ≤ d → 1 ≤ in_c → 1 ≤ out_c → 1 ≤ steps x →
  (is_Ok (CausalConv1d_forward m x) ↔ channels x = in_c)
  ∧ ∀ y, CausalConv1d_forward m x = Ok y →
      shape y = (batch x, out_c, (steps x + 2 * pad - 1) `div` s + 1).
Proof.
  unfold CausalConv1d_init; intros Hm Hk1 Hs1 Hd1 _ Ho1 Hlen.
  bind_inv Hm c Hc; injection Hm as <-.
  apply nn_Conv1d_fields in Hc
    as (Hs & Hpad & Hd & Hg & Hk & Hwk & Hw0 & Hw1 & Hg1 & Hmod).
  assert (Hgo : g ≤ out_c).
  { pose proof (Nat.div_mod out_c g ltac:(lia)) as Hdm; rewrite Hmod in Hdm.
    revert Hdm; generalize (out_c `div` g); intros q Hdm.
    destruct q as [|q]; [clear - Hdm Ho1; lia|clear - Hdm; nia]. }
  assert (Hcp : (Z.of_nat (dilation c) * (Z.of_nat (kernel_size c) - 1))%Z
                = Z.of_nat (d * (k - 1))).
  { rewrite Hd, Hk; clear - Hk1; nia. }
  unfold CausalConv1d_forward; cbn [cc_conv cc_causal_padding].
  rewrite Hcp; clear Hcp.
  set (e := d * (k - 1)).
  unfold F_pad; rewrite decide_False by lia; simpl_bind.
  unfold _conv_forward, F_conv1d; cbn [steps channels batch].
  rewrite Hs, Hpad, Hd, Hg, Hwk, Hw0.
  fold e.
  replace (Z.to_nat (Z.of_nat (steps x) + Z.of_nat e + 0)) with (steps x + e) by lia.
  split; [split|].
  - intros [y Hy].
    destruct (decide _) as [Hok|] in Hy; [|discriminate].
    destruct Hok as (_ & _ & _ & _ & Hch & _ & Hspan & _).
    rewrite Hch; exact Hw1.
  - intros Hch.
    rewrite decide_True; [eexists; reflexivity|].
    split; [exact Hs1|]; split; [exact Hd1|]; split; [exact Hg1|].
    split; [exact Hk1|]; split; [rewrite Hch; symmetry; exact Hw1|].
    split; [exact Hmod|]; split; [clear - Hlen; lia|exact Hgo].
  - intros y Hy.
    destruct (decide _) as [Hok|] in Hy; [|discriminate]; injection Hy as <-.
    destruct Hok as (_ & _ & _ & _ & _ & _ & Hspan & _).
    unfold shape; cbn [batch channels steps].
    do 2 f_equal; f_equal; clear - Hspan; lia.
Qed.

(** X18: an encoder block.  A block of stride [s] with positive channel
    counts maps every non-empty input of [in_channels] channels and [T]
    steps to [out_channels] channels and [floor((T - 1) / s) + 1] steps,
    and its output at index [t'] is determined by the input up to index
    [t' * s]. *)
Theorem EncoderBlock_downsamples (p : path) (in_c out_c s : nat) (m : EncoderBlock) :
  1 ≤ s → 1 ≤ in_c → 1 ≤ out_c →
  EncoderBlock_init p in_c out_c s = Ok m →
  (∀ x, channels x = in_c → 1 ≤ steps x →
     ∃ y, EncoderBlock_forward m x = Ok y
          ∧ shape y = (batch x, out_c, (steps x - 1) `div` s + 1))
  ∧ ∀ x x' y y' t t',
      agree_upto t x x' →
      EncoderBlock_forward m x = Ok y → EncoderBlock_forward m x' = Ok y' →
      t' * s ≤ t →
      agree_upto t' y y'.
Proof.
  intros Hs Hi Ho Hm; split.
  - intros x Hc Ht.
    destruct (EncoderBlock_shape p in_c out_c s m Hs Hi Ho Hm x Hc Ht)
      as (y & Hy & Hb & Hch & Hst & _).
    exists y; split; [exact Hy|].
    unfold shape; rewrite Hb, Hch, Hst; reflexivity.
  - exact (EncoderBlock_causal p in_c out_c s m Hm).
Qed.

(** X19: a decoder block.  A block of stride [s] with positive channel
    counts maps every non-empty input of [in_channels] channels and [T]
    steps to [out_channels] channels and [T * s] steps, and its output at
    index [t'] is determined by the input up to index [floor(t' / s)]. *)
Theorem DecoderBlock_upsamples (p : path) (in_c out_c s : nat) (m : DecoderBlock) :
  1 ≤ s → 1 ≤ in_c → 1 ≤ out_c →
  DecoderBlock_init p in_c out_c s = Ok m →
  (∀ x, channels x = in_c → 1 ≤ steps x →
     ∃ y, DecoderBlock_forward m x = Ok y
          ∧ shape y = (batch x, out_c, steps x * s))
  ∧ ∀ x x' y y' t t',
      agree_upto t x x' →
      DecoderBlock_forward m x = Ok y → DecoderBlock_forward m x' = Ok y' →
      t' `div` s ≤ t →
      agree_upto t' y y'.
Proof.
  intros Hs Hi Ho Hm; split.
  - intros x Hc Ht.
    destruct (DecoderBlock_shape p in_c out_c s m Hs Hi Ho Hm x Hc Ht)
      as (y & Hy & Hb & Hch & Hst & _).
    exists y; split; [exact Hy|].
    unfold shape; rewrite Hb, Hch, Hst; reflexivity.
  - exact (DecoderBlock_causal_up p in_c out_c s m Hm).
Qed.

(** ** The wave-based discriminator *)

Lemma shape_eq (y : tensor) (b c t : nat) :
  batch y = b → channels y = c → steps y = t → shape y = (b, c, t).
Proof. unfold shape; congruence. Qed.

(** X20: the shapes of the feature maps of a sub-discriminator.  Whenever
    [forward] returns, the seven feature maps have 16, 64, 256, 1024,
    1024, 1024 and 1 channels, the batch size of the input, and the
    lengths [T], [ceil(T/4)], [ceil(T/16)], [ceil(T/64)] and three times
    [ceil(T/256)]. *)
Theorem WaveDiscriminatorBlock_shapes (p : path) (m : WaveDiscriminatorBlock)
    (x : tensor) (fm : list tensor) :
  WaveDiscriminatorBlock_init p = Ok m →
  WaveDiscriminatorBlock_forward m x = Ok fm →
  shape <$> fm =
    [(batch x, 16, steps x);
     (batch x, 64, (steps x + 3) `div` 4);
     (batch x, 256, (steps x + 15) `div` 16);
     (batch x, 1024, (steps x + 63) `div` 64);
     (batch x, 1024, (steps x + 255) `div` 256);
     (batch x, 1024, (steps x + 255) `div` 256);
     (batch x, 1, (steps x + 255) `div` 256)].
Proof.
  intros Hm Hfm.
  destruct (WaveDiscriminatorBlock_forward_inv p m x fm Hm Hfm) as (_ & _ & Hsteps).
  revert Hm Hfm.
  destruct (WaveDiscriminatorBlock_init_Ok p)
    as (c0 & c1 & c2 & c3 & c4 & c5 & c6 & H0 & H1 & H2 & H3 & H4 & H5 & H6 & ->).
  intros [= <-] Hfm.
  unfold WaveDiscriminatorBlock_forward in Hfm; simpl wdb_layers in Hfm.
  unfold WNConv1d in *.
  cbn [feature_maps] in Hfm.
  bind_inv Hfm y0 Hy0. bind_inv Hfm r0 Hr0.
  cbn [feature_maps] in Hr0.
  bind_inv Hr0 y1 Hy1. bind_inv Hr0 r1 Hr1.
  cbn [feature_maps] in Hr1.
  bind_inv Hr1 y2 Hy2. bind_inv Hr1 r2 Hr2.
  cbn [feature_maps] in Hr2.
  bind_inv Hr2 y3 Hy3. bind_inv Hr2 r3 Hr3.
  cbn [feature_maps] in Hr3.
  bind_inv Hr3 y4 Hy4. bind_inv Hr3 r4 Hr4.
  cbn [feature_maps] in Hr4.
  bind_inv Hr4 y5 Hy5. bind_inv Hr4 r5 Hr5.
  cbn [feature_maps] in Hr5.
  bind_inv Hr5 y6 Hy6. bind_inv Hr5 r6 Hr6.
  cbn [feature_maps] in Hr6.
  injection Hr6 as <-. injection Hr5 as <-. injection Hr4 as <-.
  injection Hr3 as <-. injection Hr2 as <-. injection Hr1 as <-.
  injection Hr0 as <-. injection Hfm as <-.
  cbn [fmap list_fmap] in Hsteps.
  injection Hsteps as E0 E1 E2 E3 E4 E5 E6.
  cbn [Sequential] in Hy0.
  bind_inv Hy0 xp Hxp.
  unfold ReflectionPad1d in Hxp.
  destruct (decide _) as [Hlen|] in Hxp; [|discriminate]; injection Hxp as <-.
  apply (conv_act_inv _ _ _ _ _ _ _ _ _ _ _ _ H0) in Hy0
    as (_ & _ & B0 & C0 & _); cbn [batch] in B0.
  apply (conv_act_inv _ _ _ _ _ _ _ _ _ _ _ _ H1) in Hy1 as (_ & _ & B1 & C1 & _).
  apply (conv_act_inv _ _ _ _ _ _ _ _ _ _ _ _ H2) in Hy2 as (_ & _ & B2 & C2 & _).
  apply (conv_act_inv _ _ _ _ _ _ _ _ _ _ _ _ H3) in Hy3 as (_ & _ & B3 & C3 & _).
  apply (conv_act_inv _ _ _ _ _ _ _ _ _ _ _ _ H4) in Hy4 as (_ & _ & B4 & C4 & _).
  apply (conv_act_inv _ _ _ _ _ _ _ _ _ _ _ _ H5) in Hy5 as (_ & _ & B5 & C5 & _).
  apply (Conv1d_forward_inv _ _ _ _ _ _ _ _ _ _ _ H6) in Hy6 as (_ & _ & B6 & C6 & _).
  rewrite B0 in B1; rewrite B1 in B2; rewrite B2 in B3; rewrite B3 in B4.
  rewrite B4 in B5; rewrite B5 in B6.
  cbn [fmap list_fmap].
  repeat (f_equal; [apply shape_eq; assumption|]).
  f_equal; apply shape_eq; assumption.
Qed.

Lemma WaveDiscriminator_model_dom (p : path) (df : Z) (n i : nat)
    (acc mdl : gmap string WaveDiscriminatorBlock) :
  WaveDiscriminator_model p df i n acc = Ok mdl →
  dom mdl = dom acc ∪ list_to_set (disc_key df <$> seq i n).
Proof.
  revert i acc; induction n as [|n IH]; intros i acc Hmdl.
  - injection Hmdl as <-; simpl; rewrite (right_id_L ∅ (∪)); reflexivity.
  - cbn [WaveDiscriminator_model] in Hmdl.
    bind_inv Hmdl blk Hblk.
    rewrite (IH _ _ Hmdl), dom_insert_L.
    change (seq i (S n)) with (i :: seq (S i) n).
    rewrite fmap_cons, list_to_set_cons.
    rewrite (comm_L (∪) {[disc_key df i]} (dom acc)), <- (assoc_L (∪)).
    reflexivity.
Qed.

Lemma WaveDiscriminator_forward_from_dom (div_by : R → nat → R)
    (m : WaveDiscriminator) (n i : nat)
    (results res : gmap string (list tensor)) (x : tensor) :
  WaveDiscriminator_forward_from div_by m i n results x = Ok res →
  dom res = dom results
            ∪ list_to_set (disc_key (downsampling_factor m) <$> seq i n).
Proof.
  revert i results x; induction n as [|n IH]; intros i results x Hres.
  - injection Hres as <-; simpl; rewrite (right_id_L ∅ (∪)); reflexivity.
  - cbn [WaveDiscriminator_forward_from] in Hres.
    bind_inv Hres disc Hdisc.
    bind_inv Hres fm Hfm.
    bind_inv Hres x' Hx'.
    rewrite (IH _ _ _ Hres), dom_insert_L.
    change (seq i (S n)) with (i :: seq (S i) n).
    rewrite fmap_cons, list_to_set_cons.
    rewrite (comm_L (∪) {[disc_key (downsampling_factor m) i]} (dom results)),
      <- (assoc_L (∪)).
    reflexivity.
Qed.

Lemma disc_key_1 (i : nat) : disc_key 1 i = disc_key 1 0.
Proof. unfold disc_key; rewrite !Z.pow_1_l by lia; reflexivity. Qed.

Lemma disc_keys_1 (i n : nat) :
  list_to_set (disc_key 1 <$> seq i (S n)) =@{gset string} {[disc_key 1 0]}.
Proof.
  revert i; induction n as [|n IH]; intros i.
  - simpl; rewrite (disc_key_1 i), (right_id_L ∅ (∪)); reflexivity.
  - change (seq i (S (S n))) with (i :: seq (S i) (S n)).
    rewrite fmap_cons, list_to_set_cons, IH, (disc_key_1 i).
    apply (idemp_L (∪)).
Qed.

(** X21: the sub-discriminators that the bank holds.  The constructor
    keeps one block for each distinct key [disc_{downsampling_factor**i}],
    [i < num_D], and [forward] returns a dictionary with the same keys:
    [num_D] of them when the downsampling factor is at least 2 in absolute
    value, and a single one, however many scales are asked for, when it
    is 1. *)
Theorem WaveDiscriminator_keys (div_by : R → nat → R) (p : path) (n : nat) (df : Z) :
  ∃ m,
    WaveDiscriminator_init p n df = Ok m
    ∧ dom (model m) = list_to_set (disc_key df <$> seq 0 n)
    ∧ (∀ x results, WaveDiscriminator_forward div_by m x = Ok results →
         dom results = dom (model m))
    ∧ ((2 ≤ Z.abs df)%Z → size (model m) = n)
    ∧ (df = 1%Z → 1 ≤ n → size (model m) = 1).
Proof.
  destruct (WaveDiscriminator_init_Ok p n df) as (m & Hm & Hn & Hd & _).
  assert (Hdom : dom (model m) = list_to_set (disc_key df <$> seq 0 n)).
  { unfold WaveDiscriminator_init in Hm.
    bind_inv Hm mdl Hmdl; injection Hm as <-; cbn [model].
    rewrite (WaveDiscriminator_model_dom _ _ _ _ _ _ Hmdl), dom_empty_L.
    apply (left_id_L ∅ (∪)). }
  exists m; split; [exact Hm|]; split; [exact Hdom|]; split; [|split].
  - intros x results Hres; unfold WaveDiscriminator_forward in Hres.
    rewrite (WaveDiscriminator_forward_from_dom _ _ _ _ _ _ _ Hres).
    rewrite Hdom, Hn, Hd, dom_empty_L; apply (left_id_L ∅ (∪)).
  - intros Hdf.
    rewrite <- size_dom, Hdom, size_list_to_set, length_fmap, length_seq;
      [reflexivity|].
    apply NoDup_fmap_2_strong; [|apply NoDup_seq].
    intros a b _ _; apply disc_key_inj; exact Hdf.
  - intros -> Hn1.
    rewrite <- size_dom, Hdom.
    destruct n as [|n]; [lia|].
    rewrite disc_keys_1, size_singleton; reflexivity.
Qed.

End Codec.

(** * [get_padding], [train_mode] and [eval_mode] without tensors *)

(** X22: the modes of [get_padding].  An exception is raised exactly for a
    kernel size other than 1 with a mode that is none of ["centered"],
    ["causal"] and ["anticausal"]; with kernel size 1 every mode string is
    accepted and no padding is returned.  The causal mode pads on the left
    only, the anticausal mode on the right only by the same amount, and the
    centered mode half of that amount on both sides. *)
Theorem get_padding_modes (kernel_size dilation : Z) (mode : string) :
  ((∃ msg, get_padding kernel_size dilation mode = inl msg)
   ↔ kernel_size ≠ 1%Z ∧ mode ≠ "centered" ∧ mode ≠ "causal" ∧ mode ≠ "anticausal")
  ∧ get_padding 1 dilation mode = inr (0, 0)%Z
  ∧ ∃ h,
      get_padding kernel_size dilation "centered" = inr (h, h)
      ∧ get_padding kernel_size dilation "causal" = inr (2 * h, 0)%Z
      ∧ get_padding kernel_size dilation "anticausal" = inr (0, 2 * h)%Z.
Proof.
  split; [|split].
  - unfold get_padding; split.
    + intros [msg Hmsg].
      repeat (destruct (decide _) in Hmsg); try discriminate Hmsg; auto.
    + intros (Hk & H1 & H2 & H3).
      rewrite !decide_False by assumption; eexists; reflexivity.
  - reflexivity.
  - unfold get_padding.
    destruct (decide (kernel_size = 1%Z)) as [Hk|Hk].
    + exists 0%Z; auto.
    + eexists; repeat split; reflexivity.
Qed.

Lemma restore_modes_enough (modes : list bool) (i : nat) (model : list bool) :
  i + length model ≤ length modes →
  restore_modes modes i model = (Ok tt, take (length model) (drop i modes)).
Proof.
  revert i; induction model as [|training rest IH]; intros i Hlen; simpl in *;
    [reflexivity|].
  destruct (lookup_lt_is_Some_2 modes i ltac:(lia)) as [b Hb].
  rewrite Hb, IH by lia.
  rewrite (drop_S _ _ _ Hb); reflexivity.
Qed.

Lemma restore_modes_short (modes : list bool) (i : nat) (model : list bool) :
  i ≤ length modes → length modes < i + length model →
  restore_modes modes i model
  = (Raise IndexError, drop i modes ++ drop (length modes - i) model).
Proof.
  revert i; induction model as [|training rest IH]; intros i Hi Hlen; simpl in *;
    [lia|].
  destruct (decide (i = length modes)) as [->|Hne].
  - rewrite lookup_ge_None_2 by lia.
    rewrite drop_all, Nat.sub_diag; reflexivity.
  - destruct (lookup_lt_is_Some_2 modes i ltac:(lia)) as [b Hb].
    rewrite Hb, IH by lia.
    rewrite (drop_S _ _ _ Hb).
    replace (length modes - i) with (S (length modes - S i)) by lia.
    reflexivity.
Qed.

(** X23: the modes are restored.  When the body of the [with] block
    leaves no more modules than the model had, the block returns the
    outcome of the body, a value or an exception, and every remaining
    module has the [training] flag that the module at its position had
    before the block; a body that keeps the number of modules leaves the
    model with exactly its flags from before. *)
Theorem train_mode_restores {A : Type} (model : list bool) (mode : bool)
    (body : list bool → result A * list bool) :
  length (body (train mode model)).2 ≤ length model →
  train_mode model mode body
  = ((body (train mode model)).1, take (length (body (train mode model)).2) model)
  ∧ (length (body (train mode model)).2 = length model →
     train_mode model mode body = ((body (train mode model)).1, model)).
Proof.
  intros Hlen.
  assert (H : train_mode model mode body
              = ((body (train mode model)).1,
                 take (length (body (train mode model)).2) model)).
  { unfold train_mode.
    destruct (body (train mode model)) as [outcome model1]; simpl in *.
    rewrite restore_modes_enough by (simpl; lia); reflexivity. }
  split; [exact H|].
  intros Heq; rewrite H, Heq, firstn_all; reflexivity.
Qed.

(** X24: modules added inside the block.  When the body leaves more
    modules than the model had, the [finally] clause raises [IndexError],
    whatever the outcome of the body was; the modules at the old positions
    have their flags from before and the others keep the flags the body
    left. *)
Theorem train_mode_added_modules {A : Type} (model : list bool) (mode : bool)
    (body : list bool → result A * list bool) :
  length model < length (body (train mode model)).2 →
  train_mode model mode body
  = (Raise IndexError, model ++ drop (length model) (body (train mode model)).2).
Proof.
  intros Hlen; unfold train_mode.
  destruct (body (train mode model)) as [outcome model1]; simpl in *.
  rewrite restore_modes_short by (simpl; lia).
  rewrite Nat.sub_0_r; reflexivity.
Qed.

Lemma train_replicate (mode : bool) (model : list bool) :
  train mode model = replicate (length model) mode.
Proof.
  unfold train; induction model as [|b model IH]; simpl; [reflexivity|].
  rewrite <- IH; reflexivity.
Qed.

(** X25: evaluation mode and back.  Inside an [eval_mode] block every
    module of the model is in evaluation mode, whatever its mode was, and
    when the body keeps the number of modules the block returns the outcome
    of the body and leaves every module in the mode it had before. *)
Theorem eval_mode_restores {A : Type} (model : list bool)
    (body : list bool → result A * list bool) :
  length (body (replicate (length model) false)).2 = length model →
  eval_mode model body = ((body (replicate (length model) false)).1, model).
Proof.
  intros Hlen; unfold eval_mode, train_mode.
  rewrite train_replicate.
  destruct (body (replicate (length model) false)) as [outcome model1]; simpl in *.
  rewrite restore_modes_enough by (simpl; lia).
  rewrite Hlen, drop_0, firstn_all; reflexivity.
Qed.

(** * The statements on concrete inputs *)

(** The product of the default strides is not 3200: an input of 3200
    samples gives five latent frames, not one. *)
Lemma default_total_stride_not_3200 :
  total_stride (block_strides default_strides default_c_mults) ≠ 3200
  ∧ ∃ m z,
      SoundStreamXLEncoder_init Z 0%Z Z.add Z.mul elu_Z ones_w zero_b
        [] 1 1 1 default_strides default_c_mults = Ok m
      ∧ SoundStreamXLEncoder_forward Z m (zeros Z 0%Z 1 1 3200) = Ok z
      ∧ steps Z z = 5.
Proof.
  split; [discriminate|].
  destruct (SoundStreamXLEncoder_shape Z 0%Z Z.add Z.mul elu_Z leaky_relu_Z ones_w zero_b
              [] 1 1 1 default_strides default_c_mults) as (m & Hm & Hshape);
    [simpl; lia|repeat constructor|lia|lia|repeat constructor|].
  destruct (Hshape (zeros Z 0%Z 1 1 3200) eq_refl) as (z & Hz & _ & _ & Hs & _);
    [simpl; lia|].
  exists m, z; split; [exact Hm|]; split; [exact Hz|].
  rewrite Hs; reflexivity.
Qed.

Lemma encode_decode_length_witness :
  length default_c_mults ≤ length default_strides
  ∧ Forall (λ s, 1 ≤ s) (block_strides default_strides default_c_mults)
  ∧ 1 ≤ 4 ∧ 1 ≤ 8 ∧ 1 ≤ 2
  ∧ Forall (λ c, 1 ≤ c) default_c_mults
  ∧ ∃ enc dec,
      SoundStreamXLEncoder_init Z 0%Z Z.add Z.mul elu_Z ones_w zero_b
        [0] 4 8 2 default_strides default_c_mults = Ok enc
      ∧ SoundStreamXLDecoder_init Z 0%Z Z.add Z.mul elu_Z ones_w zero_b
          [1] 4 8 2 = Ok dec
      ∧ ∀ x, channels Z x = 2 → 1 ≤ steps Z x →
          Nat.divide (total_stride (block_strides default_strides default_c_mults))
            (steps Z x) →
          ∃ z, SoundStreamXLEncoder_forward Z enc x = Ok z
               ∧ batch Z z = batch Z x ∧ channels Z z = 8
               ∧ steps Z z
                 = steps Z x `div` total_stride (block_strides default_strides default_c_mults)
               ∧ (block_strides default_strides default_c_mults
                  = SoundStreamXLDecoder_strides →
                  ∃ y, SoundStreamXLDecoder_forward Z dec z = Ok y
                       ∧ batch Z y = batch Z x ∧ channels Z y = 2
                       ∧ steps Z y = steps Z x).
Proof.
  assert (H1 : length default_c_mults ≤ length default_strides) by (simpl; lia).
  assert (H2 : Forall (λ s, 1 ≤ s) (block_strides default_strides default_c_mults))
    by (repeat constructor).
  assert (H3 : 1 ≤ 4) by lia.
  assert (H4 : 1 ≤ 8) by lia.
  assert (H5 : 1 ≤ 2) by lia.
  assert (H6 : Forall (λ c, 1 ≤ c) default_c_mults) by (repeat constructor).
  split; [exact H1|]; split; [exact H2|]; split; [exact H3|]; split; [exact H4|].
  split; [exact H5|]; split; [exact H6|].
  exact (encode_decode_length Z 0%Z Z.add Z.mul elu_Z leaky_relu_Z ones_w zero_b
           [0] [1] 4 8 2 default_strides default_c_mults H1 H2 H3 H4 H5 H6).
Defined.

Lemma encoder_causal_witness :
  ∃ m,
    SoundStreamXLEncoder_init Z 0%Z Z.add Z.mul elu_Z ones_w zero_b
      [] 1 1 1 default_strides default_c_mults = Ok m
    ∧ (∀ x x' y y' t f,
         agree_upto Z t x x' →
         SoundStreamXLEncoder_forward Z m x = Ok y →
         SoundStreamXLEncoder_forward Z m x' = Ok y' →
         f * total_stride (block_strides default_strides default_c_mults) ≤ t →
         agree_upto Z f y y')
    ∧ (∀ (q : path) (in_c out_c k s pad d g : nat) (c : CausalConv1d Z),
         CausalConv1d_init Z ones_w zero_b q in_c out_c k s pad d g = Ok c →
         cc_causal_padding Z c = (Z.of_nat d * (Z.of_nat k - 1))%Z
         ∧ ∀ x x' y y' t t',
             agree_upto Z t x x' →
             CausalConv1d_forward Z 0%Z Z.add Z.mul c x = Ok y →
             CausalConv1d_forward Z 0%Z Z.add Z.mul c x' = Ok y' →
             t' * s ≤ t →
             agree_upto Z t' y y').
Proof.
  eexists; split; [reflexivity|].
  apply (encoder_causal Z 0%Z Z.add Z.mul elu_Z leaky_relu_Z ones_w zero_b
           [] 1 1 1 default_strides default_c_mults).
  reflexivity.
Defined.

Lemma CausalConvTranspose1d_zero_causal_padding_witness :
  ∃ m y,
    CausalConvTranspose1d_init Z ones_w zero_b [] 1 1 2 2 0 0 1 1 "zeros" = Ok m
    ∧ cct_causal_padding Z m = 0%Z
    ∧ CausalConvTranspose1d_forward Z 0%Z Z.add Z.mul m (zeros Z 0%Z 1 1 3) = Ok y
    ∧ steps Z y = 0
    ∧ ∃ z, F_conv_transpose1d Z 0%Z Z.add Z.mul (zeros Z 0%Z 1 1 3)
             (ct_weight Z m) (ct_bias Z m) (ct_stride Z m) (ct_padding Z m)
             (ct_output_padding Z m) (ct_groups Z m) (ct_dilation Z m) = Ok z
           ∧ 1 ≤ steps Z z
           ∧ (0 = 0 → steps Z z = steps Z (zeros Z 0%Z 1 1 3) * 2).
Proof.
  eexists; eexists.
  split; [reflexivity|]; split; [reflexivity|]; split; [reflexivity|].
  apply (CausalConvTranspose1d_zero_causal_padding Z 0%Z Z.add Z.mul elu_Z
           leaky_relu_Z ones_w zero_b [] 1 1 2 2 0 0 1 1 "zeros");
    reflexivity.
Defined.

Lemma CausalConvTranspose1d_padding_mode_witness :
  "reflect" ≠ "zeros"
  ∧ (∀ (p : path) (in_c out_c k s pad op g d : nat),
       CausalConvTranspose1d_init Z ones_w zero_b p in_c out_c k s pad op g d "reflect"
       = Raise ValueError)
  ∧ (∀ (m : CausalConvTranspose1d Z) (x : tensor Z),
       ct_padding_mode Z m = "reflect" →
       CausalConvTranspose1d_forward Z 0%Z Z.add Z.mul m x = Raise ValueError).
Proof.
  assert (H : "reflect" ≠ "zeros") by discriminate.
  split; [exact H|].
  exact (CausalConvTranspose1d_padding_mode Z 0%Z Z.add Z.mul ones_w zero_b "reflect" H).
Defined.



(** The length map of a sub-discriminator on [L = 1000] is not
    [1000, 250, 62, 15, 3, 3, 3]. *)
Lemma WaveDiscriminator_lengths_1000_not_62 :
  ∃ m,
    WaveDiscriminatorBlock_init Z 0%Z Z.add Z.mul leaky_relu_Z ones_w zero_b [] = Ok m
    ∧ WaveDiscriminatorBlock_features_lengths Z m [1000%Z]
      = [[1000]; [250]; [63]; [16]; [4]; [4]; [4]]%Z
    ∧ WaveDiscriminatorBlock_features_lengths Z m [1000%Z]
      ≠ [[1000]; [250]; [62]; [15]; [3]; [3]; [3]]%Z.
Proof.
  destruct (WaveDiscriminatorBlock_init_is_Ok Z 0%Z Z.add Z.mul elu_Z leaky_relu_Z
              ones_w zero_b []) as [m Hm].
  exists m; split; [exact Hm|]; split; [reflexivity|discriminate].
Qed.


(** The bound of a causal convolution is attained: with kernel size 2 and
    stride 2, output 1 reads input sample 2, so two inputs that differ at
    sample 2 only give different outputs at index 1 and equal outputs at
    index 0. *)
Example CausalConv1d_reads_last_sample :
  ∃ c y y',
    CausalConv1d_init Z ones_w zero_b [] 1 1 2 2 0 1 1 = Ok c
    ∧ CausalConv1d_forward Z 0%Z Z.add Z.mul c (zeros Z 0%Z 1 1 4) = Ok y
    ∧ CausalConv1d_forward Z 0%Z Z.add Z.mul c
        (Tensor Z 1 1 4 (λ _ _ t, if decide (t = 2) then 1%Z else 0%Z)) = Ok y'
    ∧ steps Z y = 2 ∧ steps Z y' = 2
    ∧ data Z y 0 0 0 = data Z y' 0 0 0
    ∧ data Z y 0 0 1 = 0%Z ∧ data Z y' 0 0 1 = 1%Z.
Proof.
  eexists; eexists; eexists.
  split; [reflexivity|]; split; [reflexivity|]; split; [reflexivity|].
  repeat split.
Qed.

(** The slice [x[:stop]] on six samples: a negative stop counts from the
    end, and [-0] is [0]. *)
Example slice_stop_examples :
  slice_stop 6 (-2) = 4 ∧ slice_stop 6 (-0) = 0 ∧ slice_stop 6 2 = 2
  ∧ slice_stop 6 9 = 6 ∧ slice_stop 6 (-9) = 0.
Proof. repeat split. Qed.

(** * Further statements on concrete inputs *)

Lemma encode_decode_rounds_up_witness :
  length default_c_mults ≤ length default_strides
  ∧ Forall (λ s, 1 ≤ s) (block_strides default_strides default_c_mults)
  ∧ 1 ≤ 4 ∧ 1 ≤ 8 ∧ 1 ≤ 2
  ∧ Forall (λ c, 1 ≤ c) default_c_mults
  ∧ ∃ enc dec,
      SoundStreamXLEncoder_init Z 0%Z Z.add Z.mul elu_Z ones_w zero_b
        [0] 4 8 2 default_strides default_c_mults = Ok enc
      ∧ SoundStreamXLDecoder_init Z 0%Z Z.add Z.mul elu_Z ones_w zero_b
          [1] 4 8 2 = Ok dec
      ∧ ∀ x, channels Z x = 2 → 1 ≤ steps Z x →
          ∃ z, SoundStreamXLEncoder_forward Z enc x = Ok z
               ∧ shape Z z =
                 (batch Z x, 8,
                  (steps Z x + total_stride (block_strides default_strides default_c_mults) - 1)
                    `div` total_stride (block_strides default_strides default_c_mults))
               ∧ (block_strides default_strides default_c_mults
                  = SoundStreamXLDecoder_strides →
                  ∃ y, SoundStreamXLDecoder_forward Z dec z = Ok y
                       ∧ shape Z y = (batch Z x, 2, 640 * ((steps Z x + 639) `div` 640))
                       ∧ steps Z x ≤ steps Z y < steps Z x + 640).
Proof.
  assert (H1 : length default_c_mults ≤ length default_strides) by (simpl; lia).
  assert (H2 : Forall (λ s, 1 ≤ s) (block_strides default_strides default_c_mults))
    by (repeat constructor).
  assert (H3 : 1 ≤ 4) by lia.
  assert (H4 : 1 ≤ 8) by lia.
  assert (H5 : 1 ≤ 2) by lia.
  assert (H6 : Forall (λ c, 1 ≤ c) default_c_mults) by (repeat constructor).
  split; [exact H1|]; split; [exact H2|]; split; [exact H3|]; split; [exact H4|].
  split; [exact H5|]; split; [exact H6|].
  exact (encode_decode_rounds_up Z 0%Z Z.add Z.mul elu_Z leaky_relu_Z ones_w zero_b
           [0] [1] 4 8 2 default_strides default_c_mults H1 H2 H3 H4 H5 H6).
Defined.

Lemma SoundStreamXLEncoder_domain_witness :
  length default_c_mults ≤ length default_strides
  ∧ Forall (λ s, 1 ≤ s) (block_strides default_strides default_c_mults)
  ∧ 1 ≤ 4 ∧ 1 ≤ 8 ∧ 1 ≤ 2
  ∧ Forall (λ c, 1 ≤ c) default_c_mults
  ∧ ∃ enc,
      SoundStreamXLEncoder_init Z 0%Z Z.add Z.mul elu_Z ones_w zero_b
        [] 4 8 2 default_strides default_c_mults = Ok enc
      ∧ ∀ x,
          (channels Z x = 2 ∧ 1 ≤ steps Z x →
           is_Ok (SoundStreamXLEncoder_forward Z enc x))
          ∧ (¬ (channels Z x = 2 ∧ 1 ≤ steps Z x) →
             SoundStreamXLEncoder_forward Z enc x = Raise RuntimeError).
Proof.
  assert (H1 : length default_c_mults ≤ length default_strides) by (simpl; lia).
  assert (H2 : Forall (λ s, 1 ≤ s) (block_strides default_strides default_c_mults))
    by (repeat constructor).
  assert (H3 : 1 ≤ 4) by lia.
  assert (H4 : 1 ≤ 8) by lia.
  assert (H5 : 1 ≤ 2) by lia.
  assert (H6 : Forall (λ c, 1 ≤ c) default_c_mults) by (repeat constructor).
  split; [exact H1|]; split; [exact H2|]; split; [exact H3|]; split; [exact H4|].
  split; [exact H5|]; split; [exact H6|].
  exact (SoundStreamXLEncoder_domain Z 0%Z Z.add Z.mul elu_Z leaky_relu_Z ones_w zero_b
           [] 4 8 2 default_strides default_c_mults H1 H2 H3 H4 H5 H6).
Defined.

Lemma SoundStreamXLDecoder_length_witness :
  1 ≤ 4 ∧ 1 ≤ 8 ∧ 1 ≤ 2
  ∧ ∃ dec,
      SoundStreamXLDecoder_init Z 0%Z Z.add Z.mul elu_Z ones_w zero_b [] 4 8 2 = Ok dec
      ∧ ∀ x,
          (channels Z x = 8 ∧ 1 ≤ steps Z x →
           ∃ y, SoundStreamXLDecoder_forward Z dec x = Ok y
                ∧ shape Z y = (batch Z x, 2, 640 * steps Z x))
          ∧ (¬ (channels Z x = 8 ∧ 1 ≤ steps Z x) →
             SoundStreamXLDecoder_forward Z dec x = Raise RuntimeError).
Proof.
  assert (H1 : 1 ≤ 4) by lia.
  assert (H2 : 1 ≤ 8) by lia.
  assert (H3 : 1 ≤ 2) by lia.
  split; [exact H1|]; split; [exact H2|]; split; [exact H3|].
  exact (SoundStreamXLDecoder_length Z 0%Z Z.add Z.mul elu_Z leaky_relu_Z ones_w zero_b
           [] 4 8 2 H1 H2 H3).
Defined.

Lemma CausalConvTranspose1d_causal_witness :
  ∃ m,
    CausalConvTranspose1d_init Z ones_w zero_b [] 1 1 4 2 0 0 1 1 "zeros" = Ok m
    ∧ (0 < cct_causal_padding Z m)%Z
    ∧ (∀ x y, CausalConvTranspose1d_forward Z 0%Z Z.add Z.mul m x = Ok y →
         steps Z y = steps Z x * 2)
    ∧ causal_up Z (CausalConvTranspose1d_forward Z 0%Z Z.add Z.mul m) 2.
Proof.
  eexists; split; [reflexivity|]; split; [reflexivity|].
  apply (CausalConvTranspose1d_causal Z 0%Z Z.add Z.mul elu_Z leaky_relu_Z
           ones_w zero_b [] 1 1 4 2 0 1 1 "zeros"); reflexivity.
Defined.

Lemma SoundStreamXLDecoder_causal_witness :
  ∃ m,
    SoundStreamXLDecoder_init Z 0%Z Z.add Z.mul elu_Z ones_w zero_b [] 1 1 1 = Ok m
    ∧ ∀ x x' y y' t t',
        agree_upto Z t x x' →
        SoundStreamXLDecoder_forward Z m x = Ok y →
        SoundStreamXLDecoder_forward Z m x' = Ok y' →
        t' < 640 * (t + 1) →
        agree_upto Z t' y y'.
Proof.
  eexists; split; [reflexivity|].
  apply (SoundStreamXLDecoder_causal Z 0%Z Z.add Z.mul elu_Z leaky_relu_Z
           ones_w zero_b [] 1 1 1).
  reflexivity.
Defined.

Lemma SoundStreamXL_forward_shape_witness :
  1 ≤ 2 ∧ 1 ≤ 4 ∧ 1 ≤ 8
  ∧ (∀ z, channels Z z = 8 → 1 ≤ steps Z z →
     ∃ q i l, (identity_quantizer Z) z = Ok (q, i, l) ∧ shape Z q = shape Z z)
  ∧ ∃ m,
      SoundStreamXL_init Z 0%Z Z.add Z.mul elu_Z ones_w zero_b
        [] (identity_quantizer Z) 2 4 8 = Ok m
      ∧ ∀ x, channels Z x = 2 → 1 ≤ steps Z x →
          ∃ y i l,
            SoundStreamXL_forward Z m x = Ok (y, i, l)
            ∧ shape Z y = (batch Z x, 2, 640 * ((steps Z x + 639) `div` 640))
            ∧ (Nat.divide 640 (steps Z x) → shape Z y = shape Z x).
Proof.
  assert (H : ∀ z, channels Z z = 8 → 1 ≤ steps Z z →
                ∃ q i l, (identity_quantizer Z) z = Ok (q, i, l) ∧ shape Z q = shape Z z).
  { intros z _ _; exists z, tt, tt; split; reflexivity. }
  assert (H1 : 1 ≤ 2) by lia.
  assert (H2 : 1 ≤ 4) by lia.
  assert (H3 : 1 ≤ 8) by lia.
  split; [exact H1|]; split; [exact H2|]; split; [exact H3|]; split; [exact H|].
  exact (SoundStreamXL_forward_shape Z 0%Z Z.add Z.mul elu_Z leaky_relu_Z ones_w zero_b
           [] (identity_quantizer Z) 2 4 8 H1 H2 H3 H).
Defined.

Lemma SoundStreamXL_causal_witness :
  ∃ m,
    SoundStreamXL_init Z 0%Z Z.add Z.mul elu_Z ones_w zero_b
      [] (identity_quantizer Z) 1 1 1 = Ok m
    ∧ (∀ z z' q q' (i i' l l' : unit) f,
         agree_upto Z f z z' →
         (identity_quantizer Z) z = Ok (q, i, l) → (identity_quantizer Z) z' = Ok (q', i', l') →
         agree_upto Z f q q')
    ∧ ∀ x x' y y' (i i' l l' : unit) t t',
        agree_upto Z t x x' →
        SoundStreamXL_forward Z m x = Ok (y, i, l) →
        SoundStreamXL_forward Z m x' = Ok (y', i', l') →
        640 * (t' `div` 640) ≤ t →
        agree_upto Z t' y y'.
Proof.
  assert (H : ∀ z z' q q' (i i' l l' : unit) f,
                agree_upto Z f z z' →
                (identity_quantizer Z) z = Ok (q, i, l) →
                (identity_quantizer Z) z' = Ok (q', i', l') →
                agree_upto Z f q q').
  { intros z z' q q' i i' l l' f Hagree [= <- _ _] [= <- _ _]; exact Hagree. }
  eexists; split; [reflexivity|]; split; [exact H|].
  apply (SoundStreamXL_causal Z 0%Z Z.add Z.mul elu_Z leaky_relu_Z ones_w zero_b
           [] (identity_quantizer Z) 1 1 1); [reflexivity|exact H].
Defined.

Lemma CausalConvTranspose1d_negative_causal_padding_witness :
  ∃ m y,
    CausalConvTranspose1d_init Z ones_w zero_b [] 1 1 1 3 0 0 1 1 "zeros" = Ok m
    ∧ (cct_causal_padding Z m < 0)%Z
    ∧ CausalConvTranspose1d_forward Z 0%Z Z.add Z.mul m (zeros Z 0%Z 1 1 2) = Ok y
    ∧ cct_causal_padding Z m = (-2)%Z
    ∧ steps Z y = 2
    ∧ ∃ z, F_conv_transpose1d Z 0%Z Z.add Z.mul (zeros Z 0%Z 1 1 2)
             (ct_weight Z m) (ct_bias Z m) (ct_stride Z m) (ct_padding Z m)
             (ct_output_padding Z m) (ct_groups Z m) (ct_dilation Z m) = Ok z
           ∧ steps Z z = 4.
Proof.
  eexists; eexists.
  split; [reflexivity|]; split; [reflexivity|]; split; [reflexivity|].
  destruct (CausalConvTranspose1d_negative_causal_padding Z 0%Z Z.add Z.mul
              ones_w zero_b [] 1 1 1 3 0 0 1 1 "zeros" _ (zeros Z 0%Z 1 1 2) _
              eq_refl eq_refl eq_refl)
    as (Hcp & z & Hz & _ & Hsy & Hsz).
  split; [exact Hcp|]; split; [reflexivity|].
  exists z; split; [exact Hz|].
  specialize (Hsz eq_refl); simpl in Hsz; lia.
Defined.

Lemma get_padding_same_witness :
  1 ≤ 2 ∧ 1 ≤ 1
  ∧ get_padding (Z.of_nat 2) (Z.of_nat 1) "centered" = inr (1, 1)%Z
  ∧ ∃ xp y,
      F_pad Z 0%Z (zeros Z 0%Z 1 1 5) 1 1 = Ok xp
      ∧ F_conv1d Z 0%Z Z.add Z.mul xp (Weight Z 1 1 2 (λ _ _ _, 1%Z)) (λ _, 0%Z) 1 0 1 1
        = Ok y
      ∧ steps Z y = 6.
Proof.
  split; [lia|]; split; [lia|]; split; [reflexivity|].
  destruct (get_padding_same Z 0%Z Z.add Z.mul elu_Z leaky_relu_Z ones_w zero_b
              2 1 "centered" 1 1 (Weight Z 1 1 2 (λ _ _ _, 1%Z)) (λ _, 0%Z)
              (zeros Z 0%Z 1 1 5))
    as (_ & _ & _ & xp & y & Hxp & Hy & Hs);
    [lia|lia|reflexivity|reflexivity|simpl; lia|simpl; lia|reflexivity|simpl; lia|].
  exists xp, y; split; [exact Hxp|]; split; [exact Hy|].
  rewrite Hs; reflexivity.
Defined.

Lemma WaveDiscriminatorBlock_shapes_witness :
  ∃ m fm,
    WaveDiscriminatorBlock_init Z 0%Z Z.add Z.mul leaky_relu_Z ones_w zero_b [] = Ok m
    ∧ WaveDiscriminatorBlock_forward Z m (zeros Z 0%Z 2 1 20) = Ok fm
    ∧ shape Z <$> fm =
        [(2, 16, 20); (2, 64, 5); (2, 256, 2); (2, 1024, 1);
         (2, 1024, 1); (2, 1024, 1); (2, 1, 1)].
Proof.
  destruct (WaveDiscriminatorBlock_init_is_Ok Z 0%Z Z.add Z.mul elu_Z leaky_relu_Z
              ones_w zero_b []) as [m Hm].
  destruct (WaveDiscriminatorBlock_forward_Ok Z 0%Z Z.add Z.mul elu_Z leaky_relu_Z
              ones_w zero_b [] m (zeros Z 0%Z 2 1 20) Hm eq_refl) as [fm Hfm];
    [simpl; lia|].
  exists m, fm; split; [exact Hm|]; split; [exact Hfm|].
  exact (WaveDiscriminatorBlock_shapes Z 0%Z Z.add Z.mul elu_Z leaky_relu_Z
           ones_w zero_b [] m (zeros Z 0%Z 2 1 20) fm Hm Hfm).
Defined.

Lemma WaveDiscriminator_forward_lengths_witness :
  ∃ m results,
    WaveDiscriminator_init Z 0%Z Z.add Z.mul leaky_relu_Z ones_w zero_b [] 2 2 = Ok m
    ∧ WaveDiscriminator_forward Z 0%Z Z.add div_by_Z m (zeros Z 0%Z 1 1 16) = Ok results
    ∧ WaveDiscriminator_features_lengths Z m [16%Z]
      = Ok (feature_lengths Z <$> results).
Proof.
  destruct (WaveDiscriminator_init_Ok Z 0%Z Z.add Z.mul elu_Z leaky_relu_Z
              ones_w zero_b [] 2 2) as (m & Hm & _).
  destruct (WaveDiscriminator_forward_Ok Z 0%Z Z.add Z.mul elu_Z leaky_relu_Z
              ones_w zero_b div_by_Z [] 1 2 m (zeros Z 0%Z 1 1 16) Hm eq_refl)
    as [results Hres]; [simpl; lia|].
  exists m, results; split; [exact Hm|]; split; [exact Hres|].
  exact (WaveDiscriminator_forward_lengths Z 0%Z Z.add Z.mul elu_Z leaky_relu_Z
           ones_w zero_b div_by_Z [] 2 2 m (zeros Z 0%Z 1 1 16) results Hm Hres).
Defined.

Lemma STFTDiscriminator_forward_lengths_witness :
  ∃ m fm,
    STFTDiscriminator_init Z 0%Z Z.add Z.mul elu_Z ones_w zero_b [] 1 64 = Ok m
    ∧ STFTDiscriminator_forward Z m (Tensor4 Z 1 2 64 64 (λ _ _ _ _, 0%Z)) = Ok fm
    ∧ time_lengths Z fm = [[58]; [58]; [29]; [29]; [15]; [15]; [8]; [8]]%Z.
Proof.
  destruct (STFTDiscriminator_init_Ok Z 0%Z Z.add Z.mul elu_Z
              ones_w zero_b [] 1 64)
    as (c0 & r1 & r2 & r3 & r4 & r5 & r6 & c7 & _ & _ & _ & _ & _ & _ & _ & _ & Hm).
  destruct (STFTDiscriminator_forward_Ok Z 0%Z Z.add Z.mul elu_Z leaky_relu_Z
              ones_w zero_b [] 1 64 _ (Tensor4 Z 1 2 64 64 (λ _ _ _ _, 0%Z)) Hm)
    as [fm Hfm]; [lia|lia|reflexivity|simpl; lia|simpl; lia|vm_compute; lia|].
  eexists; exists fm; split; [exact Hm|]; split; [exact Hfm|].
  exact (STFTDiscriminator_forward_lengths Z 0%Z Z.add Z.mul elu_Z leaky_relu_Z
           ones_w zero_b [] 1 64 _ (Tensor4 Z 1 2 64 64 (λ _ _ _ _, 0%Z)) fm Hm Hfm).
Defined.

Lemma STFTDiscriminator_forward_domain_witness :
  1 ≤ 1 ∧ 64 ≤ 1025
  ∧ ∃ m,
      STFTDiscriminator_init Z 0%Z Z.add Z.mul elu_Z ones_w zero_b [] 1 1025 = Ok m
      ∧ ∀ x,
          is_Ok (STFTDiscriminator_forward Z m x)
          ↔ channels4 Z x = 2 ∧ 7 ≤ height Z x ∧ 7 ≤ width Z x
            ∧ 1025 `div` 64 ≤ down 64 (height Z x - 6).
Proof.
  assert (H1 : 1 ≤ 1) by lia.
  assert (H2 : 64 ≤ 1025) by lia.
  split; [exact H1|]; split; [exact H2|].
  destruct (STFTDiscriminator_init_Ok Z 0%Z Z.add Z.mul elu_Z
              ones_w zero_b [] 1 1025)
    as (c0 & r1 & r2 & r3 & r4 & r5 & r6 & c7 & _ & _ & _ & _ & _ & _ & _ & _ & Hm).
  eexists; split; [exact Hm|].
  intros x.
  exact (STFTDiscriminator_forward_domain Z 0%Z Z.add Z.mul elu_Z leaky_relu_Z
           ones_w zero_b [] 1 1025 _ x H1 H2 Hm).
Defined.

Lemma STFTDiscriminator_logits_shape_witness :
  1 ≤ 1 ∧ 64 ≤ 80
  ∧ ∃ m fm,
      STFTDiscriminator_init Z 0%Z Z.add Z.mul elu_Z ones_w zero_b [] 1 80 = Ok m
      ∧ STFTDiscriminator_forward Z m (Tensor4 Z 3 2 80 30 (λ _ _ _ _, 0%Z)) = Ok fm
      ∧ length fm = 8
      ∧ shape4 Z <$> last fm = Some (3, 1, 2, 3).
Proof.
  assert (H1 : 1 ≤ 1) by lia.
  assert (H2 : 64 ≤ 80) by lia.
  split; [exact H1|]; split; [exact H2|].
  destruct (STFTDiscriminator_init_Ok Z 0%Z Z.add Z.mul elu_Z
              ones_w zero_b [] 1 80)
    as (c0 & r1 & r2 & r3 & r4 & r5 & r6 & c7 & _ & _ & _ & _ & _ & _ & _ & _ & Hm).
  destruct (STFTDiscriminator_logits_shape Z 0%Z Z.add Z.mul elu_Z leaky_relu_Z
              ones_w zero_b [] 1 80 _ (Tensor4 Z 3 2 80 30 (λ _ _ _ _, 0%Z)) H1 H2 Hm)
    as (fm & Hfm & Hlen & Hlast); [reflexivity|reflexivity|simpl; lia|].
  eexists; exists fm; split; [exact Hm|]; split; [exact Hfm|]; split; [exact Hlen|].
  exact Hlast.
Defined.


Lemma CausalConv1d_length_witness :
  ∃ m,
    CausalConv1d_init Z ones_w zero_b [] 2 4 3 2 1 2 2 = Ok m
    ∧ 1 ≤ 3 ∧ 1 ≤ 2 ∧ 1 ≤ 4 ∧ 1 ≤ 10
    ∧ (is_Ok (CausalConv1d_forward Z 0%Z Z.add Z.mul m (zeros Z 0%Z 1 2 10))
       ↔ 2 = 2)
    ∧ ∀ y, CausalConv1d_forward Z 0%Z Z.add Z.mul m (zeros Z 0%Z 1 2 10) = Ok y →
        shape Z y = (1, 4, 6).
Proof.
  eexists; split; [reflexivity|].
  assert (H3 : 1 ≤ 3) by lia.
  assert (H2 : 1 ≤ 2) by lia.
  assert (H4 : 1 ≤ 4) by lia.
  assert (H10 : 1 ≤ 10) by lia.
  split; [exact H3|]; split; [exact H2|]; split; [exact H4|]; split; [exact H10|].
  exact (CausalConv1d_length Z 0%Z Z.add Z.mul elu_Z leaky_relu_Z ones_w zero_b
           [] 2 4 3 2 1 2 2 _ (zeros Z 0%Z 1 2 10) eq_refl H3 H2 H2 H2 H4 H10).
Defined.

Lemma EncoderBlock_downsamples_witness :
  1 ≤ 4 ∧ 1 ≤ 2
  ∧ ∃ m,
      EncoderBlock_init Z 0%Z Z.add Z.mul elu_Z ones_w zero_b [] 2 4 4 = Ok m
      ∧ (∀ x, channels Z x = 2 → 1 ≤ steps Z x →
           ∃ y, EncoderBlock_forward Z m x = Ok y
                ∧ shape Z y = (batch Z x, 4, (steps Z x - 1) `div` 4 + 1))
      ∧ ∀ x x' y y' t t',
          agree_upto Z t x x' →
          EncoderBlock_forward Z m x = Ok y → EncoderBlock_forward Z m x' = Ok y' →
          t' * 4 ≤ t →
          agree_upto Z t' y y'.
Proof.
  assert (H : 1 ≤ 4) by lia.
  assert (H2 : 1 ≤ 2) by lia.
  split; [exact H|]; split; [exact H2|].
  eexists; split; [reflexivity|].
  exact (EncoderBlock_downsamples Z 0%Z Z.add Z.mul elu_Z leaky_relu_Z ones_w zero_b
           [] 2 4 4 _ H H2 H eq_refl).
Defined.

Lemma DecoderBlock_upsamples_witness :
  1 ≤ 4 ∧ 1 ≤ 2
  ∧ ∃ m,
      DecoderBlock_init Z 0%Z Z.add Z.mul elu_Z ones_w zero_b [] 4 2 4 = Ok m
      ∧ (∀ x, channels Z x = 4 → 1 ≤ steps Z x →
           ∃ y, DecoderBlock_forward Z m x = Ok y
                ∧ shape Z y = (batch Z x, 2, steps Z x * 4))
      ∧ ∀ x x' y y' t t',
          agree_upto Z t x x' →
          DecoderBlock_forward Z m x = Ok y → DecoderBlock_forward Z m x' = Ok y' →
          t' `div` 4 ≤ t →
          agree_upto Z t' y y'.
Proof.
  assert (H : 1 ≤ 4) by lia.
  assert (H2 : 1 ≤ 2) by lia.
  split; [exact H|]; split; [exact H2|].
  eexists; split; [reflexivity|].
  exact (DecoderBlock_upsamples Z 0%Z Z.add Z.mul elu_Z leaky_relu_Z ones_w zero_b
           [] 4 2 4 _ H H H2 eq_refl).
Defined.

Lemma train_mode_restores_witness :
  length ((λ m : list bool, (Ok 7, m)) (train false [true; false; true])).2
  ≤ length [true; false; true]
  ∧ train_mode [true; false; true] false (λ m, (Ok 7, m))
    = (Ok 7, [true; false; true]).
Proof.
  assert (H : length ((λ m : list bool, (Ok 7, m)) (train false [true; false; true])).2
              ≤ length [true; false; true]) by (simpl; lia).
  split; [exact H|].
  exact (proj2 (train_mode_restores [true; false; true] false (λ m, (Ok 7, m)) H)
           eq_refl).
Defined.

Lemma train_mode_added_modules_witness :
  length [true; false]
  < length ((λ m : list bool, (Ok tt, m ++ [true])) (train false [true; false])).2
  ∧ train_mode [true; false] false (λ m, (Ok tt, m ++ [true]))
    = (Raise IndexError, [true; false; true]).
Proof.
  assert (H : length [true; false]
              < length ((λ m : list bool, (Ok tt, m ++ [true]))
                          (train false [true; false])).2) by (simpl; lia).
  split; [exact H|].
  exact (train_mode_added_modules [true; false] false (λ m, (Ok tt, m ++ [true])) H).
Defined.

Lemma eval_mode_restores_witness :
  length ((λ m : list bool, (Raise RuntimeError : result nat, m))
            (replicate (length [true; false; true]) false)).2
  = length [true; false; true]
  ∧ eval_mode [true; false; true] (λ m, (Raise RuntimeError : result nat, m))
    = (Raise RuntimeError, [true; false; true]).
Proof.
  assert (H : length ((λ m : list bool, (Raise RuntimeError : result nat, m))
                        (replicate (length [true; false; true]) false)).2
              = length [true; false; true]) by reflexivity.
  split; [exact H|].
  exact (eval_mode_restores [true; false; true]
           (λ m, (Raise RuntimeError : result nat, m)) H).
Defined.
